(** * UMI clustering of wf-single-cell ([bin/cluster_umis.py])

    A shallow embedding of the UMI error-correction engine and of the record
    handling around it, with the properties of its specification.

    Python values are modelled as follows.
    - [str] is [string]; [int] is [Z].
    - a [dict] is an association list in insertion order without repeated
      keys (iteration over a dict follows insertion order);
    - a [set] is the list of its elements; the order in which CPython hands
      the elements out (iteration, [pop]) depends on string hashing and is
      taken as a parameter [set_order] of which only "it is a permutation"
      is known;
    - the sort inside pandas' [value_counts] is not stable; the order it
      gives to values of equal frequency is taken as a parameter
      [sort_values] in the same way;
    - the float arithmetic of [create_region_name] is done on integers,
      with which it agrees for coordinates and interval sizes up to [2^52];
    - an exception is a value of [exn]; code that can raise returns a
      [result]. *)

From Stdlib Require Import List ZArith Lia Bool String Ascii Permutation.
From Stdlib Require Import DecimalString.
Import ListNotations.
Open Scope string_scope.
Open Scope list_scope.
Open Scope Z_scope.

Set Implicit Arguments.

(** ** Exceptions *)

Inductive exn : Type :=
| KeyError (k : string)
| IndexError
| ZeroDivisionError
| ValueError
| OutOfFuel.

Inductive result (A : Type) : Type :=
| Ok (a : A)
| Raise (e : exn).

Arguments Ok {A} a.
Arguments Raise {A} e.

Definition bind {A B : Type} (r : result A) (k : A -> result B) : result B :=
  match r with
  | Ok a => k a
  | Raise e => Raise e
  end.

Notation "x <- e ;; k" := (bind e (fun x => k))
  (at level 61, e at next level, right associativity).

Fixpoint foldM {A B : Type} (f : B -> A -> result B) (l : list A) (b : B)
  : result B :=
  match l with
  | [] => Ok b
  | x :: l' => b' <- f b x ;; foldM f l' b'
  end.

Fixpoint mapM {A B : Type} (f : A -> result B) (l : list A)
  : result (list B) :=
  match l with
  | [] => Ok []
  | x :: l' => y <- f x ;; ys <- mapM f l' ;; Ok (y :: ys)
  end.

(** ** Dictionaries keyed by strings *)

Definition umi := string.

Definition dict (V : Type) := list (string * V).

Fixpoint lookup {V : Type} (k : string) (d : dict V) : option V :=
  match d with
  | [] => None
  | (k', v) :: d' => if String.eqb k k' then Some v else lookup k d'
  end.

(** [d[k]] *)
Definition getitem {V : Type} (d : dict V) (k : string) : result V :=
  match lookup k d with
  | Some v => Ok v
  | None => Raise (KeyError k)
  end.

(** [d[k] = v]: an existing key keeps its position, a new key goes last. *)
Fixpoint dict_set {V : Type} (k : string) (v : V) (d : dict V) : dict V :=
  match d with
  | [] => [(k, v)]
  | (k', v') :: d' =>
      if String.eqb k k' then (k', v) :: d' else (k', v') :: dict_set k v d'
  end.

Definition keys {V : Type} (d : dict V) : list string := map fst d.

(** Membership test of a set (or list) of strings. *)
Definition mem (x : string) (s : list string) : bool :=
  existsb (String.eqb x) s.

(** ** Edit distance *)

(** Modelled from the spec: [edit_distance] is [editdistance.eval], a library
    outside the repository; the glossary defines it as the "minimum number of
    single-character insertions, deletions, substitutions to transform one
    sequence into another (Levenshtein distance)".  This is the usual
    recurrence of that minimum. *)
Fixpoint levenshtein (s : list ascii) : list ascii -> nat :=
  match s with
  | [] => fun t => List.length t
  | a :: s' =>
      fix lev_row (t : list ascii) : nat :=
        match t with
        | [] => S (List.length s')
        | b :: t' =>
            Nat.min (S (levenshtein s' t))
              (Nat.min (S (lev_row t'))
                 ((if Ascii.eqb a b then 0 else 1) + levenshtein s' t'))%nat
        end
  end.

Definition edit_distance (u v : umi) : nat :=
  levenshtein (list_ascii_of_string u) (list_ascii_of_string v).

(** ** Adjacency Graph Builder *)

Definition counts_dict := dict Z.
Definition adj_list := dict (list umi).

(** [itertools.combinations(l, 2)] *)
Fixpoint combinations2 {A : Type} (l : list A) : list (A * A) :=
  match l with
  | [] => []
  | x :: r => map (pair x) r ++ combinations2 r
  end.

(** [adj_list[k].append(v)] *)
Definition dict_append (k : umi) (v : umi) (adj : adj_list) : result adj_list :=
  l <- getitem adj k ;; Ok (dict_set k (l ++ [v]) adj).

(** One turn of the loop over the UMI pairs. *)
Definition adj_step (counts : counts_dict) (threshold : Z)
    (adj : adj_list) (p : umi * umi) : result adj_list :=
  let (umi1, umi2) := p in
  if Z.of_nat (edit_distance umi1 umi2) <=? threshold then
    c1 <- getitem counts umi1 ;;
    c2 <- getitem counts umi2 ;;
    adj1 <- (if c1 >=? c2 * 2 - 1 then dict_append umi1 umi2 adj else Ok adj) ;;
    (if c2 >=? c1 * 2 - 1 then dict_append umi2 umi1 adj1 else Ok adj1)
  else Ok adj.

Definition get_adj_list_directional (umis : list umi) (counts : counts_dict)
    (threshold : Z) : result adj_list :=
  let adj0 := fold_left (fun d u => dict_set u [] d) umis [] in
  foldM (adj_step counts threshold) (combinations2 umis) adj0.

(** ** Sorting as [sorted(..., key=..., reverse=True)] does

    Python's sort is stable, also with [reverse=True]: elements whose keys are
    equal keep the order they had.  The elements arrive decorated with their
    key. *)

Fixpoint insert_desc {A : Type} (x : A * Z) (l : list (A * Z)) : list (A * Z) :=
  match l with
  | [] => [x]
  | y :: l' => if snd x >=? snd y then x :: y :: l' else y :: insert_desc x l'
  end.

Fixpoint sort_desc {A : Type} (l : list (A * Z)) : list (A * Z) :=
  match l with
  | [] => []
  | x :: l' => insert_desc x (sort_desc l')
  end.

(** [sorted(l, key=lambda x: counts[x], reverse=True)] *)
Definition sorted_by_count_desc (counts : counts_dict) (l : list umi)
  : result (list umi) :=
  keyed <- mapM (fun x => c <- getitem counts x ;; Ok (x, c)) l ;;
  Ok (map fst (sort_desc keyed)).

(** ** Sets of UMIs *)

(** [s.add(x)] *)
Definition set_add (x : umi) (s : list umi) : list umi :=
  if mem x s then s else s ++ [x].

(** [s.update(t)] *)
Definition set_update (s t : list umi) : list umi :=
  fold_left (fun acc x => set_add x acc) t s.

(** Two iteration orders used in examples: the order of insertion and its
    reverse. *)
Definition insertion_order (s : list umi) : list umi := s.
Definition reverse_order (s : list umi) : list umi := rev s.

(** An iteration order that hands out [x] first when the set has it. *)
Definition front_order (x : umi) (s : list umi) : list umi :=
  filter (String.eqb x) s ++ filter (fun y => negb (String.eqb x y)) s.

Section Clustering.

(** The order in which a set hands out its elements. *)
Variable set_order : list umi -> list umi.
Hypothesis set_order_perm : forall s, Permutation (set_order s) s.

(** ** Connected-Component Extractor *)

(** The [for next_node in adj_list[node]] loop of the search; the state is
    the pair of [queue] and [searched]. *)
Definition bfs_visit (st : list umi * list umi) (next_node : umi)
  : list umi * list umi :=
  let (queue, searched) := st in
  if mem next_node searched then (queue, searched)
  else (set_add next_node queue, set_add next_node searched).

(** The [while len(queue) > 0] loop.  [queue.pop()] removes the element the
    set hands out first. *)
Fixpoint bfs_loop (fuel : nat) (adj : adj_list) (queue searched : list umi)
  : result (list umi) :=
  match queue with
  | [] => Ok searched
  | _ :: _ =>
      match fuel with
      | O => Raise OutOfFuel
      | S fuel' =>
          match set_order queue with
          | [] => Raise (KeyError "pop from an empty set")
          | node :: _ =>
              let queue' := remove string_dec node queue in
              nbrs <- getitem adj node ;;
              let (queue2, searched2) :=
                fold_left bfs_visit nbrs (queue', searched) in
              bfs_loop fuel' adj queue2 searched2
          end
      end
  end.

(** Every turn of the loop takes one node out of the queue and every node
    enters the queue at most once, so one turn per node of the graph is
    enough (lemma [bfs_loop_fuel] below). *)
Definition bfs_fuel (node : umi) (adj : adj_list) : nat :=
  S (List.length (node :: keys adj ++ List.concat (map snd adj))).

Definition breadth_first_search (node : umi) (adj : adj_list)
  : result (list umi) :=
  bfs_loop (bfs_fuel node adj) adj (set_update [] [node]) (set_update [] [node]).

(** The loop body of [get_connected_components_adjacency]; the state is the
    pair of [found] and [components]. *)
Definition components_step (graph : adj_list)
    (st : list umi * list (list umi)) (node : umi)
  : result (list umi * list (list umi)) :=
  let (found, components) := st in
  if mem node found then Ok (found, components)
  else
    component <- breadth_first_search node graph ;;
    Ok (set_update found component, components ++ [component]).

Definition get_connected_components_adjacency (umis : list umi)
    (graph : adj_list) (counts : counts_dict) : result (list (list umi)) :=
  order <- sorted_by_count_desc counts (keys graph) ;;
  st <- foldM (components_step graph) order ([], []) ;;
  Ok (snd st).

(** ** Directional Grouper *)

(** The inner loop over the sorted nodes of a component; the state is the
    pair of [temp_cluster] and [observed]. *)
Definition group_visit (st : list umi * list umi) (node : umi)
  : list umi * list umi :=
  let (temp_cluster, observed) := st in
  if mem node observed then (temp_cluster, observed)
  else (temp_cluster ++ [node], set_add node observed).

Definition group_step (counts : counts_dict)
    (st : list umi * list (list umi)) (cluster : list umi)
  : result (list umi * list (list umi)) :=
  let (observed, groups) := st in
  if (List.length cluster =? 1)%nat then
    Ok (set_update observed cluster, groups ++ [set_order cluster])
  else
    sorted <- sorted_by_count_desc counts (set_order cluster) ;;
    let (temp_cluster, observed') :=
      fold_left group_visit sorted ([], observed) in
    Ok (observed', groups ++ [temp_cluster]).

Definition group_directional (clusters : list (list umi)) (adj : adj_list)
    (counts : counts_dict) : result (list (list umi)) :=
  st <- foldM (group_step counts) clusters ([], []) ;;
  Ok (snd st).

(** ** The per-group pipeline *)

Definition cluster (counts : counts_dict) (threshold : Z)
  : result (list (list umi)) :=
  adj <- get_adj_list_directional (keys counts) counts threshold ;;
  clusters <- get_connected_components_adjacency (keys counts) adj counts ;;
  groups <- group_directional clusters adj counts ;;
  Ok (map (fun x => x) groups).

End Clustering.

(** ** Correction Map Builder *)

(** [x[0]] *)
Definition first {A : Type} (x : list A) : result A :=
  match x with
  | [] => Raise IndexError
  | a :: _ => Ok a
  end.

(** [{y: x[0] for x in cluster_list for y in x}]: [x[0]] is evaluated once
    for every [y], so an empty [x] evaluates nothing. *)
Definition create_map_to_correct_umi (cluster_list : list (list umi))
  : result (dict umi) :=
  foldM (fun my_map x =>
           foldM (fun m y => r <- first x ;; Ok (dict_set y r m)) x my_map)
    cluster_list [].

(** [umis.replace(umi_map)] on a column of UMIs *)
Definition replace (umi_map : dict umi) (umis : list umi) : list umi :=
  map (fun u => match lookup u umi_map with Some r => r | None => u end) umis.

(** The first stage of [umis.value_counts()]: the distinct values, in the
    order of their first appearance, with the number of times each occurs. *)
Definition occurrences (umis : list umi) : counts_dict :=
  fold_left
    (fun d u =>
       dict_set u (match lookup u d with Some c => c + 1 | None => 1 end) d)
    umis [].

(** [dict(umis.value_counts())]: the occurrences, most frequent first.
    pandas sorts them with [sort_values(ascending=False)], whose default
    sort (quicksort) is not stable: the order it gives to values of equal
    frequency is not the order of first appearance once there are more than
    a few distinct values.  The sort is therefore a parameter [sort_values],
    of which only "the same entries, in descending order of count" is known;
    the key order of the dictionary decides the order among component starts
    of equal count. *)
Definition value_counts (sort_values : counts_dict -> counts_dict)
    (umis : list umi) : counts_dict :=
  sort_values (occurrences umis).

(** ** Region names *)

Definition string_of_Z (z : Z) : string :=
  NilZero.string_of_int (Z.to_int z).

(** A row of the merged annotation table, as [df.itertuples()] yields it. *)
Record row : Type := mkRow {
  Index : string;
  gene : string;
  ref_id : string;
  CB : string;
  UR : string;
  chr : string;
  start : Z;
  end_ : Z
}.

Record args : Type := mkArgs {
  chrom : string;
  ref_interval : Z;
  cell_gene_max_reads : Z;
  threads : Z
}.

(** The source computes the region bounds in binary64 floating point.  The
    three functions below are the same computations on integers; they give
    what the source gives as long as every intermediate value is a float
    without rounding error that matters, which is the case on
    [0 <= start_pos, end_pos < 2^52] and [0 < ref_interval <= 2^52]:
    - [start_pos + end_pos] is below [2^53], so its half is a float and
      [int] of it is the truncated quotient;
    - [midpoint / ref_interval] is the quotient rounded to the nearest
      float; a quotient that is not an integer is at least
      [1 / ref_interval] away from the next integer, and the floats around
      an integer [k] are spaced less than [k * 2^-52] apart, so with
      [midpoint + ref_interval < 2^53] rounding never reaches an integer and
      [np.floor] and [np.ceil] see the floor and the ceiling of the exact
      quotient;
    - the products with [ref_interval] are integers below [2^53], hence
      floats.
    Beyond that range (from coordinates of about [2^53]) the source rounds
    and prints other bounds; the properties of the region name below are
    stated within the range. *)

(** [int((start_pos + end_pos) / 2)]: [int] truncates towards zero. *)
Definition midpoint (start_pos end_pos : Z) : Z :=
  Z.quot (start_pos + end_pos) 2.

(** [np.floor(midpoint / ref_interval) * ref_interval] *)
Definition interval_start (m ref : Z) : Z := (m / ref) * ref.

(** [np.ceil(midpoint / ref_interval) * ref_interval] *)
Definition interval_end (m ref : Z) : Z := (- ((- m) / ref)) * ref.

Definition create_region_name (read : row) (a : args) : result string :=
  let m := midpoint (start read) (end_ read) in
  if ref_interval a =? 0 then Raise ZeroDivisionError
  else
    Ok (chr read ++ "_" ++ string_of_Z (interval_start m (ref_interval a))
          ++ "_" ++ string_of_Z (interval_end m (ref_interval a)))%string.

(** ** Reading and joining the annotation tables *)

Record gene_assign : Type := mkGene {
  ga_status : string;
  ga_mapq : Z;
  ga_gene : string
}.

Record tag : Type := mkTag {
  tag_CB : string;
  tag_UR : string;
  tag_chr : string;
  tag_start : Z;
  tag_end : Z
}.

(** [left.merge(right, left_index=True, right_index=True)]: the inner join
    on the index, in the order of the left table. *)
Definition merge {A B : Type} (left : dict A) (right : dict B) : dict (A * B) :=
  flat_map
    (fun l =>
       map (fun r => (fst l, (snd l, snd r)))
         (filter (fun r => String.eqb (fst r) (fst l)) right))
    left.

(** The [try: pd.read_csv(...) except EmptyDataError: pd.DataFrame()] around
    the transcript table: a file without data ([None]) gives an empty table.
    The value is never Python's [None]. *)
Definition read_transcript_assigns (file : option (dict string))
  : option (dict string) :=
  match file with
  | Some t => Some t
  | None => Some []
  end.

Definition merged_rows (gene_assigns : dict gene_assign)
    (transcript_assigns : dict string) (tags : dict tag) : list row :=
  map (fun x =>
         let '(read_id, ((g, tr), t)) := x in
         mkRow read_id (ga_gene g) tr (tag_CB t) (tag_UR t)
           (tag_chr t) (tag_start t) (tag_end t))
    (merge (merge gene_assigns transcript_assigns) tags).

(** ** The loop over the reads and the cap per group *)

(** [(read_id, gene, transcript, bc_corr, umi_uncorr)] *)
Record record : Type := mkRecord {
  read_id : string;
  rec_gene : string;
  rec_transcript : string;
  rec_bc : string;
  rec_umi : umi
}.

(** [collections.Counter] keyed by [(bc_corr, gene)]; a missing key counts
    as 0. *)
Definition counter := list ((string * string) * Z).

(** [collections.Counter()] *)
Definition empty_counter : counter := [].

Definition key_eqb (k k' : string * string) : bool :=
  String.eqb (fst k) (fst k') && String.eqb (snd k) (snd k').

Fixpoint counter_get (c : counter) (k : string * string) : Z :=
  match c with
  | [] => 0
  | (k', n) :: c' => if key_eqb k k' then n else counter_get c' k
  end.

Fixpoint counter_incr (c : counter) (k : string * string) : counter :=
  match c with
  | [] => [(k, 1)]
  | (k', n) :: c' =>
      if key_eqb k k' then (k', n + 1) :: c' else (k', n) :: counter_incr c' k
  end.

(** The tuple a row contributes: its transcript is looked up with
    [transcript_assigns.loc[read_id, 'ref_id']] unless the table is [None],
    and a gene ["NA"] is replaced by the region name. *)
Definition row_record (transcript_assigns : option (dict string)) (a : args)
    (r : row) : result record :=
  let bc_corr := CB r in
  let umi_uncorr := UR r in
  transcript <-
    match transcript_assigns with
    | Some t => getitem t (Index r)
    | None => Ok "-"
    end ;;
  g <- (if String.eqb (gene r) "NA" then create_region_name r a
        else Ok (gene r)) ;;
  Ok (mkRecord (Index r) g transcript bc_corr umi_uncorr).

(** The body of [for row in df.itertuples()]; the state is the pair of
    [records] and [cell_gene_counter]. *)
Definition record_step (transcript_assigns : option (dict string)) (a : args)
    (st : list record * counter) (r : row) : result (list record * counter) :=
  let (records, cell_gene_counter) := st in
  rec <- row_record transcript_assigns a r ;;
  let k := (rec_bc rec, rec_gene rec) in
  let cell_gene_counter' := counter_incr cell_gene_counter k in
  if counter_get cell_gene_counter' k <=? cell_gene_max_reads a then
    Ok (records ++ [rec], cell_gene_counter')
  else Ok (records, cell_gene_counter').

Definition collect_records (transcript_assigns : option (dict string))
    (a : args) (rows : list row) : result (list record) :=
  st <- foldM (record_step transcript_assigns a) rows ([], empty_counter) ;;
  Ok (fst st).

(** The group of a record, as the counter keys it. *)
Definition group_key (r : record) : string * string := (rec_bc r, rec_gene r).

Definition in_group (k : string * string) (r : record) : bool :=
  key_eqb (group_key r) k.

(** ** Batches and the worker pool *)

(** [df["gene"] + ":" + df["bc"]] *)
Definition gene_cell (r : record) : string :=
  (rec_gene r ++ ":" ++ rec_bc r)%string.

(** [chunks(lst, n)] for a positive [n]: the slices [lst[i : i + n]] for
    [i] in [range(0, len(lst), n)]. *)
Fixpoint chunks_from {A : Type} (fuel : nat) (lst : list A) (n : nat)
  : list (list A) :=
  match fuel, lst with
  | S fuel', _ :: _ => firstn n lst :: chunks_from fuel' (skipn n lst) n
  | _, _ => []
  end.

Definition chunks {A : Type} (lst : list A) (n : nat) : list (list A) :=
  chunks_from (List.length lst) lst n.

Definition gene_cell_per_chunk : nat := 50.

(** [df.loc[gene_cell_chunk]]: the rows of every key of the chunk, key by
    key. *)
Definition loc (df : list record) (gene_cell_chunk : list string)
  : list record :=
  flat_map (fun k => filter (fun r => String.eqb (gene_cell r) k) df)
    gene_cell_chunk.

(** [l[i]] *)
Definition item {A : Type} (l : list A) (i : nat) : result A :=
  match nth_error l i with
  | Some x => Ok x
  | None => Raise IndexError
  end.

(** [df.groupby(["gene_cell"])["umi_uncorr"].transform(f)]: [f] is applied
    to the UMIs of each group and every row receives the value at its own
    position in its group.  [before] holds the rows already passed. *)
Fixpoint groupby_transform (f : list umi -> result (list umi))
    (df before rest : list record) : result (list (record * umi)) :=
  match rest with
  | [] => Ok []
  | r :: rest' =>
      let same := fun x => String.eqb (gene_cell x) (gene_cell r) in
      corrected <- f (map rec_umi (filter same df)) ;;
      c <- item corrected (List.length (filter same before)) ;;
      others <- groupby_transform f df (before ++ [r]) rest' ;;
      Ok ((r, c) :: others)
  end.

(** ** Data frames where the code names their columns

    A row maps column names to cells; [index] is the column that
    [set_index] made the index. *)
Record frame : Type := mkFrame {
  columns : list string;
  index : option string;
  frame_rows : list (dict string)
}.

Definition run_groupby_columns : list string :=
  ["read_id"; "gene"; "transcript"; "bc"; "umi_uncorr"; "umi_corr"].

Definition frame_of_corrected (l : list (record * umi)) : frame :=
  mkFrame run_groupby_columns (Some "gene_cell")
    (map (fun x : record * umi =>
            let (r, c) := x in
            [("gene_cell", gene_cell r); ("read_id", read_id r);
             ("gene", rec_gene r); ("transcript", rec_transcript r);
             ("bc", rec_bc r); ("umi_uncorr", rec_umi r); ("umi_corr", c)])
       l).

(** [pd.concat(results, axis=0)] *)
Definition concat_frames (results : list frame) : frame :=
  mkFrame (fold_left (fun cs df => set_update cs (columns df)) results [])
    (match results with df :: _ => index df | [] => None end)
    (flat_map frame_rows results).

(** [df.drop(labels, axis=1)] *)
Definition drop (labels : list string) (df : frame) : result frame :=
  match filter (fun c => negb (mem c (columns df))) labels with
  | [] =>
      Ok (mkFrame (filter (fun c => negb (mem c labels)) (columns df))
            (index df) (frame_rows df))
  | c :: _ => Raise (KeyError c)
  end.

(** [df.set_index(c)] *)
Definition set_index (c : string) (df : frame) : result frame :=
  if mem c (columns df) then
    Ok (mkFrame (filter (fun c' => negb (String.eqb c' c)) (columns df))
          (Some c) (frame_rows df))
  else Raise (KeyError c).

(** The label of a row: its cell in the index column, or its position. *)
Definition row_label (df : frame) (i : nat) (r : dict string) : string :=
  match index df with
  | Some c => match lookup c r with Some v => v | None => "" end
  | None => string_of_Z (Z.of_nat i)
  end.

Fixpoint column_dict (df : frame) (c : string) (i : nat)
    (rows : list (dict string)) (d : dict (option string))
  : dict (option string) :=
  match rows with
  | [] => d
  | r :: rows' =>
      column_dict df c (S i) rows' (dict_set (row_label df i r) (lookup c r) d)
  end.

(** [df.replace({np.nan: None}).to_dict()]: one dictionary from label to
    cell per column; a missing cell is [None]. *)
Definition to_dict (df : frame) : dict (dict (option string)) :=
  map (fun c => (c, column_dict df c 0%nat (frame_rows df) [])) (columns df).

(** ** Record Tagger *)

Record alignment : Type := mkAlignment {
  query_name : string;
  aln_tags : dict string
}.

(** [align.set_tag(t, value, value_type="Z")]; a value [None] removes the
    tag. *)
Definition set_tag (t : string) (value : option string) (al : alignment)
  : alignment :=
  match value with
  | Some v => mkAlignment (query_name al) (dict_set t v (aln_tags al))
  | None =>
      mkAlignment (query_name al)
        (filter (fun kv => negb (String.eqb (fst kv) t)) (aln_tags al))
  end.

(** [d.get(k)], with [None] for a missing key and for a stored [None] *)
Definition get (d : dict (option string)) (k : string) : option string :=
  match lookup k d with
  | Some v => v
  | None => None
  end.

Definition is_not_None {A : Type} (o : option A) : bool :=
  match o with Some _ => true | None => false end.

(** The body of [for align in bam.fetch(chrom)]; the state is the pair of
    the written alignments and [read_tags]. *)
Definition add_tags_step (umis genes transcripts : dict (option string))
    (st : list alignment * list (list string)) (align : alignment)
  : result (list alignment * list (list string)) :=
  let (bam_out, read_tags) := st in
  let rid := query_name align in
  if is_not_None (get umis rid) && is_not_None (get genes rid) then
    ub <- getitem umis rid ;;
    let align := set_tag "UB" ub align in
    gn <- getitem genes rid ;;
    let align := set_tag "GN" gn align in
    tr <- getitem transcripts rid ;;
    let align := set_tag "TR" tr align in
    gn' <- getitem (aln_tags align) "GN" ;;
    tr' <- getitem (aln_tags align) "TR" ;;
    cb' <- getitem (aln_tags align) "CB" ;;
    ub' <- getitem (aln_tags align) "UB" ;;
    Ok (bam_out ++ [align], read_tags ++ [[rid; gn'; tr'; cb'; ub']])
  else Ok (bam_out, read_tags).

(** Returns the alignments written to the output BAM and the rows of the
    read-tag table. *)
Definition add_tags (bam : list alignment)
    (umis genes transcripts : dict (option string))
  : result (list alignment * list (list string)) :=
  foldM (add_tags_step umis genes transcripts) bam ([], []).

Section Records.

Variable set_order : list string -> list string.
Variable sort_values : counts_dict -> counts_dict.

Definition correct_umis (umis : list umi) : result (list umi) :=
  let counts := value_counts sort_values umis in
  clusters <- cluster set_order counts 3 ;;
  umi_map <- create_map_to_correct_umi clusters ;;
  Ok (replace umi_map umis).

Definition run_groupby (df : list record) : result frame :=
  rows <- groupby_transform correct_umis df [] df ;;
  Ok (frame_of_corrected rows).

(** [launch_pool(func, func_args, procs)]:
    [multiprocessing.Pool(processes=procs)] raises [ValueError] when [procs]
    is below 1; [Pool.imap] returns the results in the order of the
    arguments, whichever worker computed them. *)
Definition launch_pool {A B : Type} (func : A -> result B)
    (func_args : list A) (procs : Z) : result (list B) :=
  if procs <? 1 then Raise ValueError else mapM func func_args.

(** The part of [process_records] after the loop over the reads. *)
Definition correct_and_tag (records : list record) (bam : list alignment)
    (a : args) : result (list alignment * list (list string)) :=
  let gene_cell_unique := set_order (set_update [] (map gene_cell records)) in
  let gene_cell_chunks := chunks gene_cell_unique gene_cell_per_chunk in
  let func_args := map (loc records) gene_cell_chunks in
  results <- launch_pool run_groupby func_args (threads a) ;;
  let df :=
    match results with
    | _ :: _ => concat_frames results
    | [] =>
        mkFrame ["read_id"; "gene"; "bc"; "umi_uncorr"; "umi_corr"] None []
    end in
  df <- drop ["bc"; "umi_uncorr"] df ;;
  df <- set_index "read_id" df ;;
  umis <- getitem (to_dict df) "umi_corr" ;;
  genes <- getitem (to_dict df) "gene" ;;
  transcripts <- getitem (to_dict df) "transcript" ;;
  add_tags bam umis genes transcripts.

Definition process_records (tags : dict tag) (gene_assigns : dict gene_assign)
    (transcript_file : option (dict string)) (bam : list alignment) (a : args)
  : result (list alignment * list (list string)) :=
  let transcript_assigns := read_transcript_assigns transcript_file in
  let table :=
    match transcript_assigns with Some t => t | None => [] end in
  let df := merged_rows gene_assigns table tags in
  records <- collect_records transcript_assigns a df ;;
  correct_and_tag records bam a.

End Records.

(** ** Notions used to state the properties *)

(** The count of a UMI, 0 when the map does not have it. *)
Definition count_of (counts : counts_dict) (u : umi) : Z :=
  match lookup u counts with
  | Some c => c
  | None => 0
  end.

(** The edge rule of the directional method. *)
Definition edge (counts : counts_dict) (threshold : Z) (u v : umi) : Prop :=
  (Z.of_nat (edit_distance u v) <= threshold)%Z /\
  (count_of counts u >= 2 * count_of counts v - 1)%Z.

(** The neighbours of a node, none for a node that is not a key. *)
Definition neighbours (adj : adj_list) (u : umi) : list umi :=
  match lookup u adj with
  | Some l => l
  | None => []
  end.

(** Reachability along the neighbour lists, in the direction they are
    stored. *)
Inductive reach (adj : adj_list) (n : umi) : umi -> Prop :=
| reach_refl : reach adj n n
| reach_step : forall m k,
    reach adj n m -> In k (neighbours adj m) -> reach adj n k.

(** Every neighbour is itself a key. *)
Definition closed (adj : adj_list) : Prop :=
  forall u v, In v (neighbours adj u) -> In v (keys adj).

(** The two endpoints are joined by a path that may take every edge in
    either direction. *)
Inductive connected (adj : adj_list) (n : umi) : umi -> Prop :=
| connected_refl : connected adj n n
| connected_fwd : forall m k,
    connected adj n m -> In k (neighbours adj m) -> connected adj n k
| connected_bwd : forall m k,
    connected adj n m -> In m (neighbours adj k) -> connected adj n k.

(** How the components come about: the nodes are taken in [order]; a node
    already in [found] is passed over, any other node starts a component,
    which is the set of nodes reachable from it, and all of them are then
    found. *)
Inductive discovered (adj : adj_list)
  : list umi -> list umi -> list (list umi) -> Prop :=
| discovered_nil : forall found, discovered adj found [] []
| discovered_skip : forall found n order comps,
    In n found ->
    discovered adj found order comps ->
    discovered adj found (n :: order) comps
| discovered_start : forall found found' n order c comps,
    ~ In n found ->
    NoDup c ->
    (forall x, In x c <-> reach adj n x) ->
    (forall x, In x found' <-> In x found \/ In x c) ->
    discovered adj found' order comps ->
    discovered adj found (n :: order) (c :: comps).

(** Descending by a key; [descending counts] is descending by count. *)
Inductive descending_by {A : Type} (key : A -> Z) : list A -> Prop :=
| descending_nil : descending_by key []
| descending_cons : forall x l,
    Forall (fun y => (key y <= key x)%Z) l ->
    descending_by key l ->
    descending_by key (x :: l).

Definition descending (counts : counts_dict) : list umi -> Prop :=
  descending_by (count_of counts).

(** How the clusters come about from the components: a cluster holds the
    nodes of its component that no earlier component had, without
    repetition and in descending order of count; [observed] is the set of
    the nodes of the earlier components. *)
Inductive grouped (counts : counts_dict)
  : list umi -> list (list umi) -> list (list umi) -> Prop :=
| grouped_nil : forall observed, grouped counts observed [] []
| grouped_cons : forall observed observed' c comps g groups,
    NoDup g ->
    descending counts g ->
    (forall x, In x g <-> In x c /\ ~ In x observed) ->
    (forall x, In x observed' <-> In x observed \/ In x c) ->
    grouped counts observed' comps groups ->
    grouped counts observed (c :: comps) (g :: groups).

(** The state of the search from [n0]: the queue is part of the searched
    set, everything searched is reachable, and a searched node that has left
    the queue has all its neighbours searched. *)
Definition bfs_invariant (adj : adj_list) (n0 : umi)
    (queue searched : list umi) : Prop :=
  In n0 searched /\
  incl queue searched /\
  NoDup searched /\
  (forall x, In x searched -> reach adj n0 x) /\
  (forall x, In x searched -> ~ In x queue ->
             forall y, In y (neighbours adj x) -> In y searched).

(** The per-group correction: [create_map_to_correct_umi(cluster(counts))],
    as [correct_umis] calls it. *)
Definition correction_map (set_order : list umi -> list umi)
    (counts : counts_dict) (threshold : Z) : result (dict umi) :=
  clusters <- cluster set_order counts threshold ;;
  create_map_to_correct_umi clusters.

(** No node is in two components of the list. *)
Definition disjoint_components (comps : list (list umi)) : Prop :=
  forall i j c1 c2 x,
    nth_error comps i = Some c1 -> nth_error comps j = Some c2 ->
    In x c1 -> In x c2 -> i = j.

(** A component holds, with a node, every node joined to it by edges taken
    in either direction. *)
Definition undirected_components (adj : adj_list) (comps : list (list umi))
  : Prop :=
  forall u v c, connected adj u v -> In c comps -> In u c -> In v c.

(** No tie decides a representative: a UMI that reaches a different UMI of
    the same count is itself reached from a UMI of strictly higher count
    (and so is never the start of a component). *)
Definition no_deciding_tie (adj : adj_list) (counts : counts_dict) : Prop :=
  forall u v,
    reach adj u v -> v <> u -> count_of counts u = count_of counts v ->
    exists h, reach adj h u /\ count_of counts u < count_of counts h.

(** The test of [add_tags]: the read has a corrected UMI and a gene. *)
Definition selected (umis genes : dict (option string)) (al : alignment)
  : bool :=
  is_not_None (get umis (query_name al))
  && is_not_None (get genes (query_name al)).

(** [al'] and [row] are what [add_tags] writes for the alignment [al]: the
    alignment with the tags UB, GN and TR set, and the row of the read-tag
    table. *)
Definition tagged (umis genes transcripts : dict (option string))
    (al al' : alignment) (row : list string) : Prop :=
  exists ub gn tr cb,
    get umis (query_name al) = Some ub /\
    get genes (query_name al) = Some gn /\
    get transcripts (query_name al) = Some tr /\
    lookup "CB" (aln_tags al) = Some cb /\
    al' = set_tag "TR" (Some tr)
            (set_tag "GN" (Some gn) (set_tag "UB" (Some ub) al)) /\
    row = [query_name al; gn; tr; cb; ub].

(** Example data. *)
Definition counts_scenario : counts_dict :=
  [("AAAAA", 100); ("AAAAT", 5); ("TTTTT", 50)].
Definition counts_overlap : counts_dict :=
  [("AAAAAA", 5); ("TTTTTT", 5); ("AAATTT", 2)].
Definition counts_tie : counts_dict := [("AC", 1); ("AG", 1)].
Definition counts_minor_tie : counts_dict :=
  [("AAAAA", 10); ("AAAAT", 1); ("AAAAC", 1)].
Definition graph_minor_tie : adj_list :=
  [("AAAAA", ["AAAAT"; "AAAAC"]); ("AAAAT", ["AAAAC"]); ("AAAAC", ["AAAAT"])].
Definition graph_overlap : adj_list :=
  [("AAAAAA", ["AAATTT"]); ("TTTTTT", ["AAATTT"]); ("AAATTT", [])].
Definition example_args : args := mkArgs "chr1" 1000 2 4.
Definition example_tags : dict tag :=
  [("r1", mkTag "BC1" "AAAAA" "chr1" 1400 1600);
   ("r2", mkTag "BC1" "AAAAT" "chr1" 1410 1610);
   ("r3", mkTag "BC1" "AAAAT" "chr1" 1420 1620);
   ("r4", mkTag "BC1" "AAAAT" "chr1" 1900 2100)].
Definition example_gene_assigns : dict gene_assign :=
  [("r1", mkGene "Assigned" 60 "G1"); ("r2", mkGene "Assigned" 60 "G1");
   ("r3", mkGene "Assigned" 60 "G1");
   ("r4", mkGene "Unassigned_NoFeatures" 60 "NA")].
Definition example_transcripts : dict string :=
  [("r1", "T1"); ("r2", "T2"); ("r3", "T2"); ("r4", "T9")].
Definition example_transcripts_without_r2 : dict string :=
  [("r1", "T1"); ("r3", "T2"); ("r4", "T9")].
Definition example_bam : list alignment :=
  map (fun r => mkAlignment r [("CB", "BC1")]) ["r1"; "r2"; "r3"; "r4"].

(** * Properties *)

Unset Implicit Arguments.

(** ** The result monad *)

Lemma bind_Ok {A B : Type} (r : result A) (k : A -> result B) (b : B) :
  bind r k = Ok b -> exists a, r = Ok a /\ k a = Ok b.
Proof.
  destruct r as [a|e]; simpl; intros H; [exists a; auto | discriminate].
Qed.

Lemma foldM_app {A B : Type} (f : B -> A -> result B) (l1 l2 : list A) (b : B) :
  foldM f (l1 ++ l2) b = (b' <- foldM f l1 b ;; foldM f l2 b').
Proof.
  revert b; induction l1 as [|x l1 IH]; intros b; simpl; auto.
  destruct (f b x); simpl; auto.
Qed.

(** ** Region names *)

Lemma interval_start_multiple (m ref : Z) :
  ref <> 0 -> m mod ref = 0 -> interval_start m ref = m.
Proof.
  intros Hr Hm. unfold interval_start.
  rewrite (Z.div_mod m ref Hr) at 2. lia.
Qed.

Lemma interval_end_multiple (m ref : Z) :
  ref <> 0 -> m mod ref = 0 -> interval_end m ref = m.
Proof.
  intros Hr Hm. unfold interval_end.
  rewrite Z.div_opp_l_z by assumption.
  rewrite (Z.div_mod m ref Hr) at 2. lia.
Qed.

Lemma interval_width (m ref : Z) :
  ref <> 0 -> m mod ref <> 0 ->
  interval_end m ref - interval_start m ref = ref.
Proof.
  intros Hr Hm. unfold interval_end, interval_start.
  rewrite Z.div_opp_l_nz by assumption. lia.
Qed.

(** C10.  For a read at coordinates below [2^52] and a positive interval
    size of at most [2^52] (the range on which the float arithmetic of the
    source is exact), the midpoint the code computes is
    [floor((start+end)/2)]; when it is a multiple of the interval size,
    interval start and interval end both equal the midpoint and the label
    is [<chr>_<m>_<m>], of width zero; otherwise the label names an interval
    whose end is its start plus the interval size. *)
Theorem create_region_name_degenerate (read : row) (a : args) :
  0 <= start read < 2 ^ 52 -> 0 <= end_ read < 2 ^ 52 ->
  0 < ref_interval a <= 2 ^ 52 ->
  let m := (start read + end_ read) / 2 in
  let ref := ref_interval a in
  midpoint (start read) (end_ read) = m /\
  (m mod ref = 0 ->
   interval_start m ref = m /\ interval_end m ref = m /\
   create_region_name read a =
     Ok (chr read ++ "_" ++ string_of_Z m ++ "_" ++ string_of_Z m)%string) /\
  (m mod ref <> 0 ->
   interval_end m ref = interval_start m ref + ref /\
   create_region_name read a =
     Ok (chr read ++ "_" ++ string_of_Z (interval_start m ref) ++ "_"
           ++ string_of_Z (interval_start m ref + ref))%string).
Proof.
  intros [Hs _] [He _] [Hr _] m ref.
  assert (Hm : midpoint (start read) (end_ read) = m).
  { unfold midpoint, m. apply Z.quot_div_nonneg; lia. }
  assert (Hz : (ref_interval a =? 0) = false) by (apply Z.eqb_neq; lia).
  split; [exact Hm|]. split; intros Hmod.
  - assert (E1 := @interval_start_multiple m ref ltac:(unfold ref; lia) Hmod).
    assert (E2 := @interval_end_multiple m ref ltac:(unfold ref; lia) Hmod).
    repeat split; auto.
    unfold create_region_name. rewrite Hz, Hm. fold ref. rewrite E1, E2.
    reflexivity.
  - assert (E := @interval_width m ref ltac:(unfold ref; lia) Hmod).
    split; [lia|].
    unfold create_region_name. rewrite Hz, Hm. fold ref.
    replace (interval_end m ref) with (interval_start m ref + ref) by lia.
    reflexivity.
Qed.

(** The example of the claim: midpoint 2000, interval size 1000. *)
Lemma create_region_name_degenerate_witness :
  create_region_name (mkRow "r4" "NA" "T9" "BC1" "AAAAT" "chr1" 1900 2100)
    example_args = Ok "chr1_2000_2000".
Proof.
  pose proof (@create_region_name_degenerate
                (mkRow "r4" "NA" "T9" "BC1" "AAAAT" "chr1" 1900 2100)
                example_args) as H.
  simpl in H.
  destruct (H ltac:(lia) ltac:(lia) ltac:(lia)) as (_ & Hz & _).
  destruct (Hz eq_refl) as (_ & _ & E).
  exact E.
Defined.

(** The example of the specification: a read spanning 1400-1600. *)
Example create_region_name_spec_example :
  create_region_name (mkRow "r1" "NA" "T1" "BC1" "AAAAA" "chr1" 1400 1600)
    example_args = Ok "chr1_1000_2000".
Proof. reflexivity. Qed.

(** ** Dictionaries *)

Lemma lookup_in_keys {V : Type} (k : string) (d : dict V) :
  In k (keys d) <-> exists v, lookup k d = Some v.
Proof.
  induction d as [|[k' v'] d IH]; simpl.
  - split; [tauto | intros [v H]; discriminate].
  - destruct (String.eqb_spec k k') as [->|Hne].
    + split; eauto.
    + rewrite <- IH. split; [intros [H|H]; [congruence|auto] | auto].
Qed.

Lemma lookup_None {V : Type} (k : string) (d : dict V) :
  lookup k d = None <-> ~ In k (keys d).
Proof.
  rewrite lookup_in_keys. destruct (lookup k d) as [v|].
  - split; [discriminate | intros H; exfalso; eauto].
  - split; [intros _ [v H]; discriminate | auto].
Qed.

Lemma getitem_Ok {V : Type} (d : dict V) (k : string) (v : V) :
  getitem d k = Ok v <-> lookup k d = Some v.
Proof.
  unfold getitem. destruct (lookup k d); split; congruence.
Qed.

Lemma mem_In (x : string) (s : list string) : mem x s = true <-> In x s.
Proof.
  unfold mem. rewrite existsb_exists. split.
  - intros (y & Hy & E). apply String.eqb_eq in E. congruence.
  - intros H. exists x. split; [assumption | apply String.eqb_refl].
Qed.

Lemma mem_false (x : string) (s : list string) : mem x s = false <-> ~ In x s.
Proof.
  rewrite <- mem_In. destruct (mem x s); split; congruence.
Qed.

(** ** The cap per group *)

Lemma key_eqb_eq (k k' : string * string) : key_eqb k k' = true <-> k = k'.
Proof.
  destruct k as [a b], k' as [a' b']. unfold key_eqb; simpl.
  rewrite andb_true_iff, !String.eqb_eq. split.
  - intros [-> ->]; reflexivity.
  - intros E; inversion E; auto.
Qed.

Lemma key_eqb_refl (k : string * string) : key_eqb k k = true.
Proof. apply key_eqb_eq; reflexivity. Qed.

Lemma counter_get_incr (c : counter) (k k' : string * string) :
  counter_get (counter_incr c k) k' =
  if key_eqb k' k then counter_get c k' + 1 else counter_get c k'.
Proof.
  induction c as [|[k1 n] c IH]; simpl.
  - destruct (key_eqb k' k); reflexivity.
  - destruct (key_eqb k k1) eqn:E1; simpl.
    + apply key_eqb_eq in E1; subst k1.
      destruct (key_eqb k' k); reflexivity.
    + destruct (key_eqb k' k1) eqn:E2; [|exact IH].
      apply key_eqb_eq in E2; subst k1.
      destruct (key_eqb k' k) eqn:E3; [|reflexivity].
      apply key_eqb_eq in E3; subst k'. rewrite key_eqb_refl in E1. discriminate.
Qed.

Lemma in_group_key (k : string * string) (r : record) :
  in_group k r = true <-> group_key r = k.
Proof. unfold in_group. apply key_eqb_eq. Qed.

Lemma firstn_snoc_within {A : Type} (n : nat) (l : list A) (x : A) :
  (List.length l < n)%nat -> firstn n (l ++ [x]) = firstn n l ++ [x].
Proof.
  intros H. rewrite firstn_app.
  replace (firstn n l) with l by (symmetry; apply firstn_all2; lia).
  f_equal. destruct (n - List.length l)%nat eqn:E; [lia | simpl; now rewrite firstn_nil].
Qed.

Lemma firstn_snoc_beyond {A : Type} (n : nat) (l : list A) (x : A) :
  (n <= List.length l)%nat -> firstn n (l ++ [x]) = firstn n l.
Proof.
  intros H. rewrite firstn_app.
  replace (n - List.length l)%nat with 0%nat by lia.
  simpl. apply app_nil_r.
Qed.

(** The invariant of the loop over the reads: of every group, [records]
    holds the first [cell_gene_max_reads] records met so far, and the
    counter holds how many were met. *)
Lemma record_loop_invariant (ta : option (dict string)) (a : args) :
  forall (rows : list row) (all pre records : list record) (c : counter),
    mapM (row_record ta a) rows = Ok all ->
    (forall k, filter (in_group k) records =
               firstn (Z.to_nat (cell_gene_max_reads a))
                 (filter (in_group k) pre)) ->
    (forall k, counter_get c k =
               Z.of_nat (List.length (filter (in_group k) pre))) ->
    exists records' c',
      foldM (record_step ta a) rows (records, c) = Ok (records', c') /\
      forall k, filter (in_group k) records' =
                firstn (Z.to_nat (cell_gene_max_reads a))
                  (filter (in_group k) (pre ++ all)).
Proof.
  induction rows as [|r rows IH]; intros all pre records c Hall Hrec Hc.
  - simpl in Hall. inversion Hall; subst all. simpl.
    exists records, c. split; [reflexivity|].
    intros k. rewrite app_nil_r. apply Hrec.
  - simpl in Hall.
    apply bind_Ok in Hall. destruct Hall as (rec & Hrow & Hall).
    apply bind_Ok in Hall. destruct Hall as (rest & Hrest & Hall).
    inversion Hall; subst all; clear Hall.
    simpl. unfold record_step at 1. rewrite Hrow. simpl.
    rewrite counter_get_incr, key_eqb_refl.
    fold (group_key rec). rewrite (Hc (group_key rec)).
    set (c1 := counter_incr c (group_key rec)).
    assert (Hc1 : forall k, counter_get c1 k =
              Z.of_nat (List.length (filter (in_group k) (pre ++ [rec])))).
    { intros k. unfold c1. rewrite counter_get_incr, filter_app, length_app.
      simpl. unfold in_group at 2. rewrite Hc.
      destruct (key_eqb k (group_key rec)) eqn:E.
      - apply key_eqb_eq in E; subst k. rewrite key_eqb_refl. simpl. lia.
      - replace (key_eqb (group_key rec) k) with false; [simpl; lia|].
        destruct (key_eqb (group_key rec) k) eqn:E'; [|reflexivity].
        apply key_eqb_eq in E'; subst k. rewrite key_eqb_refl in E.
        discriminate. }
    destruct (Z.leb_spec
                (Z.of_nat (List.length (filter (in_group (group_key rec)) pre))
                 + 1) (cell_gene_max_reads a)) as [Hle|Hgt].
    + destruct (IH rest (pre ++ [rec]) (records ++ [rec]) c1 Hrest)
        as (records' & c' & Hfold & Hinv); [|exact Hc1|].
      * intros k. rewrite !filter_app. simpl. rewrite Hrec.
        destruct (in_group k rec) eqn:E; [|rewrite !app_nil_r; reflexivity].
        apply in_group_key in E; subst k.
        symmetry. apply firstn_snoc_within. lia.
      * exists records', c'. split; [exact Hfold|].
        intros k. rewrite Hinv, <- app_assoc. reflexivity.
    + destruct (IH rest (pre ++ [rec]) records c1 Hrest)
        as (records' & c' & Hfold & Hinv); [|exact Hc1|].
      * intros k. rewrite filter_app. simpl. rewrite Hrec.
        destruct (in_group k rec) eqn:E; [|rewrite app_nil_r; reflexivity].
        apply in_group_key in E; subst k.
        symmetry. apply firstn_snoc_beyond. lia.
      * exists records', c'. split; [exact Hfold|].
        intros k. rewrite Hinv, <- app_assoc. reflexivity.
Qed.

(** C6.  Whenever every row of the stream yields its record ([all], in
    encounter order), the loop ends without an exception and, of every
    group, retains the first [cell_gene_max_reads] records and nothing
    else; a group with more records than the cap keeps exactly
    [cell_gene_max_reads] of them. *)
Theorem cap_keeps_first_reads (ta : option (dict string)) (a : args)
    (rows : list row) (all : list record) :
  mapM (row_record ta a) rows = Ok all ->
  exists records,
    collect_records ta a rows = Ok records /\
    forall k,
      filter (in_group k) records =
        firstn (Z.to_nat (cell_gene_max_reads a)) (filter (in_group k) all) /\
      (0 <= cell_gene_max_reads a <
         Z.of_nat (List.length (filter (in_group k) all)) ->
       Z.of_nat (List.length (filter (in_group k) records)) =
         cell_gene_max_reads a).
Proof.
  intros Hall.
  destruct (@record_loop_invariant ta a rows all [] [] empty_counter Hall)
    as (records & c & Hfold & Hinv).
  - intros k. simpl. symmetry. apply firstn_nil.
  - intros k. reflexivity.
  - exists records. unfold collect_records.
    rewrite Hfold. simpl.
    split; [reflexivity|]. intros k. simpl in Hinv. split; [apply Hinv|].
    intros Hcap. rewrite Hinv, length_firstn. lia.
Qed.

Lemma cap_keeps_first_reads_witness :
  exists records,
    collect_records (Some example_transcripts) example_args
      (merged_rows example_gene_assigns example_transcripts example_tags)
    = Ok records /\
    forall k,
      filter (in_group k) records =
        firstn 2
          (filter (in_group k)
             [mkRecord "r1" "G1" "T1" "BC1" "AAAAA";
              mkRecord "r2" "G1" "T2" "BC1" "AAAAT";
              mkRecord "r3" "G1" "T2" "BC1" "AAAAT";
              mkRecord "r4" "chr1_2000_2000" "T9" "BC1" "AAAAT"]) /\
      (0 <= 2 <
         Z.of_nat
           (List.length
              (filter (in_group k)
                 [mkRecord "r1" "G1" "T1" "BC1" "AAAAA";
                  mkRecord "r2" "G1" "T2" "BC1" "AAAAT";
                  mkRecord "r3" "G1" "T2" "BC1" "AAAAT";
                  mkRecord "r4" "chr1_2000_2000" "T9" "BC1" "AAAAT"])) ->
       Z.of_nat (List.length (filter (in_group k) records)) = 2).
Proof.
  apply (@cap_keeps_first_reads (Some example_transcripts) example_args
           (merged_rows example_gene_assigns example_transcripts example_tags)).
  vm_compute. reflexivity.
Defined.

(** The group of three reads of the example loses its third read. *)
Example cap_example :
  collect_records (Some example_transcripts) example_args
    (merged_rows example_gene_assigns example_transcripts example_tags)
  = Ok [mkRecord "r1" "G1" "T1" "BC1" "AAAAA";
        mkRecord "r2" "G1" "T2" "BC1" "AAAAT";
        mkRecord "r4" "chr1_2000_2000" "T9" "BC1" "AAAAT"].
Proof. vm_compute. reflexivity. Qed.

(** ** Reads without a transcript *)

Lemma in_merge {A B : Type} (left : dict A) (right : dict B)
    (x : string * (A * B)) :
  In x (merge left right) ->
  In (fst x, fst (snd x)) left /\ In (fst x, snd (snd x)) right.
Proof.
  unfold merge. rewrite in_flat_map. intros ([k a] & Hl & Hx).
  rewrite in_map_iff in Hx. destruct Hx as ([k' b] & <- & Hr).
  apply filter_In in Hr. destruct Hr as [Hr E]. simpl in *.
  apply String.eqb_eq in E. subst k'. auto.
Qed.

Lemma merge_nil_r {A B : Type} (left : dict A) :
  merge left (@nil (string * B)) = [].
Proof. induction left as [|x l IH]; simpl; auto. Qed.

Lemma in_keys {V : Type} (k : string) (v : V) (d : dict V) :
  In (k, v) d -> In k (keys d).
Proof. intros H. unfold keys. change k with (fst (k, v)). now apply in_map. Qed.

(** Every merged row stems from a row of the transcript table. *)
Lemma merged_rows_have_transcript (ga : dict gene_assign) (t : dict string)
    (tags : dict tag) (r : row) :
  In r (merged_rows ga t tags) -> In (Index r) (keys t).
Proof.
  unfold merged_rows. rewrite in_map_iff.
  intros ([k [[g tr] tg]] & <- & Hin). simpl.
  apply in_merge in Hin. destruct Hin as [Hin _]. simpl in Hin.
  apply in_merge in Hin. destruct Hin as [_ Hin]. simpl in Hin.
  eapply in_keys; eauto.
Qed.

(** What the loop retains was made from a row it went through. *)
Lemma record_loop_origin (ta : option (dict string)) (a : args) :
  forall (rows : list row) (records records' : list record) (c c' : counter),
    foldM (record_step ta a) rows (records, c) = Ok (records', c') ->
    forall rec, In rec records' ->
      In rec records \/ exists r, In r rows /\ row_record ta a r = Ok rec.
Proof.
  induction rows as [|r rows IH]; intros records records' c c' H rec Hin.
  - simpl in H. inversion H; subst. auto.
  - simpl in H. apply bind_Ok in H. destruct H as ([records1 c1] & Hstep & H).
    unfold record_step in Hstep.
    apply bind_Ok in Hstep. destruct Hstep as (rec1 & Hrow & Hstep).
    destruct (IH _ _ _ _ H rec Hin) as [Hold|(r' & Hr' & Hrec)].
    + destruct (counter_get _ _ <=? _) in Hstep;
        inversion Hstep; subst; clear Hstep; auto.
      apply in_app_or in Hold. destruct Hold as [Hold|[<-|[]]]; auto.
      right. exists r. simpl. auto.
    + right. exists r'. simpl. auto.
Qed.

(** C7 (what the code does instead).  The transcript table the loop sees is
    never [None]; a read that the transcript table does not have is in no
    retained record, and the transcript of every retained record is the one
    the table holds for its read. *)
Theorem read_without_transcript_is_dropped (ga : dict gene_assign)
    (file : option (dict string)) (tags : dict tag) (a : args)
    (rid : string) (records : list record) :
  let table := match file with Some t => t | None => [] end in
  lookup rid table = None ->
  collect_records (read_transcript_assigns file) a (merged_rows ga table tags)
    = Ok records ->
  read_transcript_assigns file = Some table /\
  ~ In rid (map read_id records) /\
  Forall (fun rec => lookup (read_id rec) table = Some (rec_transcript rec))
    records.
Proof.
  intros table Hrid Hcol.
  assert (Hta : read_transcript_assigns file = Some table)
    by (destruct file; reflexivity).
  rewrite Hta in Hcol. unfold collect_records in Hcol.
  apply bind_Ok in Hcol. destruct Hcol as ([records' c'] & Hfold & Hcol).
  simpl in Hcol. injection Hcol as Hcol. subst records.
  assert (Horigin : forall rec, In rec records' ->
            exists r, In r (merged_rows ga table tags) /\
                      row_record (Some table) a r = Ok rec).
  { intros rec Hin.
    destruct (record_loop_origin _ _ _ _ _ _ _ Hfold rec Hin) as [[]|H]; exact H. }
  assert (Hrec : forall rec, In rec records' ->
            lookup (read_id rec) table = Some (rec_transcript rec)).
  { intros rec Hin. destruct (Horigin rec Hin) as (r & _ & Hrow).
    unfold row_record in Hrow.
    apply bind_Ok in Hrow. destruct Hrow as (tr & Htr & Hrow).
    apply bind_Ok in Hrow. destruct Hrow as (g & _ & Hrow).
    inversion Hrow; subst; simpl. now apply getitem_Ok. }
  split; [exact Hta|]. split.
  - rewrite in_map_iff. intros (rec & <- & Hin).
    rewrite (Hrec rec Hin) in Hrid. discriminate.
  - apply Forall_forall. exact Hrec.
Qed.

(** Read r2 is in the gene table and in the tag table and not in the
    transcript table: it is in no record. *)
Lemma read_without_transcript_is_dropped_witness :
  collect_records (read_transcript_assigns (Some example_transcripts_without_r2))
    example_args
    (merged_rows example_gene_assigns example_transcripts_without_r2
       example_tags)
  = Ok [mkRecord "r1" "G1" "T1" "BC1" "AAAAA";
        mkRecord "r3" "G1" "T2" "BC1" "AAAAT";
        mkRecord "r4" "chr1_2000_2000" "T9" "BC1" "AAAAT"] /\
  ~ In "r2"
      (map read_id
         [mkRecord "r1" "G1" "T1" "BC1" "AAAAA";
          mkRecord "r3" "G1" "T2" "BC1" "AAAAT";
          mkRecord "r4" "chr1_2000_2000" "T9" "BC1" "AAAAT"]).
Proof.
  assert (E : collect_records
                (read_transcript_assigns (Some example_transcripts_without_r2))
                example_args
                (merged_rows example_gene_assigns
                   example_transcripts_without_r2 example_tags)
              = Ok [mkRecord "r1" "G1" "T1" "BC1" "AAAAA";
                    mkRecord "r3" "G1" "T2" "BC1" "AAAAT";
                    mkRecord "r4" "chr1_2000_2000" "T9" "BC1" "AAAAT"])
    by (vm_compute; reflexivity).
  split; [exact E|].
  exact (proj1 (proj2
    (@read_without_transcript_is_dropped example_gene_assigns
       (Some example_transcripts_without_r2) example_tags example_args "r2" _
       eq_refl E))).
Defined.

(** ** An empty annotation *)

Lemma set_order_nil (set_order : list string -> list string) :
  (forall s, Permutation (set_order s) s) -> set_order (@nil umi) = [].
Proof.
  intros Hperm. apply Permutation_nil. apply Permutation_sym. apply Hperm.
Qed.

(** Without records there is no batch, the pool (of at least one process)
    returns no result, and the frame built in its place has no column
    ["transcript"]. *)
Lemma correct_and_tag_no_records (set_order : list string -> list string)
    (sort_values : counts_dict -> counts_dict)
    (bam : list alignment) (a : args) :
  (forall s, Permutation (set_order s) s) -> 1 <= threads a ->
  correct_and_tag set_order sort_values [] bam a
  = Raise (KeyError "transcript").
Proof.
  intros Hperm Hthreads. unfold correct_and_tag, launch_pool. simpl.
  rewrite (set_order_nil set_order Hperm).
  replace (threads a <? 1) with false by (symmetry; apply Z.ltb_ge; lia).
  reflexivity.
Qed.

(** A pool of less than one process is refused before any batch is looked
    at. *)
Lemma correct_and_tag_no_process (set_order : list string -> list string)
    (sort_values : counts_dict -> counts_dict)
    (records : list record) (bam : list alignment) (a : args) :
  threads a < 1 ->
  correct_and_tag set_order sort_values records bam a = Raise ValueError.
Proof.
  intros Hthreads. unfold correct_and_tag, launch_pool.
  replace (threads a <? 1) with true by (symmetry; apply Z.ltb_lt; lia).
  reflexivity.
Qed.

(** C8 (what the code does instead).  When the join of the annotation
    tables has no row (in particular when a table is empty),
    [process_records] writes nothing: with at least one thread it raises
    [KeyError: 'transcript'], and with less than one thread the worker pool
    raises [ValueError] before that. *)
Theorem empty_annotation_raises_KeyError
    (set_order : list string -> list string)
    (sort_values : counts_dict -> counts_dict) (tags : dict tag)
    (ga : dict gene_assign) (file : option (dict string))
    (bam : list alignment) (a : args) :
  (forall s, Permutation (set_order s) s) ->
  merged_rows ga (match file with Some t => t | None => [] end) tags = [] ->
  (1 <= threads a ->
   process_records set_order sort_values tags ga file bam a
   = Raise (KeyError "transcript")) /\
  (threads a < 1 ->
   process_records set_order sort_values tags ga file bam a
   = Raise ValueError).
Proof.
  intros Hperm Hempty.
  assert (E : process_records set_order sort_values tags ga file bam a
              = correct_and_tag set_order sort_values [] bam a).
  { unfold process_records.
    replace (match read_transcript_assigns file with
             | Some t => t
             | None => []
             end)
      with (match file with Some t => t | None => [] end)
      by (destruct file; reflexivity).
    rewrite Hempty. reflexivity. }
  rewrite E. split; intros Hthreads.
  - now apply correct_and_tag_no_records.
  - now apply correct_and_tag_no_process.
Qed.

(** An empty tag table, an empty gene table and a transcript file without
    data, with four threads and with none. *)
Lemma empty_annotation_raises_KeyError_witness :
  process_records insertion_order sort_desc [] [] None example_bam
    example_args
  = Raise (KeyError "transcript") /\
  process_records insertion_order sort_desc [] [] None example_bam
    (mkArgs "chr1" 1000 2 0)
  = Raise ValueError.
Proof.
  split.
  - apply (empty_annotation_raises_KeyError insertion_order sort_desc [] []
             None example_bam example_args).
    + intros s. apply Permutation_refl.
    + reflexivity.
    + simpl. lia.
  - apply (empty_annotation_raises_KeyError insertion_order sort_desc [] []
             None example_bam (mkArgs "chr1" 1000 2 0)).
    + intros s. apply Permutation_refl.
    + reflexivity.
    + simpl. lia.
Defined.

(** The same run with reads in all three tables succeeds. *)
Example process_records_example :
  process_records insertion_order sort_desc example_tags example_gene_assigns
    (Some example_transcripts) example_bam example_args
  = Ok ([mkAlignment "r1"
           [("CB", "BC1"); ("UB", "AAAAA"); ("GN", "G1"); ("TR", "T1")];
         mkAlignment "r2"
           [("CB", "BC1"); ("UB", "AAAAA"); ("GN", "G1"); ("TR", "T2")];
         mkAlignment "r4"
           [("CB", "BC1"); ("UB", "AAAAT"); ("GN", "chr1_2000_2000");
            ("TR", "T9")]],
        [["r1"; "G1"; "T1"; "BC1"; "AAAAA"];
         ["r2"; "G1"; "T2"; "BC1"; "AAAAA"];
         ["r4"; "chr1_2000_2000"; "T9"; "BC1"; "AAAAT"]]).
Proof. vm_compute. reflexivity. Qed.

(** ** Edit distance *)

Lemma levenshtein_nil_r (s : list ascii) : levenshtein s [] = List.length s.
Proof. destruct s; reflexivity. Qed.

Lemma levenshtein_cons_cons (a b : ascii) (s t : list ascii) :
  levenshtein (a :: s) (b :: t) =
  Nat.min (S (levenshtein s (b :: t)))
    (Nat.min (S (levenshtein (a :: s) t))
       ((if Ascii.eqb a b then 0 else 1) + levenshtein s t))%nat.
Proof. reflexivity. Qed.

Lemma levenshtein_sym (s t : list ascii) : levenshtein s t = levenshtein t s.
Proof.
  revert t. induction s as [|a s IHs]; intros t.
  - rewrite levenshtein_nil_r. reflexivity.
  - induction t as [|b t IHt].
    + reflexivity.
    + rewrite !levenshtein_cons_cons.
      rewrite (IHs (b :: t)), (IHs t), IHt, (Ascii.eqb_sym a b). lia.
Qed.

Lemma edit_distance_sym (u v : umi) : edit_distance u v = edit_distance v u.
Proof. apply levenshtein_sym. Qed.

(** ** Adjacency Graph Builder *)

Lemma lookup_dict_set {V : Type} (k k' : string) (v : V) (d : dict V) :
  lookup k' (dict_set k v d) = if String.eqb k' k then Some v else lookup k' d.
Proof.
  induction d as [|[k1 v1] d IH]; simpl.
  - reflexivity.
  - destruct (String.eqb_spec k k1) as [->|Hne]; simpl.
    + destruct (String.eqb k' k1); reflexivity.
    + rewrite IH. destruct (String.eqb_spec k' k1) as [->|Hne'].
      * destruct (String.eqb_spec k1 k); [congruence | reflexivity].
      * reflexivity.
Qed.

Lemma keys_dict_set_in {V : Type} (k : string) (v : V) (d : dict V) :
  In k (keys d) -> keys (dict_set k v d) = keys d.
Proof.
  induction d as [|[k1 v1] d IH]; simpl; intros H.
  - contradiction.
  - destruct (String.eqb_spec k k1) as [->|Hne]; simpl.
    + reflexivity.
    + f_equal. apply IH. destruct H; [congruence | assumption].
Qed.

Lemma dict_set_new {V : Type} (k : string) (v : V) (d : dict V) :
  ~ In k (keys d) -> dict_set k v d = d ++ [(k, v)].
Proof.
  induction d as [|[k1 v1] d IH]; simpl; intros H.
  - reflexivity.
  - destruct (String.eqb_spec k k1) as [->|Hne].
    + exfalso; auto.
    + f_equal. apply IH. auto.
Qed.

Lemma neighbours_lookup (adj : adj_list) (u : umi) :
  In u (keys adj) -> lookup u adj = Some (neighbours adj u).
Proof.
  intros H. apply lookup_in_keys in H. destruct H as [l H].
  unfold neighbours. rewrite H. reflexivity.
Qed.

(** The dictionary of empty lists the builder starts from. *)
Lemma adj_init (umis : list umi) (d : adj_list) :
  NoDup (keys d ++ umis) ->
  fold_left (fun d u => dict_set u [] d) umis d
  = d ++ map (fun u => (u, [])) umis.
Proof.
  revert d. induction umis as [|u umis IH]; intros d Hnd; simpl.
  - symmetry. apply app_nil_r.
  - assert (Hu : ~ In u (keys d)).
    { apply NoDup_remove_2 in Hnd. intros H. apply Hnd.
      apply in_or_app. auto. }
    rewrite (dict_set_new u [] d Hu), IH.
    + rewrite <- app_assoc. reflexivity.
    + unfold keys. rewrite map_app. simpl. rewrite <- app_assoc. exact Hnd.
Qed.

Lemma dict_append_spec (k v : umi) (adj : adj_list) :
  In k (keys adj) ->
  exists adj',
    dict_append k v adj = Ok adj' /\
    keys adj' = keys adj /\
    forall u w, In w (neighbours adj' u) <->
                In w (neighbours adj u) \/ (u = k /\ w = v).
Proof.
  intros Hk. unfold dict_append, getitem.
  rewrite (neighbours_lookup _ _ Hk). simpl.
  eexists. split; [reflexivity|]. split; [now apply keys_dict_set_in|].
  intros u w. unfold neighbours at 1. rewrite lookup_dict_set.
  destruct (String.eqb_spec u k) as [->|Hne].
  - rewrite in_app_iff. simpl. intuition congruence.
  - fold (neighbours adj u). intuition congruence.
Qed.

Lemma getitem_count (counts : counts_dict) (u : umi) :
  In u (keys counts) -> getitem counts u = Ok (count_of counts u).
Proof.
  intros H. apply lookup_in_keys in H. destruct H as [c H].
  unfold getitem, count_of. rewrite H. reflexivity.
Qed.

(** One pair adds the edges the rule admits, one test per direction. *)
Lemma adj_step_spec (counts : counts_dict) (t : Z) (adj : adj_list)
    (umi1 umi2 : umi) :
  In umi1 (keys adj) -> In umi2 (keys adj) ->
  In umi1 (keys counts) -> In umi2 (keys counts) ->
  exists adj',
    adj_step counts t adj (umi1, umi2) = Ok adj' /\
    keys adj' = keys adj /\
    forall u w, In w (neighbours adj' u) <->
                In w (neighbours adj u) \/
                (((u = umi1 /\ w = umi2) \/ (u = umi2 /\ w = umi1)) /\
                 edge counts t u w).
Proof.
  intros H1 H2 Hc1 Hc2. unfold adj_step, edge.
  destruct (Z.leb_spec (Z.of_nat (edit_distance umi1 umi2)) t) as [Hd|Hd].
  - rewrite (getitem_count _ _ Hc1), (getitem_count _ _ Hc2). cbn [bind].
    assert (Hd' : Z.of_nat (edit_distance umi2 umi1) <= t)
      by (rewrite edit_distance_sym; exact Hd).
    assert (Hstep1 : exists adj1,
              (if count_of counts umi1 >=? count_of counts umi2 * 2 - 1
               then dict_append umi1 umi2 adj else Ok adj) = Ok adj1 /\
              keys adj1 = keys adj /\
              forall u w, In w (neighbours adj1 u) <->
                In w (neighbours adj u) \/
                (u = umi1 /\ w = umi2 /\
                 count_of counts umi1 >= 2 * count_of counts umi2 - 1)).
    { destruct (Z.geb_spec (count_of counts umi1)
                  (count_of counts umi2 * 2 - 1)) as [Hge|Hlt].
      - destruct (dict_append_spec umi1 umi2 adj H1) as (adj1 & E & K & N).
        exists adj1. split; [exact E|]. split; [exact K|].
        intros u w. rewrite N. intuition lia.
      - exists adj. split; [reflexivity|]. split; [reflexivity|].
        intros u w. intuition lia. }
    destruct Hstep1 as (adj1 & E1 & K1 & N1). rewrite E1. cbn [bind].
    rewrite <- K1 in H2.
    destruct (Z.geb_spec (count_of counts umi2)
                (count_of counts umi1 * 2 - 1)) as [Hge|Hlt].
    + destruct (dict_append_spec umi2 umi1 adj1 H2) as (adj2 & E & K & N).
      exists adj2. split; [exact E|]. split; [congruence|].
      intros u w. rewrite N, N1. split.
      * intros [[Hin|(Hu & Hw & Hc)]|(Hu & Hw)];
          [left; exact Hin | right | right]; subst u w;
          (split; [tauto | split; [assumption | lia]]).
      * intros [Hin|([(Hu & Hw)|(Hu & Hw)] & _ & Hc)]; subst; tauto.
    + exists adj1. split; [reflexivity|]. split; [exact K1|].
      intros u w. rewrite N1. split.
      * intros [Hin|(Hu & Hw & Hc)]; [left; exact Hin | right]; subst u w.
        split; [tauto | split; [assumption | lia]].
      * intros [Hin|([(Hu & Hw)|(Hu & Hw)] & _ & Hc)]; subst;
          [tauto | tauto | exfalso; lia].
  - exists adj. split; [reflexivity|]. split; [reflexivity|].
    intros u w. split; [tauto|].
    intros [Hin|([(Hu & Hw)|(Hu & Hw)] & Hd' & _)]; subst;
      [exact Hin | exfalso; lia | exfalso].
    rewrite edit_distance_sym in Hd'. lia.
Qed.

Lemma adj_fold_spec (counts : counts_dict) (t : Z) :
  forall (ps : list (umi * umi)) (adj : adj_list),
    (forall p, In p ps ->
       (In (fst p) (keys adj) /\ In (snd p) (keys adj)) /\
       (In (fst p) (keys counts) /\ In (snd p) (keys counts))) ->
    exists adj',
      foldM (adj_step counts t) ps adj = Ok adj' /\
      keys adj' = keys adj /\
      forall u w, In w (neighbours adj' u) <->
                  In w (neighbours adj u) \/
                  ((In (u, w) ps \/ In (w, u) ps) /\ edge counts t u w).
Proof.
  induction ps as [|[umi1 umi2] ps IH]; intros adj Hps.
  - exists adj. split; [reflexivity|]. split; [reflexivity|].
    intros u w. simpl. tauto.
  - destruct (Hps (umi1, umi2) (or_introl eq_refl)) as [[H1 H2] [Hc1 Hc2]].
    simpl in H1, H2, Hc1, Hc2.
    destruct (adj_step_spec counts t adj umi1 umi2 H1 H2 Hc1 Hc2)
      as (adj1 & E1 & K1 & N1).
    destruct (IH adj1) as (adj' & E & K & N).
    { intros p Hp. rewrite K1. apply Hps. right. exact Hp. }
    exists adj'. split; [cbn [foldM]; rewrite E1; exact E|].
    split; [congruence|].
    intros u w. rewrite N, N1. simpl. split.
    + intros [[Hin|([(Hu & Hw)|(Hu & Hw)] & He)]|([Hp|Hp] & He)]; subst;
        auto 6.
    + intros [Hin|([[Hp|Hp]|[Hp|Hp]] & He)]; auto 6.
      * inversion Hp; subst. auto 6.
      * inversion Hp; subst. auto 6.
Qed.

Lemma in_combinations2 {A : Type} (l : list A) (x y : A) :
  In (x, y) (combinations2 l) -> In x l /\ In y l.
Proof.
  induction l as [|a l IH]; simpl; [tauto|].
  rewrite in_app_iff, in_map_iff.
  intros [(z & E & Hz)|H].
  - inversion E; subst. auto.
  - destruct (IH H). auto.
Qed.

Lemma combinations2_distinct {A : Type} (l : list A) (x y : A) :
  NoDup l -> In (x, y) (combinations2 l) -> x <> y.
Proof.
  induction l as [|a l IH]; simpl; [tauto|].
  intros Hnd. inversion Hnd as [|? ? Ha Hl]; subst.
  rewrite in_app_iff, in_map_iff.
  intros [(z & E & Hz)|H].
  - inversion E; subst. intros ->. contradiction.
  - now apply IH.
Qed.

Lemma combinations2_complete {A : Type} (l : list A) (x y : A) :
  In x l -> In y l -> x <> y ->
  In (x, y) (combinations2 l) \/ In (y, x) (combinations2 l).
Proof.
  induction l as [|a l IH]; simpl; [tauto|].
  intros [->|Hx] [->|Hy] Hne.
  - congruence.
  - left. apply in_or_app. left. now apply in_map.
  - right. apply in_or_app. left. now apply in_map.
  - destruct (IH Hx Hy Hne); [left | right]; apply in_or_app; auto.
Qed.

Lemma neighbours_init (umis : list umi) (u : umi) :
  neighbours (map (fun u : umi => (u, @nil umi)) umis) u = [].
Proof.
  unfold neighbours. induction umis as [|k l IH]; simpl; [reflexivity|].
  destruct (String.eqb u k); [reflexivity | exact IH].
Qed.

(** The result of the builder on the keys of a count map. *)
Lemma get_adj_list_directional_spec (counts : counts_dict) (t : Z) :
  NoDup (keys counts) ->
  exists adj,
    get_adj_list_directional (keys counts) counts t = Ok adj /\
    keys adj = keys counts /\
    forall u v, In v (neighbours adj u) <->
                In u (keys counts) /\ In v (keys counts) /\ v <> u /\
                edge counts t u v.
Proof.
  intros Hnd. unfold get_adj_list_directional.
  rewrite (adj_init (keys counts) []) by exact Hnd.
  simpl app.
  set (adj0 := map (fun u : umi => (u, @nil umi)) (keys counts)).
  assert (K0 : keys adj0 = keys counts).
  { unfold adj0, keys. rewrite map_map. simpl. apply map_id. }
  assert (N0 : forall u, neighbours adj0 u = []).
  { intros u. apply neighbours_init. }
  destruct (adj_fold_spec counts t (combinations2 (keys counts)) adj0)
    as (adj & E & K & N).
  { intros [x y] Hp. rewrite K0. simpl.
    apply in_combinations2 in Hp. tauto. }
  exists adj. split; [exact E|]. split; [congruence|].
  intros u v. rewrite N, N0. simpl. split.
  - intros [[]|([Hp|Hp] & He)].
    + pose proof (combinations2_distinct _ _ _ Hnd Hp).
      apply in_combinations2 in Hp.
      split; [tauto|]. split; [tauto|]. split; [congruence | exact He].
    + pose proof (combinations2_distinct _ _ _ Hnd Hp).
      apply in_combinations2 in Hp.
      split; [tauto|]. split; [tauto|]. split; [congruence | exact He].
  - intros (Hu & Hv & Hne & He). right. split; [|exact He].
    apply combinations2_complete; auto.
Qed.

(** C4.  For a count map (a dictionary: no key twice) and a threshold, the
    builder returns an adjacency structure whose keys are the UMIs of the
    map; the neighbour list of a UMI [u] holds exactly the other UMIs [v] of
    the map with [edit_distance u v <= threshold] and
    [count u >= 2 * count v - 1], each direction by its own test; a UMI
    without such a [v] has the empty list. *)
Theorem adjacency_directional (counts : counts_dict) (threshold : Z) :
  NoDup (keys counts) ->
  exists adj,
    get_adj_list_directional (keys counts) counts threshold = Ok adj /\
    keys adj = keys counts /\
    (forall u, In u (keys counts) ->
       exists l,
         lookup u adj = Some l /\
         (forall v, In v l <->
                    In v (keys counts) /\ v <> u /\
                    (Z.of_nat (edit_distance u v) <= threshold /\
                     count_of counts u >= 2 * count_of counts v - 1)) /\
         ((forall v, In v (keys counts) -> v <> u ->
                     ~ (Z.of_nat (edit_distance u v) <= threshold /\
                        count_of counts u >= 2 * count_of counts v - 1)) ->
          l = [])).
Proof.
  intros Hnd.
  destruct (get_adj_list_directional_spec counts threshold Hnd)
    as (adj & E & K & N).
  exists adj. split; [exact E|]. split; [exact K|].
  intros u Hu. exists (neighbours adj u).
  split; [apply neighbours_lookup; rewrite K; exact Hu|].
  assert (Hl : forall v, In v (neighbours adj u) <->
                 In v (keys counts) /\ v <> u /\
                 (Z.of_nat (edit_distance u v) <= threshold /\
                  count_of counts u >= 2 * count_of counts v - 1)).
  { intros v. rewrite N. unfold edge. tauto. }
  split; [exact Hl|].
  intros Hiso. destruct (neighbours adj u) as [|v l]; [reflexivity|].
  exfalso. destruct (proj1 (Hl v) (or_introl eq_refl)) as (Hv & Hne & He).
  exact (Hiso v Hv Hne He).
Qed.

Lemma adjacency_directional_witness :
  exists adj,
    get_adj_list_directional (keys counts_scenario) counts_scenario 2
    = Ok adj /\
    keys adj = keys counts_scenario /\
    lookup "AAAAA" adj = Some ["AAAAT"] /\
    lookup "AAAAT" adj = Some [] /\
    lookup "TTTTT" adj = Some [].
Proof.
  destruct (adjacency_directional counts_scenario 2) as (adj & E & K & _).
  - unfold counts_scenario; simpl.
    repeat constructor; simpl; intuition discriminate.
  - exists adj. split; [exact E|]. split; [exact K|].
    vm_compute in E. injection E as <-. repeat split.
Defined.

(** ** Sets *)

Lemma set_add_In (x y : umi) (s : list umi) :
  In y (set_add x s) <-> y = x \/ In y s.
Proof.
  unfold set_add. destruct (mem x s) eqn:E.
  - apply mem_In in E. split; [auto | intros [->|H]; auto].
  - rewrite in_app_iff. simpl. intuition.
Qed.

Lemma set_add_new (x : umi) (s : list umi) :
  ~ In x s -> set_add x s = s ++ [x].
Proof.
  intros H. unfold set_add. apply mem_false in H. rewrite H. reflexivity.
Qed.

Lemma NoDup_snoc {A : Type} (x : A) (s : list A) :
  NoDup s -> ~ In x s -> NoDup (s ++ [x]).
Proof.
  intros Hnd Hx. apply NoDup_app; auto.
  - repeat constructor; simpl; tauto.
  - intros a Ha [<-|[]]. contradiction.
Qed.

Lemma set_add_NoDup (x : umi) (s : list umi) :
  NoDup s -> NoDup (set_add x s).
Proof.
  intros Hnd. unfold set_add. destruct (mem x s) eqn:E; [assumption|].
  apply mem_false in E. now apply NoDup_snoc.
Qed.

Lemma set_update_In (s t : list umi) (y : umi) :
  In y (set_update s t) <-> In y s \/ In y t.
Proof.
  unfold set_update. revert s. induction t as [|x t IH]; intros s; simpl.
  - tauto.
  - rewrite IH, set_add_In. intuition.
Qed.

Lemma set_update_NoDup (s t : list umi) :
  NoDup s -> NoDup (set_update s t).
Proof.
  unfold set_update. revert s. induction t as [|x t IH]; intros s H; simpl.
  - assumption.
  - apply IH. now apply set_add_NoDup.
Qed.

(** ** Reachability *)

Lemma reach_trans (adj : adj_list) (a b c : umi) :
  reach adj a b -> reach adj b c -> reach adj a c.
Proof.
  intros Hab Hbc. induction Hbc as [|m k _ IH Hk].
  - exact Hab.
  - eapply reach_step; eauto.
Qed.

Lemma reach_closed_keys (adj : adj_list) (n x : umi) :
  closed adj -> In n (keys adj) -> reach adj n x -> In x (keys adj).
Proof.
  intros Hcl Hn Hr. induction Hr as [|m k _ IH Hk].
  - exact Hn.
  - eapply Hcl; eauto.
Qed.

Lemma neighbours_in_values (adj : adj_list) (u v : umi) :
  In v (neighbours adj u) -> In v (List.concat (map snd adj)).
Proof.
  unfold neighbours. induction adj as [|[k l] adj IH]; simpl; [tauto|].
  destruct (String.eqb u k).
  - intros H. apply in_or_app. auto.
  - intros H. apply in_or_app. auto.
Qed.

Section ClusteringProperties.

Variable set_order : list umi -> list umi.
Hypothesis set_order_perm : forall s, Permutation (set_order s) s.

(** ** Breadth-first search *)

(** What the loop over the neighbours of a node does to the queue and to
    the searched set. *)
Lemma bfs_visit_fold (nbrs : list umi) :
  forall q s q2 s2,
    fold_left bfs_visit nbrs (q, s) = (q2, s2) ->
    incl q s -> NoDup s ->
    (forall x, In x s2 <-> In x s \/ In x nbrs) /\
    (forall x, In x q2 <-> In x q \/ (In x nbrs /\ ~ In x s)) /\
    NoDup s2 /\ incl q2 s2 /\
    (List.length q2 + List.length s = List.length q + List.length s2)%nat.
Proof.
  induction nbrs as [|n nbrs IH]; intros q s q2 s2 Hfold Hqs Hnd.
  - simpl in Hfold. inversion Hfold; subst. simpl.
    split; [tauto|]. split; [tauto|]. auto.
  - simpl in Hfold. destruct (mem n s) eqn:E.
    + apply mem_In in E.
      destruct (IH _ _ _ _ Hfold Hqs Hnd) as (Hs & Hq & Hnd2 & Hincl & Hlen).
      split; [|split; [|auto]].
      * intros x. rewrite Hs. simpl. split; [tauto|].
        intros [H|[->|H]]; auto.
      * intros x. rewrite Hq. simpl. split; [tauto|].
        intros [H|[[->|H] Hx]]; tauto.
    + apply mem_false in E.
      assert (Eq : ~ In n q) by (intros H; apply E, Hqs, H).
      rewrite (set_add_new n q Eq), (set_add_new n s E) in Hfold.
      destruct (IH _ _ _ _ Hfold) as (Hs & Hq & Hnd2 & Hincl & Hlen).
      { intros x Hx. apply in_app_or in Hx. apply in_or_app.
        destruct Hx; auto. }
      { now apply NoDup_snoc. }
      split; [|split; [|split; [exact Hnd2|split; [exact Hincl|]]]].
      * intros x. rewrite Hs, in_app_iff. simpl. intuition.
      * intros x. rewrite Hq, !in_app_iff. simpl. split.
        -- intros [[H|[<-|[]]]|[H Hx]]; auto.
           right. split; auto.
        -- intros [H|[[<-|H] Hx]]; auto.
           destruct (string_dec x n) as [->|Hne]; auto.
           right. split; auto. intros [H'|[H'|[]]]; auto.
      * rewrite !length_app in Hlen. simpl in Hlen. lia.
Qed.

Lemma bfs_invariant_done (adj : adj_list) (n0 : umi) (searched : list umi) :
  bfs_invariant adj n0 [] searched ->
  NoDup searched /\ forall x, In x searched <-> reach adj n0 x.
Proof.
  intros (Hn0 & _ & Hnd & Hreach & Hdone).
  split; [exact Hnd|]. intros x. split; [apply Hreach|].
  intros Hr. induction Hr as [|m k _ IHr Hk]; [exact Hn0|].
  eapply Hdone; eauto.
Qed.

(** One turn of the loop keeps the invariant. *)
Lemma bfs_invariant_step (adj : adj_list) (n0 node : umi)
    (queue searched nbrs q2 s2 : list umi) :
  bfs_invariant adj n0 queue searched ->
  In node queue ->
  lookup node adj = Some nbrs ->
  fold_left bfs_visit nbrs (remove string_dec node queue, searched)
    = (q2, s2) ->
  bfs_invariant adj n0 q2 s2 /\
  (List.length q2 + List.length searched
   < List.length queue + List.length s2)%nat.
Proof.
  intros (Hn0 & Hqs & Hnd & Hreach & Hdone) Hnode Hlook Hfold.
  assert (Hnb : neighbours adj node = nbrs)
    by (unfold neighbours; rewrite Hlook; reflexivity).
  assert (Hq' : incl (remove string_dec node queue) searched).
  { intros x Hx. apply in_remove in Hx. apply Hqs. tauto. }
  destruct (bfs_visit_fold nbrs _ _ _ _ Hfold Hq' Hnd)
    as (Hs & Hq & Hnd2 & Hincl & Hlen).
  split.
  - split; [apply Hs; auto|]. split; [exact Hincl|]. split; [exact Hnd2|].
    split.
    + intros x Hx. apply Hs in Hx. destruct Hx as [Hx|Hx]; [auto|].
      apply reach_step with (m := node); [apply Hreach, Hqs, Hnode|].
      rewrite Hnb. exact Hx.
    + intros x Hx Hxq y Hy. apply Hs.
      destruct (string_dec x node) as [->|Hne].
      * right. rewrite <- Hnb. exact Hy.
      * apply Hs in Hx. destruct Hx as [Hx|Hx].
        -- left. apply (Hdone x Hx); [|exact Hy].
           intros Hin. apply Hxq, Hq. left.
           apply in_in_remove; assumption.
        -- destruct (in_dec string_dec x searched) as [Hxs|Hxs].
           ++ left. apply (Hdone x Hxs); [|exact Hy].
              intros Hin. apply Hxq, Hq. left.
              apply in_in_remove; assumption.
           ++ exfalso. apply Hxq, Hq. right. split; assumption.
  - pose proof (remove_length_lt string_dec queue node Hnode).
    unfold umi in *. lia.
Qed.

Lemma bfs_loop_spec (adj : adj_list) (n0 : umi) (universe : list umi) :
  (forall x, reach adj n0 x -> In x universe) ->
  forall fuel queue searched,
    bfs_invariant adj n0 queue searched ->
    (List.length universe + List.length queue
     < fuel + List.length searched)%nat ->
    match bfs_loop set_order fuel adj queue searched with
    | Ok s => NoDup s /\ forall x, In x s <-> reach adj n0 x
    | Raise (KeyError k) => reach adj n0 k /\ ~ In k (keys adj)
    | Raise _ => False
    end.
Proof.
  intros Huniv. induction fuel as [|fuel IH]; intros queue searched Hinv Hfuel.
  - destruct queue as [|q queue]; simpl.
    + now apply bfs_invariant_done.
    + destruct Hinv as (_ & _ & Hnd & Hreach & _).
      assert (List.length searched <= List.length universe)%nat.
      { apply NoDup_incl_length; [exact Hnd|].
        intros x Hx. apply Huniv, Hreach, Hx. }
      simpl in Hfuel. lia.
  - destruct queue as [|q queue'] eqn:Equeue.
    + simpl. now apply bfs_invariant_done.
    + rewrite <- Equeue in *.
      replace (bfs_loop set_order (S fuel) adj queue searched)
        with (match set_order queue with
              | [] => Raise (KeyError "pop from an empty set")
              | node :: _ =>
                  nbrs <- getitem adj node ;;
                  let (queue2, searched2) :=
                    fold_left bfs_visit nbrs
                      (remove string_dec node queue, searched) in
                  bfs_loop set_order fuel adj queue2 searched2
              end)
        by (rewrite Equeue; reflexivity).
      pose proof (set_order_perm queue) as Hperm.
      destruct (set_order queue) as [|node rest].
      * apply Permutation_nil in Hperm. congruence.
      * assert (Hnode : In node queue).
        { eapply Permutation_in; [exact Hperm | left; reflexivity]. }
        unfold getitem. destruct (lookup node adj) as [nbrs|] eqn:Hlook.
        -- cbn [bind].
           destruct (fold_left bfs_visit nbrs
                       (remove string_dec node queue, searched))
             as [q2 s2] eqn:Hfold.
           destruct (bfs_invariant_step _ _ _ _ _ _ _ _
                       Hinv Hnode Hlook Hfold) as [Hinv2 Hlen].
           apply IH; [exact Hinv2 | lia].
        -- cbn [bind]. split.
           ++ destruct Hinv as (_ & Hqs & _ & Hreach & _).
              apply Hreach, Hqs, Hnode.
           ++ now apply lookup_None.
Qed.

(** The search from [node] never runs out of fuel: it returns the set of
    the nodes reachable from [node], or raises [KeyError] at a reachable
    node that is not a key of the graph. *)
Lemma breadth_first_search_spec (node : umi) (adj : adj_list) :
  match breadth_first_search set_order node adj with
  | Ok s => NoDup s /\ forall x, In x s <-> reach adj node x
  | Raise (KeyError k) => reach adj node k /\ ~ In k (keys adj)
  | Raise _ => False
  end.
Proof.
  unfold breadth_first_search.
  apply bfs_loop_spec
    with (universe := node :: keys adj ++ List.concat (map snd adj)).
  - intros x Hr. destruct Hr as [|m k _ Hk]; [left; reflexivity|].
    right. apply in_or_app. right. eapply neighbours_in_values; eauto.
  - unfold set_update, set_add. simpl.
    split; [left; reflexivity|]. split; [apply incl_refl|].
    split; [repeat constructor; simpl; tauto|]. split.
    + intros x [<-|[]]. constructor.
    + intros x [<-|[]] H. exfalso. apply H. left. reflexivity.
  - unfold bfs_fuel, set_update, set_add. simpl. lia.
Qed.

(** On a graph whose neighbours are all keys the search returns. *)
Lemma breadth_first_search_closed (node : umi) (adj : adj_list) :
  closed adj -> In node (keys adj) ->
  exists s,
    breadth_first_search set_order node adj = Ok s /\
    NoDup s /\ forall x, In x s <-> reach adj node x.
Proof.
  intros Hcl Hnode. pose proof (breadth_first_search_spec node adj) as H.
  destruct (breadth_first_search set_order node adj) as [s|[k| | | |]];
    try contradiction.
  - exists s. auto.
  - exfalso. destruct H as [Hr Hk]. apply Hk.
    eapply reach_closed_keys; eauto.
Qed.

End ClusteringProperties.

(** ** Sorting *)

Lemma insert_desc_perm {A : Type} (x : A * Z) (l : list (A * Z)) :
  Permutation (insert_desc x l) (x :: l).
Proof.
  induction l as [|y l IH]; simpl; [reflexivity|].
  destruct (snd x >=? snd y); [reflexivity|].
  rewrite IH. apply perm_swap.
Qed.

Lemma sort_desc_perm {A : Type} (l : list (A * Z)) :
  Permutation (sort_desc l) l.
Proof.
  induction l as [|x l IH]; simpl; [reflexivity|].
  rewrite insert_desc_perm. now apply perm_skip.
Qed.

Lemma descending_by_head {A : Type} (key : A -> Z) (x : A) (l : list A) :
  descending_by key (x :: l) -> forall y, In y (x :: l) -> key y <= key x.
Proof.
  intros H y Hy. inversion H as [|? ? Hall Hl]; subst.
  destruct Hy as [<-|Hy]; [lia|].
  rewrite Forall_forall in Hall. now apply Hall.
Qed.

Lemma insert_desc_sorted {A : Type} (x : A * Z) (l : list (A * Z)) :
  descending_by snd l -> descending_by snd (insert_desc x l).
Proof.
  induction l as [|y l IH]; intros Hl; simpl.
  - constructor; [constructor | constructor].
  - destruct (Z.geb_spec (snd x) (snd y)) as [Hge|Hlt].
    + constructor; [|exact Hl].
      apply Forall_forall. intros z Hz.
      pose proof (descending_by_head _ _ _ Hl z Hz). lia.
    + inversion Hl as [|? ? Hall Hl']; subst.
      constructor; [|now apply IH].
      apply Forall_forall. intros z Hz.
      apply (Permutation_in _ (insert_desc_perm x l)) in Hz.
      destruct Hz as [<-|Hz]; [lia|].
      rewrite Forall_forall in Hall. now apply Hall.
Qed.

Lemma sort_desc_sorted {A : Type} (l : list (A * Z)) :
  descending_by snd (sort_desc l).
Proof.
  induction l as [|x l IH]; simpl; [constructor|].
  now apply insert_desc_sorted.
Qed.

Lemma descending_by_map_fst (counts : counts_dict) (l : list (umi * Z)) :
  (forall p, In p l -> snd p = count_of counts (fst p)) ->
  descending_by snd l -> descending counts (map fst l).
Proof.
  intros Hkey Hl. induction Hl as [|p l Hall Hl IH]; simpl.
  - constructor.
  - constructor.
    + apply Forall_forall. intros y Hy. apply in_map_iff in Hy.
      destruct Hy as (q & <- & Hq).
      rewrite Forall_forall in Hall.
      rewrite <- (Hkey q), <- (Hkey p); [now apply Hall | now left | now right].
    + apply IH. intros q Hq. apply Hkey. now right.
Qed.

Lemma descending_by_filter {A : Type} (key : A -> Z) (f : A -> bool)
    (l : list A) :
  descending_by key l -> descending_by key (filter f l).
Proof.
  intros Hl. induction Hl as [|x l Hall Hl IH]; simpl; [constructor|].
  destruct (f x); [|exact IH].
  constructor; [|exact IH].
  rewrite Forall_forall in *. intros y Hy. apply filter_In in Hy.
  now apply Hall.
Qed.

Lemma mapM_counts (counts : counts_dict) (l : list umi) :
  incl l (keys counts) ->
  mapM (fun x => c <- getitem counts x ;; Ok (x, c)) l
  = Ok (map (fun x => (x, count_of counts x)) l).
Proof.
  induction l as [|x l IH]; intros Hl; simpl; [reflexivity|].
  rewrite (getitem_count counts x) by (apply Hl; now left).
  cbn [bind]. rewrite IH; [reflexivity|].
  intros y Hy. apply Hl. now right.
Qed.

(** [sorted] returns the elements it was given, most frequent first. *)
Lemma sorted_by_count_desc_spec (counts : counts_dict) (l : list umi) :
  incl l (keys counts) ->
  exists l',
    sorted_by_count_desc counts l = Ok l' /\
    Permutation l' l /\ descending counts l'.
Proof.
  intros Hl. unfold sorted_by_count_desc. rewrite (mapM_counts counts l Hl).
  cbn [bind]. eexists. split; [reflexivity|]. split.
  - rewrite sort_desc_perm, map_map. simpl. rewrite map_id. reflexivity.
  - apply descending_by_map_fst; [|apply sort_desc_sorted].
    intros p Hp. apply (Permutation_in _ (sort_desc_perm _)) in Hp.
    apply in_map_iff in Hp. destruct Hp as (x & <- & _). reflexivity.
Qed.

Section ComponentProperties.

Variable set_order : list umi -> list umi.
Hypothesis set_order_perm : forall s, Permutation (set_order s) s.

(** ** Connected-Component Extractor *)

Lemma components_fold_spec (graph : adj_list) :
  closed graph ->
  forall order found comps0,
    incl order (keys graph) ->
    exists found' comps,
      foldM (components_step set_order graph) order (found, comps0)
      = Ok (found', comps0 ++ comps) /\
      discovered graph found order comps.
Proof.
  intros Hcl. induction order as [|n order IH]; intros found comps0 Hord.
  - exists found, []. rewrite app_nil_r. split; [reflexivity | constructor].
  - assert (Hord' : incl order (keys graph))
      by (intros x Hx; apply Hord; now right).
    cbn [foldM]. unfold components_step at 1.
    destruct (mem n found) eqn:E.
    + apply mem_In in E. cbn [bind].
      destruct (IH found comps0 Hord') as (found' & comps & Hfold & Hdisc).
      exists found', comps. split; [exact Hfold|].
      now apply discovered_skip.
    + apply mem_false in E.
      destruct (breadth_first_search_closed set_order set_order_perm n graph
                  Hcl (Hord n (or_introl eq_refl))) as (c & Hbfs & Hnd & Hc).
      rewrite Hbfs. cbn [bind].
      destruct (IH (set_update found c) (comps0 ++ [c]) Hord')
        as (found' & comps & Hfold & Hdisc).
      exists found', (c :: comps). split.
      * rewrite Hfold, <- app_assoc. reflexivity.
      * apply discovered_start with (found' := set_update found c); auto.
        intros x. apply set_update_In.
Qed.

Lemma get_connected_components_adjacency_spec (umis : list umi)
    (graph : adj_list) (counts : counts_dict) :
  closed graph -> incl (keys graph) (keys counts) ->
  exists order comps,
    sorted_by_count_desc counts (keys graph) = Ok order /\
    Permutation order (keys graph) /\
    descending counts order /\
    get_connected_components_adjacency set_order umis graph counts
    = Ok comps /\
    discovered graph [] order comps.
Proof.
  intros Hcl Hkeys.
  destruct (sorted_by_count_desc_spec counts (keys graph) Hkeys)
    as (order & Hsort & Hperm & Hdesc).
  destruct (components_fold_spec graph Hcl order [] [])
    as (found' & comps & Hfold & Hdisc).
  { intros x Hx. eapply Permutation_in; eauto. }
  exists order, comps. split; [exact Hsort|]. split; [exact Hperm|].
  split; [exact Hdesc|]. split; [|exact Hdisc].
  unfold get_connected_components_adjacency. rewrite Hsort. cbn [bind].
  rewrite Hfold. reflexivity.
Qed.

End ComponentProperties.

(** ** What [discovered] entails *)

Lemma discovered_covers (adj : adj_list) (found order : list umi)
    (comps : list (list umi)) :
  discovered adj found order comps ->
  forall n, In n order -> In n found \/ exists c, In c comps /\ In n c.
Proof.
  intros H. induction H as [found|found n order comps Hn _ IH
                           |found found' n order c comps Hn Hnd Hc Hf _ IH];
    intros m Hm.
  - contradiction.
  - destruct Hm as [<-|Hm]; [now left | now apply IH].
  - destruct Hm as [<-|Hm].
    + right. exists c. split; [now left|]. apply Hc. constructor.
    + destruct (IH m Hm) as [Hin|(c' & Hc' & Hin)].
      * apply Hf in Hin. destruct Hin as [Hin|Hin]; [now left|].
        right. exists c. split; [now left | exact Hin].
      * right. exists c'. split; [now right | exact Hin].
Qed.

Lemma discovered_within (adj : adj_list) (found order : list umi)
    (comps : list (list umi)) :
  closed adj -> incl order (keys adj) ->
  discovered adj found order comps ->
  forall c, In c comps -> NoDup c /\ incl c (keys adj).
Proof.
  intros Hcl Hord H.
  induction H as [found|found n order comps Hn _ IH
                 |found found' n order c comps Hn Hnd Hc Hf _ IH];
    intros c' Hc'.
  - contradiction.
  - apply IH; [|exact Hc']. intros x Hx. apply Hord. now right.
  - destruct Hc' as [<-|Hc'].
    + split; [exact Hnd|]. intros x Hx. apply Hc in Hx.
      eapply reach_closed_keys; eauto. apply Hord. now left.
    + apply IH; [|exact Hc']. intros x Hx. apply Hord. now right.
Qed.

(** ** Directional Grouper *)

Lemma group_visit_fold (sorted : list umi) :
  forall temp obs temp' obs',
    fold_left group_visit sorted (temp, obs) = (temp', obs') ->
    NoDup sorted ->
    temp' = temp ++ filter (fun x => negb (mem x obs)) sorted /\
    forall x, In x obs' <-> In x obs \/ In x sorted.
Proof.
  induction sorted as [|n sorted IH]; intros temp obs temp' obs' Hfold Hnd.
  - simpl in Hfold. inversion Hfold; subst. simpl.
    rewrite app_nil_r. split; [reflexivity | tauto].
  - inversion Hnd as [|? ? Hn Hnd']; subst.
    simpl in Hfold. simpl. destruct (mem n obs) eqn:E; simpl.
    + apply mem_In in E.
      destruct (IH _ _ _ _ Hfold Hnd') as [Ht Ho].
      split; [exact Ht|]. intros x. rewrite Ho.
      split; [tauto | intros [H|[->|H]]; auto].
    + destruct (IH _ _ _ _ Hfold Hnd') as [Ht Ho].
      split.
      * rewrite Ht, <- app_assoc. simpl. do 2 f_equal.
        apply filter_ext_in. intros x Hx. f_equal.
        destruct (mem x (set_add n obs)) eqn:E1, (mem x obs) eqn:E2;
          try reflexivity.
        -- apply mem_In in E1. apply mem_false in E2.
           apply set_add_In in E1. destruct E1 as [->|E1]; contradiction.
        -- apply mem_false in E1. apply mem_In in E2.
           exfalso. apply E1. apply set_add_In. now right.
      * intros x. rewrite Ho, set_add_In.
        split; [intros [[->|H]|H]; auto | intros [H|[->|H]]; auto].
Qed.

Section GrouperProperties.

Variable set_order : list umi -> list umi.
Hypothesis set_order_perm : forall s, Permutation (set_order s) s.

(** One component gives one cluster: its nodes not observed before, most
    frequent first.  [n] is the node the component was started from. *)
Lemma group_step_spec (counts : counts_dict) (n : umi) (c : list umi)
    (observed : list umi) (groups0 : list (list umi)) :
  NoDup c -> incl c (keys counts) -> In n c -> ~ In n observed ->
  exists observed' g,
    group_step set_order counts (observed, groups0) c
    = Ok (observed', groups0 ++ [g]) /\
    NoDup g /\ descending counts g /\ In n g /\
    (forall x, In x g <-> In x c /\ ~ In x observed) /\
    (forall x, In x observed' <-> In x observed \/ In x c).
Proof.
  intros Hnd Hc Hn Hobs. unfold group_step.
  destruct (Nat.eqb_spec (List.length c) 1) as [Hlen|Hlen].
  - destruct c as [|x [|y c]]; try discriminate.
    destruct Hn as [->|[]].
    assert (E : set_order [n] = [n]).
    { apply Permutation_length_1_inv. apply Permutation_sym.
      apply set_order_perm. }
    rewrite E. exists (set_update observed [n]), [n].
    split; [reflexivity|]. split; [exact Hnd|].
    split; [repeat constructor|]. split; [now left|]. split.
    + intros x. simpl. split; [intros [<-|[]]; auto | tauto].
    + intros x. apply set_update_In.
  - assert (Hperm := set_order_perm c).
    destruct (sorted_by_count_desc_spec counts (set_order c))
      as (sorted & Hsort & Hperm' & Hdesc).
    { intros x Hx. apply Hc. eapply Permutation_in; eauto. }
    rewrite Hsort. cbn [bind].
    assert (Hps : Permutation sorted c)
      by (eapply Permutation_trans; eauto).
    assert (Hnds : NoDup sorted).
    { eapply Permutation_NoDup; [apply Permutation_sym; exact Hps | exact Hnd]. }
    destruct (fold_left group_visit sorted ([], observed))
      as [temp observed'] eqn:Hfold.
    destruct (group_visit_fold sorted _ _ _ _ Hfold Hnds) as [Ht Ho].
    simpl in Ht. subst temp.
    assert (Hg : forall x,
              In x (filter (fun x => negb (mem x observed)) sorted) <->
              In x c /\ ~ In x observed).
    { intros x. rewrite filter_In, negb_true_iff, mem_false. split.
      - intros [H1 H2]. split; [|exact H2]. eapply Permutation_in; eauto.
      - intros [H1 H2]. split; [|exact H2].
        eapply Permutation_in; [apply Permutation_sym|]; eauto. }
    exists observed', (filter (fun x => negb (mem x observed)) sorted).
    split; [reflexivity|]. split; [now apply NoDup_filter|].
    split; [now apply descending_by_filter|].
    split; [apply Hg; auto|]. split; [exact Hg|].
    intros x. rewrite Ho. split; intros [H|H]; auto; right.
    + eapply Permutation_in; eauto.
    + eapply Permutation_in; [apply Permutation_sym|]; eauto.
Qed.

Lemma group_fold_spec (counts : counts_dict) (adj : adj_list)
    (found order : list umi) (comps : list (list umi)) :
  discovered adj found order comps ->
  forall observed groups0,
    (forall x, In x observed <-> In x found) ->
    (forall c, In c comps -> incl c (keys counts)) ->
    exists observed' groups,
      foldM (group_step set_order counts) comps (observed, groups0)
      = Ok (observed', groups0 ++ groups) /\
      grouped counts observed comps groups /\
      Forall (fun g => g <> []) groups.
Proof.
  intros H. induction H as [found|found n order comps Hn _ IH
                           |found found' n order c comps Hn Hnd Hc Hf _ IH];
    intros observed groups0 Hobs Hkeys.
  - exists observed, []. rewrite app_nil_r.
    split; [reflexivity|]. split; constructor.
  - now apply IH.
  - assert (Hnc : In n c) by (apply Hc; constructor).
    assert (Hno : ~ In n observed) by (rewrite Hobs; exact Hn).
    destruct (group_step_spec counts n c observed groups0 Hnd
                (Hkeys c (or_introl eq_refl)) Hnc Hno)
      as (observed1 & g & Hstep & Hndg & Hdesc & Hng & Hg & Ho).
    destruct (IH observed1 (groups0 ++ [g])) as (observed' & groups & Hfold & Hgr & Hne).
    { intros x. rewrite Ho, Hf, Hobs. tauto. }
    { intros c' Hc'. apply Hkeys. now right. }
    exists observed', (g :: groups). split; [|split].
    + cbn [foldM]. rewrite Hstep. cbn [bind].
      rewrite Hfold, <- app_assoc. reflexivity.
    + eapply grouped_cons; eauto.
    + constructor; [|exact Hne]. intros ->. contradiction.
Qed.

End GrouperProperties.

(** ** What [grouped] entails *)

Lemma grouped_concat (counts : counts_dict) (observed : list umi)
    (comps groups : list (list umi)) :
  grouped counts observed comps groups ->
  NoDup (List.concat groups) /\
  (forall x, In x (List.concat groups) <->
             (exists c, In c comps /\ In x c) /\ ~ In x observed) /\
  Forall2 (fun c g => descending counts g /\ incl g c) comps groups.
Proof.
  intros H. induction H as [observed
                           |observed observed' c comps g groups
                              Hnd Hdesc Hg Ho _ (IHnd & IHin & IHall)].
  - simpl. split; [constructor|]. split; [|constructor].
    intros x. split; [contradiction | intros [(c & [] & _) _]].
  - simpl. split; [|split].
    + apply NoDup_app; auto.
      intros x Hx Hx'. apply IHin in Hx'. destruct Hx' as [_ Hx'].
      apply Hx', Ho. right. now apply Hg.
    + intros x. rewrite in_app_iff, Hg, IHin. split.
      * intros [[Hc Hno]|[(c' & Hc' & Hx) Hno]].
        -- split; [exists c; auto | exact Hno].
        -- split; [exists c'; auto|]. intros Hin. apply Hno, Ho. now left.
      * intros [(c' & [<-|Hc'] & Hx) Hno]; [now left|].
        destruct (in_dec string_dec x c) as [Hxc|Hxc]; [now left|].
        right. split; [exists c'; auto|]. intros Hin. apply Ho in Hin. tauto.
    + constructor; [|exact IHall]. split; [exact Hdesc|].
      intros x Hx. now apply Hg.
Qed.

(** ** Correction Map Builder *)

Lemma lookup_fold_dict_set (r : umi) (ys : list umi) :
  forall (m0 : dict umi) (k : umi),
    lookup k (fold_left (fun m y => dict_set y r m) ys m0)
    = if mem k ys then Some r else lookup k m0.
Proof.
  induction ys as [|y ys IH]; intros m0 k; simpl; [reflexivity|].
  rewrite IH, lookup_dict_set.
  destruct (mem k ys) eqn:E; [now rewrite orb_true_r|].
  rewrite orb_false_r. reflexivity.
Qed.

Lemma create_map_inner (r : umi) (x' : list umi) :
  forall (ys : list umi) (m0 : dict umi),
    foldM (fun m y => r0 <- first (r :: x') ;; Ok (dict_set y r0 m)) ys m0
    = Ok (fold_left (fun m y => dict_set y r m) ys m0).
Proof.
  induction ys as [|y ys IH]; intros m0; simpl; [reflexivity|]. apply IH.
Qed.

Lemma NoDup_app_disjoint {A : Type} (l l' : list A) (a : A) :
  NoDup (l ++ l') -> In a l -> ~ In a l'.
Proof.
  induction l as [|x l IH]; simpl; [tauto|].
  intros Hnd [->|Ha] Ha'.
  - inversion Hnd as [|? ? Hx _]; subst. apply Hx. apply in_or_app. auto.
  - inversion Hnd; subst. now apply IH.
Qed.

(** The builder never raises; when no UMI is in two clusters, every member
    of a cluster is sent to the first element of that cluster. *)
Lemma create_map_fold_spec (cl : list (list umi)) :
  forall m0 : dict umi,
    exists m,
      foldM (fun my_map x =>
               foldM (fun m y => r <- first x ;; Ok (dict_set y r m)) x my_map)
        cl m0 = Ok m /\
      (NoDup (List.concat cl) ->
       (forall c y, In c cl -> In y c ->
                    exists r, first c = Ok r /\ lookup y m = Some r) /\
       (forall y, ~ In y (List.concat cl) -> lookup y m = lookup y m0)).
Proof.
  induction cl as [|x cl IH]; intros m0.
  - exists m0. split; [reflexivity|]. intros _. split; [contradiction | auto].
  - assert (Hx : exists m1,
              foldM (fun m y => r <- first x ;; Ok (dict_set y r m)) x m0
              = Ok m1 /\
              (forall y, ~ In y x -> lookup y m1 = lookup y m0) /\
              (forall y, In y x ->
                         exists r, first x = Ok r /\ lookup y m1 = Some r)).
    { destruct x as [|r x'].
      - exists m0. split; [reflexivity|]. split; [auto | contradiction].
      - eexists. split; [apply (create_map_inner r x')|].
        split.
        + intros y Hy. rewrite lookup_fold_dict_set.
          apply mem_false in Hy. rewrite Hy. reflexivity.
        + intros y Hy. exists r. split; [reflexivity|].
          rewrite lookup_fold_dict_set.
          apply mem_In in Hy. rewrite Hy. reflexivity. }
    destruct Hx as (m1 & Hm1 & Hout & Hin).
    destruct (IH m1) as (m & Hm & Hspec).
    exists m. split; [cbn [foldM]; unfold umi in *; rewrite Hm1; exact Hm|].
    simpl. intros Hnd.
    assert (Hnd' : NoDup (List.concat cl)) by (eapply NoDup_app_remove_l; eauto).
    destruct (Hspec Hnd') as [Hcl Hrest]. split.
    + intros c y [<-|Hc] Hy.
      * destruct (Hin y Hy) as (r & Hr & Hl). exists r. split; [exact Hr|].
        rewrite Hrest; [exact Hl|].
        eapply NoDup_app_disjoint; eauto.
      * now apply Hcl.
    + intros y Hy. rewrite Hrest, Hout; [reflexivity | |];
        intros H; apply Hy; apply in_or_app; auto.
Qed.

(** ** The per-group pipeline *)

Lemma nth_error_concat_NoDup {A : Type} (l : list (list A)) :
  NoDup (List.concat l) ->
  forall i j c1 c2 x,
    nth_error l i = Some c1 -> nth_error l j = Some c2 ->
    In x c1 -> In x c2 -> i = j.
Proof.
  induction l as [|c l IH]; intros Hnd i j c1 c2 x Hi Hj H1 H2.
  - destruct i; discriminate.
  - simpl in Hnd.
    assert (Hl : forall k c', nth_error l k = Some c' -> In x c' ->
                              In x (List.concat l)).
    { intros k c' Hk Hx. apply in_concat. exists c'.
      split; [eapply nth_error_In; eauto | exact Hx]. }
    destruct i as [|i], j as [|j]; simpl in Hi, Hj.
    + reflexivity.
    + inversion Hi; subst. exfalso.
      eapply NoDup_app_disjoint; eauto.
    + inversion Hj; subst. exfalso.
      eapply NoDup_app_disjoint; eauto.
    + f_equal. eapply IH; eauto. eapply NoDup_app_remove_l; eauto.
Qed.

Section PipelineProperties.

Variable set_order : list umi -> list umi.
Hypothesis set_order_perm : forall s, Permutation (set_order s) s.

(** The run of [cluster] on a count map, stage by stage. *)
Lemma cluster_spec (counts : counts_dict) (threshold : Z) :
  NoDup (keys counts) ->
  exists adj order comps groups,
    get_adj_list_directional (keys counts) counts threshold = Ok adj /\
    keys adj = keys counts /\ closed adj /\
    (forall u v, In v (neighbours adj u) <->
                 In u (keys counts) /\ In v (keys counts) /\ v <> u /\
                 edge counts threshold u v) /\
    sorted_by_count_desc counts (keys adj) = Ok order /\
    Permutation order (keys counts) /\ descending counts order /\
    get_connected_components_adjacency set_order (keys counts) adj counts
    = Ok comps /\
    discovered adj [] order comps /\
    group_directional set_order comps adj counts = Ok groups /\
    grouped counts [] comps groups /\
    Forall (fun g => g <> []) groups /\
    cluster set_order counts threshold = Ok groups.
Proof.
  intros Hnd.
  destruct (get_adj_list_directional_spec counts threshold Hnd)
    as (adj & Hadj & K & N).
  assert (Hcl : closed adj).
  { intros u v Hv. apply N in Hv. rewrite K. tauto. }
  assert (Hkeys : incl (keys adj) (keys counts))
    by (rewrite K; apply incl_refl).
  destruct (get_connected_components_adjacency_spec set_order set_order_perm
              (keys counts) adj counts Hcl Hkeys)
    as (order & comps & Hsort & Hperm & Hdesc & Hcomps & Hdisc).
  assert (Hord : incl order (keys adj)).
  { intros x Hx. eapply Permutation_in; eauto. }
  destruct (group_fold_spec set_order set_order_perm counts adj [] order comps
              Hdisc [] []) as (observed' & groups & Hfold & Hgr & Hne).
  { intros x. tauto. }
  { intros c Hc. rewrite <- K.
    apply (discovered_within adj [] order comps Hcl Hord Hdisc c Hc). }
  assert (Hgd : group_directional set_order comps adj counts = Ok groups).
  { unfold group_directional. rewrite Hfold. reflexivity. }
  exists adj, order, comps, groups.
  split; [exact Hadj|]. split; [exact K|]. split; [exact Hcl|].
  split; [exact N|]. split; [exact Hsort|].
  split; [rewrite <- K; exact Hperm|]. split; [exact Hdesc|].
  split; [exact Hcomps|]. split; [exact Hdisc|]. split; [exact Hgd|].
  split; [exact Hgr|]. split; [exact Hne|].
  unfold cluster. rewrite Hadj. cbn [bind]. rewrite Hcomps. cbn [bind].
  rewrite Hgd. cbn [bind]. rewrite map_id. reflexivity.
Qed.

(** The clusters hold the UMIs of the map, each once. *)
Lemma cluster_partition (counts : counts_dict) (threshold : Z) :
  NoDup (keys counts) ->
  exists clusters,
    cluster set_order counts threshold = Ok clusters /\
    NoDup (List.concat clusters) /\
    (forall u, In u (List.concat clusters) <-> In u (keys counts)) /\
    Forall (fun c => c <> []) clusters /\
    Forall (descending counts) clusters.
Proof.
  intros Hnd.
  destruct (cluster_spec counts threshold Hnd)
    as (adj & order & comps & groups & _ & K & Hcl & _ & _ & Hperm & _ & _
        & Hdisc & _ & Hgr & Hne & Hcluster).
  destruct (grouped_concat counts [] comps groups Hgr) as (Hndc & Hin & Hall).
  assert (Hord : incl order (keys adj)).
  { intros x Hx. rewrite K. eapply Permutation_in; eauto. }
  exists groups. split; [exact Hcluster|]. split; [exact Hndc|].
  split; [|split; [exact Hne|]].
  - intros u. rewrite Hin. split.
    + intros [(c & Hc & Hu) _]. rewrite <- K.
      apply (discovered_within adj [] order comps Hcl Hord Hdisc c Hc). exact Hu.
    + intros Hu. split; [|tauto].
      assert (Huo : In u order).
      { eapply Permutation_in; [apply Permutation_sym; exact Hperm | exact Hu]. }
      destruct (discovered_covers adj [] order comps Hdisc u Huo) as [[]|H].
      exact H.
  - clear -Hall. induction Hall as [|c g comps groups [Hd _] _ IH];
      constructor; auto.
Qed.

(** C1.  For a count map (a dictionary: no key twice), [cluster] returns a
    list of clusters in which no UMI occurs twice, whose UMIs are exactly
    those of the map, and every UMI of the map is in exactly one cluster of
    the list. *)
Theorem clusters_partition_umis (counts : counts_dict) (threshold : Z) :
  NoDup (keys counts) ->
  exists clusters,
    cluster set_order counts threshold = Ok clusters /\
    NoDup (List.concat clusters) /\
    Permutation (List.concat clusters) (keys counts) /\
    forall u, In u (keys counts) ->
      exists i c,
        nth_error clusters i = Some c /\ In u c /\
        forall j c', nth_error clusters j = Some c' -> In u c' -> j = i.
Proof.
  intros Hnd.
  destruct (cluster_partition counts threshold Hnd)
    as (clusters & Hcluster & Hndc & Hin & _ & _).
  exists clusters. split; [exact Hcluster|]. split; [exact Hndc|]. split.
  - apply NoDup_Permutation; assumption.
  - intros u Hu. apply Hin in Hu. apply in_concat in Hu.
    destruct Hu as (c & Hc & Hu). apply In_nth_error in Hc.
    destruct Hc as [i Hi]. exists i, c. split; [exact Hi|]. split; [exact Hu|].
    intros j c' Hj Hu'.
    eapply (nth_error_concat_NoDup clusters Hndc); eauto.
Qed.


(** C2.  The correction map built from the clusters of a count map sends
    every member of a cluster to the first element of that cluster; this
    representative is a member of the cluster and no member has a higher
    count; hence a UMI is never sent to a member of its cluster with a
    strictly lower count. *)
Theorem correction_map_representative (counts : counts_dict) (threshold : Z) :
  NoDup (keys counts) ->
  exists clusters m,
    cluster set_order counts threshold = Ok clusters /\
    create_map_to_correct_umi clusters = Ok m /\
    forall c, In c clusters ->
      exists r,
        first c = Ok r /\ In r c /\
        (forall y, In y c ->
           lookup y m = Some r /\ count_of counts y <= count_of counts r) /\
        (forall a b, In a c -> In b c ->
           count_of counts a > count_of counts b -> lookup a m <> Some b).
Proof.
  intros Hnd.
  destruct (cluster_partition counts threshold Hnd)
    as (clusters & Hcluster & Hndc & _ & Hne & Hdesc).
  destruct (create_map_fold_spec clusters []) as (m & Hm & Hspec).
  destruct (Hspec Hndc) as [Hmap _].
  exists clusters, m. split; [exact Hcluster|]. split; [exact Hm|].
  intros c Hc. rewrite Forall_forall in Hne, Hdesc.
  destruct c as [|r c'] eqn:Ec; [exfalso; now apply (Hne [])|].
  exists r. split; [reflexivity|]. split; [now left|].
  assert (Hy : forall y, In y (r :: c') ->
            lookup y m = Some r /\ count_of counts y <= count_of counts r).
  { intros y Hy. split.
    - destruct (Hmap (r :: c') y Hc Hy) as (r' & Hr' & Hl).
      simpl in Hr'. inversion Hr'; subst. exact Hl.
    - apply (descending_by_head _ _ _ (Hdesc _ Hc) y Hy). }
  split; [exact Hy|].
  intros a b Ha Hb Hgt Hl.
  destruct (Hy a Ha) as [Hla Hca]. destruct (Hy b Hb) as [_ Hcb].
  pose proof (eq_trans (eq_sym Hla) Hl) as E. inversion E; subst. lia.
Qed.

(** C5 (as the code has it).  On a graph whose neighbours are all keys and
    whose keys all have a count, the extractor returns; the nodes are taken
    in descending order of count ([order]); a node already in a component
    is passed over and any other node starts a component, which is the set
    of the nodes reachable from it along the neighbour lists in the
    direction they are stored ([discovered]).  Hence every component has a
    start node which is in no earlier component, and every node is in some
    component. *)
Theorem components_directed_reachability (umis : list umi)
    (graph : adj_list) (counts : counts_dict) :
  closed graph -> incl (keys graph) (keys counts) ->
  exists order comps,
    sorted_by_count_desc counts (keys graph) = Ok order /\
    Permutation order (keys graph) /\
    descending counts order /\
    get_connected_components_adjacency set_order umis graph counts
    = Ok comps /\
    discovered graph [] order comps /\
    (forall c, In c comps ->
       exists n, In n (keys graph) /\ forall x, In x c <-> reach graph n x) /\
    (forall n, In n (keys graph) -> exists c, In c comps /\ In n c).
Proof.
  intros Hcl Hkeys.
  destruct (get_connected_components_adjacency_spec set_order set_order_perm
              umis graph counts Hcl Hkeys)
    as (order & comps & Hsort & Hperm & Hdesc & Hcomps & Hdisc).
  exists order, comps. split; [exact Hsort|]. split; [exact Hperm|].
  split; [exact Hdesc|]. split; [exact Hcomps|]. split; [exact Hdisc|].
  split.
  - assert (Hord : forall n, In n order -> In n (keys graph)).
    { intros n Hn. eapply Permutation_in; eauto. }
    clear -Hdisc Hord.
    induction Hdisc as [found|found n order comps Hn _ IH
                       |found found' n order c comps Hn Hnd Hc Hf _ IH];
      intros c' Hc'.
    + contradiction.
    + apply IH; [|exact Hc']. intros m Hm. apply Hord. now right.
    + destruct Hc' as [<-|Hc'].
      * exists n. split; [apply Hord; now left | exact Hc].
      * apply IH; [|exact Hc']. intros m Hm. apply Hord. now right.
  - intros n Hn.
    assert (Hno : In n order).
    { eapply Permutation_in; [apply Permutation_sym; exact Hperm | exact Hn]. }
    destruct (discovered_covers graph [] order comps Hdisc n Hno) as [[]|H].
    exact H.
Qed.

End PipelineProperties.

Lemma insertion_order_perm (s : list umi) : Permutation (insertion_order s) s.
Proof. apply Permutation_refl. Qed.

Lemma reverse_order_perm (s : list umi) : Permutation (reverse_order s) s.
Proof. apply Permutation_sym, Permutation_rev. Qed.

Lemma counts_scenario_NoDup : NoDup (keys counts_scenario).
Proof. repeat constructor; simpl; intuition discriminate. Qed.

Lemma clusters_partition_umis_witness :
  exists clusters,
    cluster insertion_order counts_scenario 2 = Ok clusters /\
    NoDup (List.concat clusters) /\
    Permutation (List.concat clusters) (keys counts_scenario) /\
    forall u, In u (keys counts_scenario) ->
      exists i c,
        nth_error clusters i = Some c /\ In u c /\
        forall j c', nth_error clusters j = Some c' -> In u c' -> j = i.
Proof.
  apply (clusters_partition_umis insertion_order insertion_order_perm
           counts_scenario 2 counts_scenario_NoDup).
Defined.


Lemma correction_map_representative_witness :
  exists clusters m,
    cluster insertion_order counts_scenario 2 = Ok clusters /\
    create_map_to_correct_umi clusters = Ok m /\
    forall c, In c clusters ->
      exists r,
        first c = Ok r /\ In r c /\
        (forall y, In y c ->
           lookup y m = Some r /\
           count_of counts_scenario y <= count_of counts_scenario r) /\
        (forall a b, In a c -> In b c ->
           count_of counts_scenario a > count_of counts_scenario b ->
           lookup a m <> Some b).
Proof.
  apply (correction_map_representative insertion_order insertion_order_perm
           counts_scenario 2 counts_scenario_NoDup).
Defined.

(** The end-to-end scenario of the specification. *)
Example cluster_scenario :
  cluster insertion_order counts_scenario 2
  = Ok [["AAAAA"; "AAAAT"]; ["TTTTT"]] /\
  correction_map insertion_order counts_scenario 2
  = Ok [("AAAAA", "AAAAA"); ("AAAAT", "AAAAA"); ("TTTTT", "TTTTT")].
Proof. split; vm_compute; reflexivity. Qed.

Lemma graph_overlap_closed : closed graph_overlap.
Proof.
  intros u v. unfold neighbours, graph_overlap. simpl.
  destruct (String.eqb u "AAAAAA"); [intros [<-|[]]; simpl; tauto|].
  destruct (String.eqb u "TTTTTT"); [intros [<-|[]]; simpl; tauto|].
  destruct (String.eqb u "AAATTT"); intros [].
Qed.

Lemma graph_overlap_keys : incl (keys graph_overlap) (keys counts_overlap).
Proof. intros x. simpl. tauto. Qed.

Lemma components_directed_reachability_witness :
  exists order comps,
    sorted_by_count_desc counts_overlap (keys graph_overlap) = Ok order /\
    Permutation order (keys graph_overlap) /\
    descending counts_overlap order /\
    get_connected_components_adjacency insertion_order (keys counts_overlap)
      graph_overlap counts_overlap = Ok comps /\
    discovered graph_overlap [] order comps /\
    (forall c, In c comps ->
       exists n, In n (keys graph_overlap) /\
                 forall x, In x c <-> reach graph_overlap n x) /\
    (forall n, In n (keys graph_overlap) -> exists c, In c comps /\ In n c).
Proof.
  apply (components_directed_reachability insertion_order insertion_order_perm
           (keys counts_overlap) graph_overlap counts_overlap
           graph_overlap_closed graph_overlap_keys).
Defined.

(** C5 as stated fails on the graph of the counts AAAAAA:5, TTTTTT:5,
    AAATTT:2 at threshold 3: AAATTT is in both components, and AAAAAA and
    TTTTTT, which AAATTT joins, are in different ones. *)
Lemma components_overlap_counterexample :
  get_adj_list_directional (keys counts_overlap) counts_overlap 3
  = Ok graph_overlap /\
  exists comps,
    get_connected_components_adjacency insertion_order (keys counts_overlap)
      graph_overlap counts_overlap = Ok comps /\
    ~ disjoint_components comps /\
    ~ undirected_components graph_overlap comps.
Proof.
  split; [vm_compute; reflexivity|].
  exists [["AAAAAA"; "AAATTT"]; ["TTTTTT"; "AAATTT"]].
  split; [vm_compute; reflexivity|]. split.
  - intros H.
    specialize (H 0%nat 1%nat ["AAAAAA"; "AAATTT"] ["TTTTTT"; "AAATTT"]
                  "AAATTT" eq_refl eq_refl).
    simpl in H. assert (E : 0%nat = 1%nat) by (apply H; tauto). discriminate.
  - intros H.
    assert (Hc : connected graph_overlap "AAAAAA" "TTTTTT").
    { apply connected_bwd with (m := "AAATTT").
      - apply connected_fwd with (m := "AAAAAA"); [constructor|].
        simpl. tauto.
      - simpl. tauto. }
    specialize (H "AAAAAA" "TTTTTT" ["AAAAAA"; "AAATTT"] Hc).
    simpl in H.
    assert (E : "AAAAAA" = "TTTTTT" \/ "AAATTT" = "TTTTTT" \/ False)
      by (apply H; tauto).
    destruct E as [E|[E|[]]]; discriminate.
Qed.

(** ** Batches *)

Lemma chunks_from_concat {A : Type} (n : nat) :
  (0 < n)%nat ->
  forall (fuel : nat) (lst : list A),
    (List.length lst <= fuel)%nat ->
    List.concat (chunks_from fuel lst n) = lst.
Proof.
  intros Hn. induction fuel as [|fuel IH]; intros lst Hlen.
  - destruct lst; [reflexivity | simpl in Hlen; lia].
  - destruct lst as [|x lst]; [reflexivity|].
    change (chunks_from (S fuel) (x :: lst) n)
      with (firstn n (x :: lst) :: chunks_from fuel (skipn n (x :: lst)) n).
    cbn [List.concat]. rewrite IH; [apply firstn_skipn|].
    rewrite length_skipn. lia.
Qed.

(** The batches are the groups, cut into consecutive runs. *)
Lemma chunks_concat {A : Type} (lst : list A) (n : nat) :
  (0 < n)%nat -> List.concat (chunks lst n) = lst.
Proof. intros Hn. now apply chunks_from_concat. Qed.

(** ** Dependence on the order of iteration *)

Lemma lookup_In_NoDup {V : Type} (k : string) (v : V) (d : dict V) :
  NoDup (keys d) -> (lookup k d = Some v <-> In (k, v) d).
Proof.
  induction d as [|[k' v'] d IH]; simpl; intros Hnd.
  - split; [discriminate | contradiction].
  - inversion Hnd as [|? ? Hk Hnd']; subst.
    destruct (String.eqb_spec k k') as [->|Hne].
    + split.
      * intros E. inversion E; subst. now left.
      * intros [E|Hin]; [inversion E; reflexivity|].
        exfalso. apply Hk. eapply in_keys; eauto.
    + rewrite (IH Hnd'). split; [auto|].
      intros [E|Hin]; [inversion E; congruence | exact Hin].
Qed.

Lemma lookup_perm {V : Type} (k : string) (d1 d2 : dict V) :
  NoDup (keys d1) -> Permutation d1 d2 -> lookup k d1 = lookup k d2.
Proof.
  intros Hnd Hperm.
  assert (Hnd2 : NoDup (keys d2)).
  { eapply Permutation_NoDup; [|exact Hnd]. now apply Permutation_map. }
  destruct (lookup k d1) as [v|] eqn:E1.
  - symmetry. apply lookup_In_NoDup; [exact Hnd2|].
    eapply Permutation_in; [exact Hperm|]. now apply lookup_In_NoDup.
  - destruct (lookup k d2) as [v|] eqn:E2; [|reflexivity].
    apply lookup_In_NoDup in E2; [|exact Hnd2].
    apply (Permutation_in _ (Permutation_sym Hperm)) in E2.
    apply lookup_In_NoDup in E2; [|exact Hnd]. congruence.
Qed.

Lemma Forall2_In_l {A B : Type} (R : A -> B -> Prop) (l1 : list A)
    (l2 : list B) (x : A) :
  Forall2 R l1 l2 -> In x l1 -> exists y, In y l2 /\ R x y.
Proof.
  intros H. induction H as [|a b l1 l2 Hab _ IH]; intros Hx.
  - contradiction.
  - destruct Hx as [<-|Hx].
    + exists b. split; [now left | exact Hab].
    + destruct (IH Hx) as (y & Hy & Hxy). exists y. split; [now right | auto].
Qed.

(** A node from which another node is reached has neighbours, so it is a
    key of the graph. *)
Lemma reach_start_key (adj : adj_list) (h n : umi) :
  reach adj h n -> n <> h -> In h (keys adj).
Proof.
  intros Hr. induction Hr as [|m k Hm IH Hk]; intros Hne.
  - contradiction.
  - destruct (string_dec m h) as [->|Hmh]; [|now apply IH].
    apply lookup_in_keys. unfold neighbours in Hk.
    destruct (lookup h adj) as [l|]; [eauto | contradiction].
Qed.

(** A cluster in descending order begins with the member that outranks all
    the others. *)
Lemma first_outranks (counts : counts_dict) (g : list umi) (n : umi) :
  descending counts g -> In n g ->
  (forall t, In t g -> t <> n -> count_of counts t < count_of counts n) ->
  first g = Ok n.
Proof.
  intros Hdesc Hn Hlt. destruct g as [|r g']; [contradiction|].
  destruct (string_dec r n) as [->|Hne]; [reflexivity|].
  pose proof (descending_by_head _ _ _ Hdesc n Hn) as Hle.
  pose proof (Hlt r (or_introl eq_refl) Hne) as Hlt'. simpl in *. lia.
Qed.

(** When a node [n] starts a component, every node that came before it in
    the order is found, and the found nodes are closed under reachability.
    Then, unless a tie decides, [n] has a strictly higher count than every
    other node of its component that is not yet found. *)
Lemma start_outranks (adj : adj_list) (counts : counts_dict)
    (found : list umi) (n : umi) (order : list umi) :
  closed adj -> no_deciding_tie adj counts ->
  (forall x y, In x found -> reach adj x y -> In y found) ->
  (forall h, In h (keys adj) -> In h found \/ In h (n :: order)) ->
  In n (keys adj) -> ~ In n found ->
  descending counts (n :: order) ->
  forall t, reach adj n t -> ~ In t found -> t <> n ->
    count_of counts t < count_of counts n.
Proof.
  intros Hcl Htie Hclosed Hcover Hn Hnf Hdesc t Hr Htf Hne.
  assert (Hrank : forall h, In h (keys adj) -> ~ In h found ->
            count_of counts h <= count_of counts n).
  { intros h Hh Hhf. destruct (Hcover h Hh) as [Hin|Hin]; [contradiction|].
    apply (descending_by_head _ _ _ Hdesc h Hin). }
  assert (Htk : In t (keys adj)) by (eapply reach_closed_keys; eauto).
  pose proof (Hrank t Htk Htf) as Hle.
  destruct (Z.eq_dec (count_of counts t) (count_of counts n)) as [E|E]; [|lia].
  exfalso.
  destruct (Htie n t Hr Hne (eq_sym E)) as (h & Hh & Hlt).
  assert (Hhn : n <> h) by (intros ->; lia).
  assert (Hhk : In h (keys adj)) by (eapply reach_start_key; eauto).
  destruct (in_dec string_dec h found) as [Hhf|Hhf].
  - apply Hnf. eapply Hclosed; eauto.
  - pose proof (Hrank h Hhk Hhf). lia.
Qed.

(** Two runs over the same graph in the same order, each with its own
    iteration order of the sets: unless a tie decides, the clusters of the
    two runs hold the same UMIs and begin with the same UMI, the start node
    of their component. *)
Lemma heads_same (adj : adj_list) (counts : counts_dict) :
  closed adj -> no_deciding_tie adj counts ->
  forall found1 order comps1,
    discovered adj found1 order comps1 ->
    forall found2 comps2 observed1 observed2 groups1 groups2,
      discovered adj found2 order comps2 ->
      grouped counts observed1 comps1 groups1 ->
      grouped counts observed2 comps2 groups2 ->
      (forall x, In x found1 <-> In x found2) ->
      (forall x, In x observed1 <-> In x found1) ->
      (forall x, In x observed2 <-> In x found2) ->
      (forall x y, In x found1 -> reach adj x y -> In y found1) ->
      (forall h, In h (keys adj) -> In h found1 \/ In h order) ->
      incl order (keys adj) ->
      descending counts order ->
      Forall2
        (fun g1 g2 => (forall x, In x g1 <-> In x g2) /\ first g1 = first g2)
        groups1 groups2.
Proof.
  intros Hcl Htie found1 order comps1 H1.
  induction H1 as [found1|found1 n order comps1 Hn1 _ IH
                  |found1 found1' n order c1 comps1 Hn1 Hnd1 Hc1 Hf1 _ IH];
    intros found2 comps2 observed1 observed2 groups1 groups2
           H2 Hgr1 Hgr2 Hfound Hobs1 Hobs2 Hclosed Hcover Hord Hdesc.
  - inversion H2; subst. inversion Hgr1; subst. inversion Hgr2; subst.
    constructor.
  - assert (Hcover' : forall h, In h (keys adj) ->
              In h found1 \/ In h order).
    { intros h Hh. destruct (Hcover h Hh) as [Hin|[<-|Hin]]; auto. }
    assert (Hord' : incl order (keys adj))
      by (intros x Hx; apply Hord; now right).
    inversion Hdesc as [|? ? _ Hdesc']; subst.
    inversion H2 as [|? ? ? ? Hn2 H2'|? ? ? ? ? ? Hn2]; subst.
    + eapply IH; eauto.
    + exfalso. apply Hn2, Hfound, Hn1.
  - inversion H2 as [|? ? ? ? Hn2|? found2' ? ? c2 comps2' Hn2 Hnd2 Hc2 Hf2 H2'];
      subst.
    { exfalso. apply Hn1, Hfound, Hn2. }
    inversion Hgr1 as [|? observed1' ? ? g1 groups1' Hndg1 Hdg1 Hg1 Ho1 Hgr1'];
      subst.
    inversion Hgr2 as [|? observed2' ? ? g2 groups2' Hndg2 Hdg2 Hg2 Ho2 Hgr2'];
      subst.
    assert (Hnk : In n (keys adj)) by (apply Hord; now left).
    assert (Hout : forall t, reach adj n t -> ~ In t found1 -> t <> n ->
              count_of counts t < count_of counts n).
    { apply (start_outranks adj counts found1 n order); assumption. }
    assert (Hset : forall x, In x g1 <-> In x g2).
    { intros x. rewrite Hg1, Hg2, Hc1, Hc2, Hobs1, Hobs2, Hfound. tauto. }
    assert (Hfirst1 : first g1 = Ok n).
    { apply (first_outranks counts g1 n Hdg1).
      - apply Hg1. split; [apply Hc1; constructor|]. rewrite Hobs1. exact Hn1.
      - intros t Ht Hne. apply Hg1 in Ht. destruct Ht as [Ht Hto].
        apply Hout; [now apply Hc1 | now rewrite <- Hobs1 | exact Hne]. }
    assert (Hfirst2 : first g2 = Ok n).
    { apply (first_outranks counts g2 n Hdg2).
      - apply Hg2. split; [apply Hc2; constructor|]. rewrite Hobs2. exact Hn2.
      - intros t Ht Hne. apply Hg2 in Ht. destruct Ht as [Ht Hto].
        apply Hout; [now apply Hc2 | rewrite Hfound, <- Hobs2; exact Hto
                    | exact Hne]. }
    constructor; [split; [exact Hset | congruence]|].
    inversion Hdesc as [|? ? _ Hdesc']; subst.
    eapply IH; eauto.
    + intros x. rewrite Hf1, Hf2, Hfound, Hc1, Hc2. tauto.
    + intros x. rewrite Ho1, Hf1, Hobs1. tauto.
    + intros x. rewrite Ho2, Hf2, Hobs2. tauto.
    + intros x y Hx Hxy. apply Hf1. apply Hf1 in Hx.
      destruct Hx as [Hx|Hx].
      * left. eapply Hclosed; eauto.
      * right. apply Hc1. apply Hc1 in Hx. eapply reach_trans; eauto.
    + intros h Hh. destruct (Hcover h Hh) as [Hin|[<-|Hin]].
      * left. apply Hf1. now left.
      * left. apply Hf1. right. apply Hc1. constructor.
      * now right.
    + intros x Hx. apply Hord. now right.
Qed.

(** C3 (as the code has it).  The order in which a set hands out its
    elements enters where the members of a component are sorted by count:
    members of equal count stay in the order of the set.  It decides a
    representative only when the start node of a component ties with
    another member.  When that is excluded (every UMI that reaches a
    different UMI of the same count is itself reached from a UMI of
    strictly higher count), the correction maps of two runs on the same
    count map are the same mapping: every UMI has the same representative
    in both, whatever the iteration orders.  (Otherwise the order decides;
    see [correction_map_order_counterexample].) *)
Theorem correction_map_order_independent
    (set_order1 set_order2 : list umi -> list umi)
    (counts : counts_dict) (threshold : Z) (adj : adj_list) :
  (forall s, Permutation (set_order1 s) s) ->
  (forall s, Permutation (set_order2 s) s) ->
  NoDup (keys counts) ->
  get_adj_list_directional (keys counts) counts threshold = Ok adj ->
  no_deciding_tie adj counts ->
  exists m1 m2,
    correction_map set_order1 counts threshold = Ok m1 /\
    correction_map set_order2 counts threshold = Ok m2 /\
    forall u, lookup u m1 = lookup u m2.
Proof.
  intros Hso1 Hso2 Hnd Hadj Htie.
  destruct (cluster_spec set_order1 Hso1 counts threshold Hnd)
    as (adj1 & order1 & comps1 & groups1 & Hadj1 & K & Hcl & _ & Hsort1 & Hp
        & Hd & _ & Hdisc1 & _ & Hgr1 & _ & Hcluster1).
  destruct (cluster_spec set_order2 Hso2 counts threshold Hnd)
    as (adj2 & order2 & comps2 & groups2 & Hadj2 & _ & _ & _ & Hsort2 & _
        & _ & _ & Hdisc2 & _ & Hgr2 & _ & Hcluster2).
  assert (adj1 = adj) by congruence. subst adj1.
  assert (adj2 = adj) by congruence. subst adj2.
  assert (order2 = order1) by congruence. subst order2.
  assert (Hheads : Forall2
            (fun g1 g2 =>
               (forall x, In x g1 <-> In x g2) /\ first g1 = first g2)
            groups1 groups2).
  { apply (heads_same adj counts Hcl Htie [] order1 comps1 Hdisc1
             [] comps2 [] [] groups1 groups2 Hdisc2 Hgr1 Hgr2);
      try (intros x; tauto).
    - intros h Hh. right. rewrite K in Hh.
      eapply Permutation_in; [apply Permutation_sym; exact Hp | exact Hh].
    - intros x Hx. rewrite K. eapply Permutation_in; eauto.
    - exact Hd. }
  destruct (grouped_concat counts [] comps1 groups1 Hgr1) as (Hndc1 & _ & _).
  destruct (grouped_concat counts [] comps2 groups2 Hgr2) as (Hndc2 & _ & _).
  destruct (create_map_fold_spec groups1 []) as (m1 & Hm1 & Hspec1).
  destruct (create_map_fold_spec groups2 []) as (m2 & Hm2 & Hspec2).
  destruct (Hspec1 Hndc1) as [Hmap1 Hrest1].
  destruct (Hspec2 Hndc2) as [Hmap2 Hrest2].
  exists m1, m2.
  split; [unfold correction_map; rewrite Hcluster1; exact Hm1|].
  split; [unfold correction_map; rewrite Hcluster2; exact Hm2|].
  intros u.
  destruct (in_dec string_dec u (List.concat groups1)) as [Hin|Hnin].
  - apply in_concat in Hin. destruct Hin as (g1 & Hg1 & Hu1).
    destruct (Forall2_In_l _ _ _ g1 Hheads Hg1) as (g2 & Hg2 & Hset & Hfirst).
    destruct (Hmap1 g1 u Hg1 Hu1) as (r1 & Hr1 & Hl1).
    destruct (Hmap2 g2 u Hg2 (proj1 (Hset u) Hu1)) as (r2 & Hr2 & Hl2).
    unfold umi in *. rewrite Hl1, Hl2. congruence.
  - assert (Hnin2 : ~ In u (List.concat groups2)).
    { intros Hin. apply in_concat in Hin. destruct Hin as (g2 & Hg2 & Hu2).
      assert (Hflip : Forall2
                (fun g2 g1 =>
                   (forall x, In x g1 <-> In x g2) /\ first g1 = first g2)
                groups2 groups1) by (now apply Forall2_flip).
      destruct (Forall2_In_l _ _ _ g2 Hflip Hg2) as (g1 & Hg1 & Hset & _).
      apply Hnin. apply in_concat. exists g1.
      split; [exact Hg1 | now apply Hset]. }
    unfold umi in *. rewrite (Hrest1 u Hnin), (Hrest2 u Hnin2). reflexivity.
Qed.

Lemma counts_minor_tie_NoDup : NoDup (keys counts_minor_tie).
Proof. repeat constructor; simpl; intuition discriminate. Qed.

Lemma graph_minor_tie_closed : closed graph_minor_tie.
Proof.
  intros u v. unfold neighbours, graph_minor_tie. simpl.
  destruct (String.eqb u "AAAAA"); [intros [<-|[<-|[]]]; simpl; tauto|].
  destruct (String.eqb u "AAAAT"); [intros [<-|[]]; simpl; tauto|].
  destruct (String.eqb u "AAAAC"); [intros [<-|[]]; simpl; tauto|].
  intros [].
Qed.

(** The two rare UMIs tie, and both are reached from the frequent one. *)
Lemma graph_minor_tie_no_deciding_tie :
  no_deciding_tie graph_minor_tie counts_minor_tie.
Proof.
  intros u v Hr Hne Hc.
  assert (Hu : In u (keys graph_minor_tie))
    by (eapply reach_start_key; eauto).
  assert (Hv : In v (keys graph_minor_tie)).
  { eapply reach_closed_keys; eauto. apply graph_minor_tie_closed. }
  assert (Hfrom : forall x, x = "AAAAT" \/ x = "AAAAC" ->
            reach graph_minor_tie "AAAAA" x).
  { intros x Hx. apply reach_step with (m := "AAAAA"); [constructor|].
    destruct Hx as [->| ->]; vm_compute; tauto. }
  simpl in Hu, Hv.
  destruct Hu as [<-|[<-|[<-|[]]]]; destruct Hv as [<-|[<-|[<-|[]]]];
    try contradiction; try (vm_compute in Hc; discriminate);
    (exists "AAAAA"; split; [apply Hfrom; tauto | vm_compute; reflexivity]).
Qed.

(** The count map AAAAA:10, AAAAT:1, AAAAC:1: the two rare UMIs tie, yet
    both orders of iteration send every UMI to AAAAA. *)
Lemma correction_map_order_independent_witness :
  exists m1 m2,
    correction_map insertion_order counts_minor_tie 2 = Ok m1 /\
    correction_map reverse_order counts_minor_tie 2 = Ok m2 /\
    forall u, lookup u m1 = lookup u m2.
Proof.
  apply (correction_map_order_independent insertion_order reverse_order
           counts_minor_tie 2 graph_minor_tie
           insertion_order_perm reverse_order_perm counts_minor_tie_NoDup).
  - vm_compute. reflexivity.
  - exact graph_minor_tie_no_deciding_tie.
Defined.

(** The two maps of that example have their keys in different orders and
    are the same mapping. *)
Example correction_map_minor_tie :
  correction_map insertion_order counts_minor_tie 2
  = Ok [("AAAAA", "AAAAA"); ("AAAAT", "AAAAA"); ("AAAAC", "AAAAA")] /\
  correction_map reverse_order counts_minor_tie 2
  = Ok [("AAAAA", "AAAAA"); ("AAAAC", "AAAAA"); ("AAAAT", "AAAAA")].
Proof. split; vm_compute; reflexivity. Qed.

(** C3 as stated fails.  Two UMIs of count 1 within the threshold form one
    component; its members tie, and the order in which the set hands them
    out decides which one becomes the representative.  And two maps with
    the same entries in another key order (equal as Python dictionaries)
    get different corrections when two component starts tie. *)
Lemma correction_map_order_counterexample :
  (forall s, Permutation (insertion_order s) s) /\
  (forall s, Permutation (reverse_order s) s) /\
  correction_map insertion_order counts_tie 3
  = Ok [("AC", "AC"); ("AG", "AC")] /\
  correction_map reverse_order counts_tie 3
  = Ok [("AG", "AG"); ("AC", "AG")] /\
  ~ (forall set_order1 set_order2 counts threshold u,
       (forall s, Permutation (set_order1 s) s) ->
       (forall s, Permutation (set_order2 s) s) ->
       NoDup (keys counts) ->
       forall m1 m2,
         correction_map set_order1 counts threshold = Ok m1 ->
         correction_map set_order2 counts threshold = Ok m2 ->
         lookup u m1 = lookup u m2) /\
  Permutation counts_overlap
    [("TTTTTT", 5); ("AAAAAA", 5); ("AAATTT", 2)] /\
  correction_map insertion_order counts_overlap 3
  = Ok [("AAAAAA", "AAAAAA"); ("AAATTT", "AAAAAA"); ("TTTTTT", "TTTTTT")] /\
  correction_map insertion_order
    [("TTTTTT", 5); ("AAAAAA", 5); ("AAATTT", 2)] 3
  = Ok [("TTTTTT", "TTTTTT"); ("AAATTT", "TTTTTT"); ("AAAAAA", "AAAAAA")].
Proof.
  split; [exact insertion_order_perm|]. split; [exact reverse_order_perm|].
  split; [vm_compute; reflexivity|]. split; [vm_compute; reflexivity|].
  split; [|split; [|split; vm_compute; reflexivity]].
  - intros H.
    specialize (H insertion_order reverse_order counts_tie 3 "AC"
                  insertion_order_perm reverse_order_perm).
    assert (Hnd : NoDup (keys counts_tie))
      by (repeat constructor; simpl; intuition discriminate).
    specialize (H Hnd [("AC", "AC"); ("AG", "AC")]
                  [("AG", "AG"); ("AC", "AG")]).
    assert (E : lookup "AC" [("AC", "AC"); ("AG", "AC")]
                = lookup "AC" [("AG", "AG"); ("AC", "AG")])
      by (apply H; vm_compute; reflexivity).
    vm_compute in E. discriminate.
  - unfold counts_overlap. apply perm_swap.
Qed.

(** * Further properties of the code *)

(** ** Region names *)

(** X1.  For a read at coordinates below [2^52] and a positive interval
    size of at most [2^52] (the range on which the float arithmetic of the
    source is exact), [create_region_name] returns the label
    [<chr>_<lo>_<hi>] whose two bounds are multiples of the interval size,
    have the midpoint [floor((start+end)/2)] of the read between them, and
    are at most one interval apart. *)
Theorem region_contains_midpoint (read : row) (a : args) :
  0 <= start read < 2 ^ 52 -> 0 <= end_ read < 2 ^ 52 ->
  0 < ref_interval a <= 2 ^ 52 ->
  exists lo hi,
    create_region_name read a
    = Ok (chr read ++ "_" ++ string_of_Z lo ++ "_" ++ string_of_Z hi)%string /\
    lo mod ref_interval a = 0 /\ hi mod ref_interval a = 0 /\
    0 <= lo <= (start read + end_ read) / 2 /\
    (start read + end_ read) / 2 <= hi /\
    hi - lo <= ref_interval a.
Proof.
  intros [Hs _] [He _] [Href _].
  set (ref := ref_interval a).
  set (m := (start read + end_ read) / 2).
  assert (Hm : midpoint (start read) (end_ read) = m).
  { unfold midpoint, m. apply Z.quot_div_nonneg; lia. }
  assert (Hm0 : 0 <= m) by (unfold m; apply Z.div_pos; lia).
  exists (interval_start m ref), (interval_end m ref).
  split.
  - unfold create_region_name. fold ref. rewrite Hm.
    replace (ref =? 0) with false by (symmetry; apply Z.eqb_neq; lia).
    reflexivity.
  - unfold interval_start, interval_end.
    pose proof (Z.mul_div_le m ref Href) as H1.
    pose proof (Z.mul_div_le (- m) ref Href) as H2.
    pose proof (Z.div_pos m ref Hm0 Href) as H3.
    split; [apply Z_mod_mult|]. split; [apply Z_mod_mult|].
    split; [nia|]. split; [lia|].
    fold (interval_end m ref). fold (interval_start m ref).
    destruct (Z.eq_dec (m mod ref) 0) as [Hz|Hnz].
    + rewrite interval_start_multiple, interval_end_multiple by lia. lia.
    + rewrite interval_width by lia. lia.
Qed.

(** The example of the specification: a read spanning 1400-1600 gets the
    label with the bounds 1000 and 2000. *)
Lemma region_contains_midpoint_witness :
  exists lo hi,
    create_region_name (mkRow "r1" "NA" "T1" "BC1" "AAAAA" "chr1" 1400 1600)
      example_args
    = Ok ("chr1" ++ "_" ++ string_of_Z lo ++ "_" ++ string_of_Z hi)%string /\
    lo mod 1000 = 0 /\ hi mod 1000 = 0 /\
    0 <= lo <= (1400 + 1600) / 2 /\
    (1400 + 1600) / 2 <= hi /\
    hi - lo <= 1000.
Proof.
  apply (region_contains_midpoint
           (mkRow "r1" "NA" "T1" "BC1" "AAAAA" "chr1" 1400 1600)
           example_args); simpl; lia.
Defined.

(** ** The join of the annotation tables *)

Lemma in_merge_intro {A B : Type} (left : dict A) (right : dict B)
    (k : string) (a : A) (b : B) :
  In (k, a) left -> In (k, b) right -> In (k, (a, b)) (merge left right).
Proof.
  intros Hl Hr. unfold merge. apply in_flat_map. exists (k, a).
  split; [exact Hl|]. simpl. apply in_map_iff. exists (k, b).
  split; [reflexivity|]. apply filter_In. split; [exact Hr|].
  simpl. apply String.eqb_refl.
Qed.

Lemma in_keys_inv {V : Type} (k : string) (d : dict V) :
  In k (keys d) -> exists v, In (k, v) d.
Proof.
  unfold keys. rewrite in_map_iff. intros ([k' v] & <- & H).
  exists v. exact H.
Qed.

(** X2.  The loop of [process_records] goes through a read exactly when all
    three tables have it: the two merges are inner joins on the read
    identifier. *)
Theorem merged_rows_inner_join (ga : dict gene_assign) (t : dict string)
    (tags : dict tag) (rid : string) :
  In rid (map Index (merged_rows ga t tags)) <->
  In rid (keys ga) /\ In rid (keys t) /\ In rid (keys tags).
Proof.
  unfold merged_rows. rewrite map_map. split.
  - rewrite in_map_iff. intros ([k [[g tr] tg]] & <- & Hin). simpl.
    apply in_merge in Hin. destruct Hin as [Hin Htag]. simpl in Hin, Htag.
    apply in_merge in Hin. destruct Hin as [Hg Ht]. simpl in Hg, Ht.
    repeat split; eapply in_keys; eauto.
  - intros (Hg & Ht & Htag).
    apply in_keys_inv in Hg. destruct Hg as [g Hg].
    apply in_keys_inv in Ht. destruct Ht as [tr Ht].
    apply in_keys_inv in Htag. destruct Htag as [tg Htag].
    apply in_map_iff. exists (rid, ((g, tr), tg)). split; [reflexivity|].
    apply in_merge_intro; [|exact Htag]. now apply in_merge_intro.
Qed.

(** ** The cap per group *)

Lemma record_loop_within_cap (ta : option (dict string)) (a : args) :
  forall (rows : list row) (all records : list record) (c : counter),
    mapM (row_record ta a) rows = Ok all ->
    (forall k, counter_get c k
               + Z.of_nat (List.length (filter (in_group k) all))
               <= cell_gene_max_reads a) ->
    exists c',
      foldM (record_step ta a) rows (records, c) = Ok (records ++ all, c').
Proof.
  induction rows as [|r rows IH]; intros all records c Hall Hcap.
  - simpl in Hall. inversion Hall; subst. exists c. simpl.
    rewrite app_nil_r. reflexivity.
  - simpl in Hall.
    apply bind_Ok in Hall. destruct Hall as (rec & Hrow & Hall).
    apply bind_Ok in Hall. destruct Hall as (rest & Hrest & Hall).
    inversion Hall; subst all; clear Hall.
    cbn [foldM]. unfold record_step at 1. rewrite Hrow. cbn [bind].
    rewrite counter_get_incr, key_eqb_refl. fold (group_key rec).
    pose proof (Hcap (group_key rec)) as Hk. simpl in Hk.
    unfold in_group at 1 in Hk. rewrite key_eqb_refl in Hk. simpl in Hk.
    destruct (Z.leb_spec (counter_get c (group_key rec) + 1)
                (cell_gene_max_reads a)) as [Hle|Hgt]; [|lia].
    cbn [bind].
    destruct (IH rest (records ++ [rec])
                (counter_incr c (group_key rec)) Hrest) as (c' & Hfold).
    + intros k. rewrite counter_get_incr. specialize (Hcap k).
      simpl in Hcap. unfold in_group at 1 in Hcap.
      destruct (key_eqb k (group_key rec)) eqn:E.
      * apply key_eqb_eq in E. subst k. rewrite key_eqb_refl in Hcap.
        simpl in Hcap. lia.
      * replace (key_eqb (group_key rec) k) with false in Hcap; [exact Hcap|].
        destruct (key_eqb (group_key rec) k) eqn:E'; [|reflexivity].
        apply key_eqb_eq in E'. subst k. rewrite key_eqb_refl in E.
        discriminate.
    + exists c'. rewrite Hfold, <- app_assoc. reflexivity.
Qed.

(** X3.  When no group has more reads than [cell_gene_max_reads], the loop
    retains every record, in the order of the rows. *)
Theorem cap_not_reached_keeps_all (ta : option (dict string)) (a : args)
    (rows : list row) (all : list record) :
  mapM (row_record ta a) rows = Ok all ->
  (forall k, Z.of_nat (List.length (filter (in_group k) all))
             <= cell_gene_max_reads a) ->
  collect_records ta a rows = Ok all.
Proof.
  intros Hall Hcap.
  destruct (record_loop_within_cap ta a rows all [] empty_counter Hall)
    as (c' & Hfold).
  - intros k. simpl. apply Hcap.
  - unfold collect_records. rewrite Hfold. reflexivity.
Qed.

Lemma cap_not_reached_keeps_all_witness :
  collect_records (Some example_transcripts_without_r2) example_args
    (merged_rows example_gene_assigns example_transcripts_without_r2
       example_tags)
  = Ok [mkRecord "r1" "G1" "T1" "BC1" "AAAAA";
        mkRecord "r3" "G1" "T2" "BC1" "AAAAT";
        mkRecord "r4" "chr1_2000_2000" "T9" "BC1" "AAAAT"].
Proof.
  apply cap_not_reached_keeps_all.
  - vm_compute. reflexivity.
  - intros k. change (cell_gene_max_reads example_args) with 2.
    unfold in_group, group_key. cbn [filter rec_bc rec_gene].
    destruct (key_eqb ("BC1", "G1") k) eqn:E1;
      destruct (key_eqb ("BC1", "chr1_2000_2000") k) eqn:E2;
      cbn [List.length]; try lia.
    apply key_eqb_eq in E1. apply key_eqb_eq in E2. congruence.
Defined.

(** ** Batches *)

Lemma chunks_from_bounds {A : Type} (n : nat) :
  (0 < n)%nat ->
  forall (fuel : nat) (lst : list A),
    Forall (fun c => (0 < List.length c <= n)%nat) (chunks_from fuel lst n).
Proof.
  intros Hn. induction fuel as [|fuel IH]; intros lst.
  - destruct lst; constructor.
  - destruct lst as [|x lst]; [constructor|].
    change (chunks_from (S fuel) (x :: lst) n)
      with (firstn n (x :: lst) :: chunks_from fuel (skipn n (x :: lst)) n).
    constructor; [|apply IH].
    rewrite length_firstn. simpl. lia.
Qed.

(** X4.  For a positive size, [chunks] cuts the list into consecutive
    pieces: put end to end they give the list back, none is empty and none
    is longer than the size. *)
Theorem chunks_partition {A : Type} (lst : list A) (n : nat) :
  (0 < n)%nat ->
  List.concat (chunks lst n) = lst /\
  Forall (fun c => (0 < List.length c <= n)%nat) (chunks lst n).
Proof.
  intros Hn. split.
  - now apply chunks_from_concat.
  - now apply chunks_from_bounds.
Qed.

Lemma chunks_partition_witness :
  List.concat (chunks ["g1"; "g2"; "g3"; "g4"; "g5"] 2)
  = ["g1"; "g2"; "g3"; "g4"; "g5"] /\
  Forall (fun c => (0 < List.length c <= 2)%nat)
    (chunks ["g1"; "g2"; "g3"; "g4"; "g5"] 2).
Proof.
  apply (chunks_partition ["g1"; "g2"; "g3"; "g4"; "g5"] 2). lia.
Defined.

Lemma filter_filter_gene_cell (df : list record) (k k' : string) :
  filter (fun r => String.eqb (gene_cell r) k)
    (filter (fun r => String.eqb (gene_cell r) k') df)
  = if String.eqb k k'
    then filter (fun r => String.eqb (gene_cell r) k) df
    else [].
Proof.
  induction df as [|r df IH]; simpl.
  - destruct (String.eqb k k'); reflexivity.
  - destruct (String.eqb_spec (gene_cell r) k') as [E'|E']; simpl.
    + destruct (String.eqb_spec (gene_cell r) k) as [E|E].
      * rewrite IH. subst k k'. rewrite String.eqb_refl. reflexivity.
      * rewrite IH. destruct (String.eqb_spec k k'); [congruence|].
        reflexivity.
    + rewrite IH. destruct (String.eqb_spec k k') as [->|Hne];
        [|reflexivity].
      destruct (String.eqb_spec (gene_cell r) k'); [contradiction|].
      reflexivity.
Qed.

(** X5.  A batch cut out with [df.loc[gene_cell_chunk]] for keys without
    repetition holds all rows of each of its groups, in their original
    order, and no row of any other group: a group is never split over two
    batches. *)
Theorem loc_keeps_groups_whole (df : list record) (chunk : list string)
    (k : string) :
  NoDup chunk ->
  filter (fun r => String.eqb (gene_cell r) k) (loc df chunk)
  = if mem k chunk
    then filter (fun r => String.eqb (gene_cell r) k) df
    else [].
Proof.
  unfold loc. induction chunk as [|k' chunk IH]; intros Hnd.
  - reflexivity.
  - inversion Hnd as [|? ? Hk' Hnd']; subst.
    simpl. rewrite filter_app, filter_filter_gene_cell, (IH Hnd').
    destruct (String.eqb_spec k k') as [->|Hne]; simpl.
    + apply mem_false in Hk'. rewrite Hk'. apply app_nil_r.
    + reflexivity.
Qed.

Lemma loc_keeps_groups_whole_witness :
  filter (fun r => String.eqb (gene_cell r) "G1:BC1")
    (loc [mkRecord "r1" "G1" "T1" "BC1" "AAAAA";
          mkRecord "r4" "G2" "T9" "BC1" "AAAAT";
          mkRecord "r2" "G1" "T2" "BC1" "AAAAT"] ["G2:BC1"; "G1:BC1"])
  = filter (fun r => String.eqb (gene_cell r) "G1:BC1")
      [mkRecord "r1" "G1" "T1" "BC1" "AAAAA";
       mkRecord "r4" "G2" "T9" "BC1" "AAAAT";
       mkRecord "r2" "G1" "T2" "BC1" "AAAAT"].
Proof.
  apply (loc_keeps_groups_whole
           [mkRecord "r1" "G1" "T1" "BC1" "AAAAA";
            mkRecord "r4" "G2" "T9" "BC1" "AAAAT";
            mkRecord "r2" "G1" "T2" "BC1" "AAAAT"] ["G2:BC1"; "G1:BC1"]
           "G1:BC1").
  repeat constructor; simpl; intuition discriminate.
Defined.

(** ** Breadth-first search *)

Section SearchProperties.

Variable set_order : list umi -> list umi.
Hypothesis set_order_perm : forall s, Permutation (set_order s) s.

(** X6.  On every graph and from every node the search ends: it returns
    the set of the nodes reachable from the node along the neighbour lists
    (each once, the node itself among them), or it raises [KeyError] at a
    reachable node that is not a key of the graph.  On a graph whose
    neighbours are all keys, from a key, it returns. *)
Theorem breadth_first_search_reachable (node : umi) (adj : adj_list) :
  ((exists s,
      breadth_first_search set_order node adj = Ok s /\
      NoDup s /\ In node s /\ forall x, In x s <-> reach adj node x) \/
   (exists k,
      breadth_first_search set_order node adj = Raise (KeyError k) /\
      reach adj node k /\ ~ In k (keys adj))) /\
  (closed adj -> In node (keys adj) ->
   exists s, breadth_first_search set_order node adj = Ok s).
Proof.
  pose proof (breadth_first_search_spec set_order set_order_perm node adj) as H.
  split.
  - destruct (breadth_first_search set_order node adj) as [s|[k| | | |]];
      try contradiction.
    + left. exists s. destruct H as [Hnd Hs].
      split; [reflexivity|]. split; [exact Hnd|]. split; [|exact Hs].
      apply Hs. constructor.
    + right. exists k. tauto.
  - intros Hcl Hnode.
    destruct (breadth_first_search_closed set_order set_order_perm node adj
                Hcl Hnode) as (s & Hs & _).
    exists s. exact Hs.
Qed.

(** X7.  A search started from a node that is not a key of the graph
    raises [KeyError] for that node; started from a key without
    neighbours it returns the node alone. *)
Theorem breadth_first_search_start (node : umi) (adj : adj_list) :
  (~ In node (keys adj) ->
   breadth_first_search set_order node adj = Raise (KeyError node)) /\
  (lookup node adj = Some [] ->
   breadth_first_search set_order node adj = Ok [node]).
Proof.
  assert (E : set_order [node] = [node]).
  { apply Permutation_length_1_inv. apply Permutation_sym.
    apply set_order_perm. }
  unfold breadth_first_search, bfs_fuel.
  change (set_update [] [node]) with [node].
  cbn [bfs_loop]. rewrite E. unfold getitem. split.
  - intros Hnode. apply lookup_None in Hnode. rewrite Hnode. reflexivity.
  - intros Hnode. rewrite Hnode. cbn [bind fold_left].
    simpl. destruct (string_dec node node) as [_|Hne]; [|contradiction].
    destruct (List.length (keys adj ++ List.concat (map snd adj)));
      reflexivity.
Qed.

End SearchProperties.

Lemma breadth_first_search_reachable_witness :
  (exists s,
     breadth_first_search insertion_order "AAAAAA" graph_overlap = Ok s /\
     NoDup s /\ In "AAAAAA" s /\
     forall x, In x s <-> reach graph_overlap "AAAAAA" x) \/
  (exists k,
     breadth_first_search insertion_order "AAAAAA" graph_overlap
     = Raise (KeyError k) /\
     reach graph_overlap "AAAAAA" k /\ ~ In k (keys graph_overlap)).
Proof.
  exact (proj1 (breadth_first_search_reachable insertion_order
                  insertion_order_perm "AAAAAA" graph_overlap)).
Defined.

Lemma breadth_first_search_start_witness :
  breadth_first_search insertion_order "GGGGGG" graph_overlap
  = Raise (KeyError "GGGGGG") /\
  breadth_first_search insertion_order "AAATTT" graph_overlap
  = Ok ["AAATTT"].
Proof.
  destruct (breadth_first_search_start insertion_order insertion_order_perm
              "GGGGGG" graph_overlap) as [H1 _].
  destruct (breadth_first_search_start insertion_order insertion_order_perm
              "AAATTT" graph_overlap) as [_ H2].
  split.
  - apply H1. simpl. intuition discriminate.
  - apply H2. reflexivity.
Defined.

(** ** The direction of the edges *)

(** X8.  When every count is at least 1 (as counts of occurrences are), an
    edge of the adjacency structure never leads to a UMI with a higher
    count, so counts do not increase along a path; two UMIs are neighbours
    of each other only when both have count 1. *)
Theorem directional_edges_descend (counts : counts_dict) (threshold : Z) :
  NoDup (keys counts) ->
  (forall u, In u (keys counts) -> 1 <= count_of counts u) ->
  exists adj,
    get_adj_list_directional (keys counts) counts threshold = Ok adj /\
    (forall u v, In v (neighbours adj u) ->
       count_of counts v <= count_of counts u /\
       (In u (neighbours adj v) ->
        count_of counts u = 1 /\ count_of counts v = 1)) /\
    (forall n x, reach adj n x -> count_of counts x <= count_of counts n).
Proof.
  intros Hnd Hpos.
  destruct (get_adj_list_directional_spec counts threshold Hnd)
    as (adj & E & K & N).
  exists adj. split; [exact E|].
  assert (Hedge : forall u v, In v (neighbours adj u) ->
            count_of counts v <= count_of counts u /\
            (In u (neighbours adj v) ->
             count_of counts u = 1 /\ count_of counts v = 1)).
  { intros u v Huv. apply N in Huv.
    destruct Huv as (Hu & Hv & _ & _ & Hc).
    pose proof (Hpos u Hu). pose proof (Hpos v Hv).
    split; [lia|]. intros Hvu. apply N in Hvu.
    destruct Hvu as (_ & _ & _ & _ & Hc'). lia. }
  split; [exact Hedge|].
  intros n x Hr. induction Hr as [|m k _ IH Hk]; [lia|].
  destruct (Hedge m k Hk) as [Hle _]. lia.
Qed.

Lemma directional_edges_descend_witness :
  exists adj,
    get_adj_list_directional (keys counts_scenario) counts_scenario 2
    = Ok adj /\
    (forall u v, In v (neighbours adj u) ->
       count_of counts_scenario v <= count_of counts_scenario u /\
       (In u (neighbours adj v) ->
        count_of counts_scenario u = 1 /\ count_of counts_scenario v = 1)) /\
    (forall n x, reach adj n x ->
       count_of counts_scenario x <= count_of counts_scenario n).
Proof.
  apply (directional_edges_descend counts_scenario 2 counts_scenario_NoDup).
  intros u Hu. simpl in Hu.
  destruct Hu as [<-|[<-|[<-|[]]]]; vm_compute; discriminate.
Defined.

(** ** Correction Map Builder *)

Lemma keys_fold_dict_set (r : umi) (ys : list umi) (m0 : dict umi) (k : umi) :
  In k (keys (fold_left (fun m y => dict_set y r m) ys m0)) <->
  In k (keys m0) \/ In k ys.
Proof.
  rewrite !lookup_in_keys. setoid_rewrite lookup_fold_dict_set.
  destruct (mem k ys) eqn:E.
  - apply mem_In in E. split; [auto | intros _; eauto].
  - apply mem_false in E. split; [auto | intros [H|H]; [exact H | contradiction]].
Qed.

Lemma create_map_fold_total (cl : list (list umi)) :
  forall m0 : dict umi,
    exists m,
      foldM (fun my_map x =>
               foldM (fun m y => r <- first x ;; Ok (dict_set y r m)) x my_map)
        cl m0 = Ok m /\
      (forall y, In y (keys m) <-> In y (keys m0) \/ In y (List.concat cl)) /\
      (forall y r, lookup y m = Some r ->
         lookup y m0 = Some r \/
         exists c, In c cl /\ In y c /\ first c = Ok r).
Proof.
  induction cl as [|x cl IH]; intros m0.
  - exists m0. split; [reflexivity|]. split; [simpl; tauto | auto].
  - assert (Hx : exists m1,
              foldM (fun m y => r <- first x ;; Ok (dict_set y r m)) x m0
              = Ok m1 /\
              (forall y, In y (keys m1) <-> In y (keys m0) \/ In y x) /\
              (forall y r, lookup y m1 = Some r ->
                 lookup y m0 = Some r \/ (In y x /\ first x = Ok r))).
    { destruct x as [|r x'].
      - exists m0. split; [reflexivity|]. split; [simpl; tauto | auto].
      - eexists. split; [apply (create_map_inner r x')|]. split.
        + intros y. apply keys_fold_dict_set.
        + intros y r'. rewrite lookup_fold_dict_set.
          destruct (mem y (r :: x')) eqn:E.
          * apply mem_In in E. intros H. inversion H; subst. auto.
          * auto. }
    destruct Hx as (m1 & Hm1 & Hk1 & Hv1).
    destruct (IH m1) as (m & Hm & Hk & Hv).
    exists m. split; [cbn [foldM]; unfold umi in *; rewrite Hm1; exact Hm|].
    split.
    + intros y. rewrite Hk, Hk1. simpl. rewrite in_app_iff. tauto.
    + intros y r Hl. destruct (Hv y r Hl) as [H|(c & Hc & Hy & Hr)].
      * destruct (Hv1 y r H) as [H'|[Hy Hr]]; [now left|].
        right. exists x. split; [now left | auto].
      * right. exists c. split; [now right | auto].
Qed.

(** X9.  [create_map_to_correct_umi] returns a map for every list of
    clusters, also when a cluster is empty; its keys are exactly the UMIs
    that occur in the clusters, and every UMI is mapped to the first
    element of a cluster that holds it. *)
Theorem create_map_to_correct_umi_total (cluster_list : list (list umi)) :
  exists m,
    create_map_to_correct_umi cluster_list = Ok m /\
    (forall y, In y (keys m) <-> In y (List.concat cluster_list)) /\
    (forall y r, lookup y m = Some r ->
       exists c, In c cluster_list /\ In y c /\ first c = Ok r).
Proof.
  destruct (create_map_fold_total cluster_list []) as (m & Hm & Hk & Hv).
  exists m. split; [exact Hm|]. split.
  - intros y. rewrite Hk. simpl. tauto.
  - intros y r Hl. destruct (Hv y r Hl) as [H|H]; [discriminate | exact H].
Qed.

(** ** What a correction can and cannot do *)

Lemma Forall2_In_r {A B : Type} (R : A -> B -> Prop) (l1 : list A)
    (l2 : list B) (y : B) :
  Forall2 R l1 l2 -> In y l2 -> exists x, In x l1 /\ R x y.
Proof.
  intros H. induction H as [|a b l1 l2 Hab _ IH]; intros Hy.
  - contradiction.
  - destruct Hy as [<-|Hy].
    + exists a. split; [now left | exact Hab].
    + destruct (IH Hy) as (x & Hx & Hxy). exists x. split; [now right | auto].
Qed.

Lemma NoDup_concat_In {A : Type} (l : list (list A)) (c : list A) :
  NoDup (List.concat l) -> In c l -> NoDup c.
Proof.
  induction l as [|x l IH]; simpl; [tauto|].
  intros Hnd [<-|Hc].
  - eapply NoDup_app_remove_r; eauto.
  - apply IH; [|exact Hc]. eapply NoDup_app_remove_l; eauto.
Qed.

Lemma discovered_starts (adj : adj_list) (found order : list umi)
    (comps : list (list umi)) :
  discovered adj found order comps ->
  forall c, In c comps ->
    exists n, In n order /\ forall x, In x c <-> reach adj n x.
Proof.
  intros H. induction H as [found|found n order comps Hn _ IH
                           |found found' n order c comps Hn Hnd Hc Hf _ IH];
    intros c' Hc'.
  - contradiction.
  - destruct (IH c' Hc') as (m & Hm & Hx). exists m. split; [now right | auto].
  - destruct Hc' as [<-|Hc'].
    + exists n. split; [now left | exact Hc].
    + destruct (IH c' Hc') as (m & Hm & Hx).
      exists m. split; [now right | auto].
Qed.

Lemma connected_trans (adj : adj_list) (a b c : umi) :
  connected adj a b -> connected adj b c -> connected adj a c.
Proof.
  intros Hab Hbc. induction Hbc as [|m k _ IH Hk|m k _ IH Hk].
  - exact Hab.
  - eapply connected_fwd; eauto.
  - eapply connected_bwd; eauto.
Qed.

Lemma connected_sym (adj : adj_list) (a b : umi) :
  connected adj a b -> connected adj b a.
Proof.
  intros H. induction H as [|m k _ IH Hk|m k _ IH Hk].
  - constructor.
  - apply connected_trans with (b := m); [|exact IH].
    apply connected_bwd with (m := k); [constructor | exact Hk].
  - apply connected_trans with (b := m); [|exact IH].
    apply connected_fwd with (m := k); [constructor | exact Hk].
Qed.

Lemma reach_connected (adj : adj_list) (n x : umi) :
  reach adj n x -> connected adj n x.
Proof.
  intros H. induction H as [|m k _ IH Hk]; [constructor|].
  eapply connected_fwd; eauto.
Qed.

Section CorrectionProperties.

Variable set_order : list umi -> list umi.
Hypothesis set_order_perm : forall s, Permutation (set_order s) s.

(** The correction of one count map: every UMI of the map is in a cluster,
    all of whose members are reachable from one start node, and is mapped
    to the first member of that cluster. *)
Lemma correction_spec (counts : counts_dict) (threshold : Z) :
  NoDup (keys counts) ->
  exists adj clusters m,
    get_adj_list_directional (keys counts) counts threshold = Ok adj /\
    (forall u v, In v (neighbours adj u) <->
                 In u (keys counts) /\ In v (keys counts) /\ v <> u /\
                 edge counts threshold u v) /\
    cluster set_order counts threshold = Ok clusters /\
    correction_map set_order counts threshold = Ok m /\
    (forall y, In y (keys m) <-> In y (keys counts)) /\
    forall y, In y (keys counts) ->
      exists g n r,
        In g clusters /\ In y g /\ NoDup g /\ descending counts g /\
        first g = Ok r /\ In r g /\
        lookup y m = Some r /\ lookup r m = Some r /\
        In n (keys counts) /\ forall x, In x g -> reach adj n x.
Proof.
  intros Hnd.
  destruct (cluster_spec set_order set_order_perm counts threshold Hnd)
    as (adj & order & comps & groups & Hadj & K & Hcl & N & _ & Hperm & _ & _
        & Hdisc & _ & Hgr & Hne & Hcluster).
  destruct (grouped_concat counts [] comps groups Hgr) as (Hndc & Hin & Hall).
  destruct (create_map_fold_spec groups []) as (m & Hm & Hspec).
  destruct (Hspec Hndc) as [Hmap _].
  destruct (create_map_fold_total groups []) as (m' & Hm' & Hk & _).
  assert (m' = m) by congruence. subst m'.
  assert (Hcover : forall y, In y (List.concat groups) <-> In y (keys counts)).
  { intros y. rewrite Hin. split.
    - intros [(c & Hc & Hy) _]. rewrite <- K.
      assert (Hord : incl order (keys adj)).
      { intros x Hx. rewrite K. eapply Permutation_in; eauto. }
      apply (discovered_within adj [] order comps Hcl Hord Hdisc c Hc).
      exact Hy.
    - intros Hy. split; [|tauto].
      assert (Hyo : In y order).
      { eapply Permutation_in; [apply Permutation_sym; exact Hperm | exact Hy]. }
      destruct (discovered_covers adj [] order comps Hdisc y Hyo) as [[]|H].
      exact H. }
  exists adj, groups, m. split; [exact Hadj|]. split; [exact N|].
  split; [exact Hcluster|].
  split; [unfold correction_map; rewrite Hcluster; exact Hm|].
  split; [intros y; rewrite Hk, <- Hcover; simpl; tauto|].
  intros y Hy. apply Hcover in Hy. apply in_concat in Hy.
  destruct Hy as (g & Hg & Hy).
  destruct (Forall2_In_r _ _ _ g Hall Hg) as (c & Hc & Hdesc & Hgc).
  destruct (discovered_starts adj [] order comps Hdisc c Hc) as (n & Hn & Hreach).
  rewrite Forall_forall in Hne.
  destruct g as [|r g'] eqn:Eg; [exfalso; now apply (Hne [])|].
  rewrite <- Eg in *.
  assert (Hr : In r g) by (rewrite Eg; now left).
  assert (Hfirst : first g = Ok r) by (rewrite Eg; reflexivity).
  exists g, n, r.
  split; [exact Hg|]. split; [exact Hy|].
  split; [exact (NoDup_concat_In groups g Hndc Hg)|]. split; [exact Hdesc|].
  split; [exact Hfirst|]. split; [exact Hr|].
  assert (Hl : forall z, In z g -> lookup z m = Some r).
  { intros z Hz. destruct (Hmap g z Hg Hz) as (r' & Hr' & Hl).
    rewrite Hfirst in Hr'. inversion Hr'; subst. exact Hl. }
  split; [now apply Hl|]. split; [now apply Hl|].
  split; [eapply Permutation_in; eauto|].
  intros x Hx. apply Hreach, Hgc, Hx.
Qed.

(** X10.  The correction map of a count map has exactly the UMIs of the
    count map as keys; every UMI is sent to a UMI of the map that is its
    own representative and has at least its count.  Correcting a column of
    UMIs twice is the same as correcting it once. *)
Theorem correction_idempotent (counts : counts_dict) (threshold : Z) :
  NoDup (keys counts) ->
  exists m,
    correction_map set_order counts threshold = Ok m /\
    (forall y, In y (keys m) <-> In y (keys counts)) /\
    (forall y, In y (keys counts) ->
       exists r,
         lookup y m = Some r /\ In r (keys counts) /\
         lookup r m = Some r /\ count_of counts y <= count_of counts r) /\
    (forall umis, incl umis (keys counts) ->
       replace m (replace m umis) = replace m umis).
Proof.
  intros Hnd.
  destruct (correction_spec counts threshold Hnd)
    as (adj & clusters & m & _ & _ & _ & Hm & Hk & Hy).
  assert (Hrep : forall y, In y (keys counts) ->
            exists r,
              lookup y m = Some r /\ In r (keys counts) /\
              lookup r m = Some r /\ count_of counts y <= count_of counts r).
  { intros y Hyk.
    destruct (Hy y Hyk) as (g & n & r & Hg & Hyg & _ & Hdesc & Hfirst & Hr
                            & Hl & Hlr & _ & _).
    exists r. split; [exact Hl|]. split.
    - apply Hk. apply lookup_in_keys. eauto.
    - split; [exact Hlr|].
      destruct g as [|r' g']; [contradiction|].
      simpl in Hfirst. inversion Hfirst; subst.
      apply (descending_by_head _ _ _ Hdesc y Hyg). }
  exists m. split; [exact Hm|]. split; [exact Hk|]. split; [exact Hrep|].
  intros umis Humis. unfold replace. rewrite map_map.
  apply map_ext_in. intros u Hu.
  destruct (Hrep u (Humis u Hu)) as (r & Hl & _ & Hlr & _).
  unfold umi in *. rewrite Hl, Hlr. reflexivity.
Qed.

(** X11.  A UMI whose count is strictly above the count of every other UMI
    of the map is never changed. *)
Theorem most_abundant_unchanged (counts : counts_dict) (threshold : Z)
    (u : umi) :
  NoDup (keys counts) ->
  In u (keys counts) ->
  (forall v, In v (keys counts) -> v <> u ->
             count_of counts v < count_of counts u) ->
  exists m,
    correction_map set_order counts threshold = Ok m /\
    lookup u m = Some u.
Proof.
  intros Hnd Hu Hmax.
  destruct (correction_spec counts threshold Hnd)
    as (adj & clusters & m & _ & _ & _ & Hm & Hk & Hy).
  exists m. split; [exact Hm|].
  destruct (Hy u Hu) as (g & n & r & Hg & Hug & _ & Hdesc & Hfirst & Hr
                         & Hl & Hlr & _ & _).
  destruct (string_dec r u) as [->|Hne]; [exact Hl|].
  exfalso.
  assert (Hrk : In r (keys counts)).
  { apply Hk. apply lookup_in_keys. eauto. }
  pose proof (Hmax r Hrk Hne) as Hlt.
  destruct g as [|r' g']; [contradiction|].
  simpl in Hfirst. inversion Hfirst; subst.
  pose proof (descending_by_head _ _ _ Hdesc u Hug). lia.
Qed.

(** X12.  A UMI whose edit distance to every other UMI of the map is above
    the threshold forms a cluster of its own and is never changed. *)
Theorem isolated_umi_unchanged (counts : counts_dict) (threshold : Z)
    (u : umi) :
  NoDup (keys counts) ->
  In u (keys counts) ->
  (forall v, In v (keys counts) -> v <> u ->
             threshold < Z.of_nat (edit_distance u v)) ->
  exists clusters m,
    cluster set_order counts threshold = Ok clusters /\
    correction_map set_order counts threshold = Ok m /\
    In [u] clusters /\ lookup u m = Some u.
Proof.
  intros Hnd Hu Hfar.
  destruct (correction_spec counts threshold Hnd)
    as (adj & clusters & m & _ & N & Hcluster & Hm & Hk & Hy).
  assert (Hout : forall x, reach adj u x -> x = u).
  { intros x Hr. induction Hr as [|w k _ IH Hk']; [reflexivity|].
    subst w. apply N in Hk'. destruct Hk' as (_ & Hkk & Hne & Hd & _).
    pose proof (Hfar k Hkk Hne). lia. }
  assert (Hinto : forall n, reach adj n u -> n = u).
  { intros n Hr. inversion Hr as [|w k Hw Hk']; [reflexivity|]. subst.
    apply N in Hk'. destruct Hk' as (Hw' & _ & Hne & Hd & _).
    pose proof (Hfar w Hw' (fun E => Hne (eq_sym E))) as Hlt.
    rewrite edit_distance_sym in Hlt. lia. }
  destruct (Hy u Hu) as (g & n & r & Hg & Hug & Hndg & _ & _ & _
                         & Hl & _ & _ & Hreach).
  assert (n = u) by (apply Hinto, Hreach, Hug). subst n.
  assert (Hall : forall x, In x g -> x = u)
    by (intros x Hx; apply Hout, Hreach, Hx).
  assert (Eg : g = [u]).
  { destruct g as [|a g']; [contradiction|].
    assert (a = u) by (apply Hall; now left). subst a.
    destruct g' as [|b g'']; [reflexivity|].
    assert (b = u) by (apply Hall; right; now left). subst b.
    inversion Hndg as [|? ? Hnin _]; subst. exfalso. apply Hnin. now left. }
  subst g. exists clusters, m. split; [exact Hcluster|]. split; [exact Hm|].
  split; [exact Hg|].
  destruct (Hy u Hu) as (g & n & r' & Hg' & Hug' & _ & _ & Hfirst' & Hr'
                         & Hl' & _ & _ & Hreach').
  assert (n = u) by (apply Hinto, Hreach', Hug'). subst n.
  assert (r' = u) by (apply Hout, Hreach', Hr'). subst r'. exact Hl'.
Qed.

(** X13.  A UMI and the UMI it is corrected to are joined by a chain of
    edges of the adjacency structure (taken in either direction), that is,
    by a chain of UMIs of the map in which each is within the threshold of
    the next. *)
Theorem corrected_umi_connected (counts : counts_dict) (threshold : Z) :
  NoDup (keys counts) ->
  exists adj m,
    get_adj_list_directional (keys counts) counts threshold = Ok adj /\
    correction_map set_order counts threshold = Ok m /\
    (forall u v, In v (neighbours adj u) ->
       Z.of_nat (edit_distance u v) <= threshold) /\
    forall y r, lookup y m = Some r -> connected adj y r.
Proof.
  intros Hnd.
  destruct (correction_spec counts threshold Hnd)
    as (adj & clusters & m & Hadj & N & _ & Hm & Hk & Hy).
  exists adj, m. split; [exact Hadj|]. split; [exact Hm|]. split.
  - intros u v Huv. apply N in Huv. unfold edge in Huv. tauto.
  - intros y r Hl.
    assert (Hyk : In y (keys counts)).
    { apply Hk. apply lookup_in_keys. eauto. }
    destruct (Hy y Hyk) as (g & n & r' & _ & Hyg & _ & _ & _ & Hr
                            & Hl' & _ & _ & Hreach).
    assert (r' = r) by congruence. subst r'.
    apply connected_trans with (b := n).
    + apply connected_sym, reach_connected, Hreach, Hyg.
    + apply reach_connected, Hreach, Hr.
Qed.

End CorrectionProperties.

Lemma correction_idempotent_witness :
  exists m,
    correction_map insertion_order counts_scenario 2 = Ok m /\
    (forall y, In y (keys m) <-> In y (keys counts_scenario)) /\
    (forall y, In y (keys counts_scenario) ->
       exists r,
         lookup y m = Some r /\ In r (keys counts_scenario) /\
         lookup r m = Some r /\
         count_of counts_scenario y <= count_of counts_scenario r) /\
    (forall umis, incl umis (keys counts_scenario) ->
       replace m (replace m umis) = replace m umis).
Proof.
  apply (correction_idempotent insertion_order insertion_order_perm
           counts_scenario 2 counts_scenario_NoDup).
Defined.

Lemma most_abundant_unchanged_witness :
  exists m,
    correction_map insertion_order counts_scenario 2 = Ok m /\
    lookup "AAAAA" m = Some "AAAAA".
Proof.
  apply (most_abundant_unchanged insertion_order insertion_order_perm
           counts_scenario 2 "AAAAA" counts_scenario_NoDup).
  - simpl. tauto.
  - intros v Hv Hne. simpl in Hv.
    destruct Hv as [<-|[<-|[<-|[]]]];
      [contradiction | vm_compute; reflexivity | vm_compute; reflexivity].
Defined.

Lemma isolated_umi_unchanged_witness :
  exists clusters m,
    cluster insertion_order counts_scenario 2 = Ok clusters /\
    correction_map insertion_order counts_scenario 2 = Ok m /\
    In ["TTTTT"] clusters /\ lookup "TTTTT" m = Some "TTTTT".
Proof.
  apply (isolated_umi_unchanged insertion_order insertion_order_perm
           counts_scenario 2 "TTTTT" counts_scenario_NoDup).
  - simpl. tauto.
  - intros v Hv Hne. simpl in Hv.
    destruct Hv as [<-|[<-|[<-|[]]]];
      [vm_compute; reflexivity | vm_compute; reflexivity | contradiction].
Defined.

Lemma corrected_umi_connected_witness :
  exists adj m,
    get_adj_list_directional (keys counts_scenario) counts_scenario 2
    = Ok adj /\
    correction_map insertion_order counts_scenario 2 = Ok m /\
    (forall u v, In v (neighbours adj u) ->
       Z.of_nat (edit_distance u v) <= 2) /\
    forall y r, lookup y m = Some r -> connected adj y r.
Proof.
  apply (corrected_umi_connected insertion_order insertion_order_perm
           counts_scenario 2 counts_scenario_NoDup).
Defined.

(** ** Counting the UMIs of a group *)

Lemma keys_dict_set {V : Type} (u k : string) (v : V) (d : dict V) :
  In k (keys (dict_set u v d)) <-> k = u \/ In k (keys d).
Proof.
  rewrite !lookup_in_keys. setoid_rewrite lookup_dict_set.
  destruct (String.eqb_spec k u) as [->|Hne].
  - split; [auto | intros _; eauto].
  - split; [auto | intros [H|H]; [contradiction | exact H]].
Qed.

Lemma NoDup_keys_dict_set {V : Type} (u : string) (v : V) (d : dict V) :
  NoDup (keys d) -> NoDup (keys (dict_set u v d)).
Proof.
  intros Hnd. destruct (in_dec string_dec u (keys d)) as [Hin|Hnin].
  - now rewrite keys_dict_set_in.
  - rewrite dict_set_new by exact Hnin. unfold keys. rewrite map_app.
    simpl. now apply NoDup_snoc.
Qed.

Lemma count_of_dict_set (u k : umi) (v : Z) (d : counts_dict) :
  count_of (dict_set u v d) k = if String.eqb k u then v else count_of d k.
Proof.
  unfold count_of. rewrite lookup_dict_set.
  destruct (String.eqb k u); reflexivity.
Qed.

Lemma counting_fold (l : list umi) :
  forall d : counts_dict,
    NoDup (keys d) ->
    let d' :=
      fold_left
        (fun d u =>
           dict_set u (match lookup u d with Some c => c + 1 | None => 1 end) d)
        l d in
    NoDup (keys d') /\
    (forall k, In k (keys d') <-> In k (keys d) \/ In k l) /\
    (forall k, count_of d' k
               = count_of d k + Z.of_nat (count_occ string_dec l k)).
Proof.
  induction l as [|u l IH]; intros d Hnd; simpl.
  - split; [exact Hnd|]. split; [tauto | intros k; lia].
  - destruct (IH (dict_set u
                    (match lookup u d with Some c => c + 1 | None => 1 end) d)
                (NoDup_keys_dict_set _ _ _ Hnd)) as (Hnd' & Hk & Hc).
    split; [exact Hnd'|]. split.
    + intros k. rewrite Hk, keys_dict_set.
      split; [intros [[->|H]|H]; auto | intros [H|[->|H]]; auto].
    + intros k. rewrite Hc, count_of_dict_set.
      destruct (string_dec u k) as [->|Hne].
      * rewrite String.eqb_refl. unfold count_of.
        destruct (lookup k d); lia.
      * destruct (String.eqb_spec k u); [congruence | lia].
Qed.

(** The occurrences of a column of UMIs: the keys are the UMIs of the
    column, each once, with the number of times each occurs. *)
Lemma occurrences_spec (umis : list umi) :
  NoDup (keys (occurrences umis)) /\
  (forall k, In k (keys (occurrences umis)) <-> In k umis) /\
  (forall k, count_of (occurrences umis) k
             = Z.of_nat (count_occ string_dec umis k)).
Proof.
  unfold occurrences.
  destruct (counting_fold umis [] (NoDup_nil _)) as (Hnd & Hk & Hc).
  split; [exact Hnd|]. split.
  - intros k. rewrite Hk. simpl. tauto.
  - intros k. rewrite Hc. reflexivity.
Qed.

Section GroupCorrection.

Variable set_order : list umi -> list umi.
Hypothesis set_order_perm : forall s, Permutation (set_order s) s.

Variable sort_values : counts_dict -> counts_dict.
Hypothesis sort_values_perm : forall d, Permutation (sort_values d) d.

(** The count map of a column of UMIs, whatever order the sort gives to its
    keys: the keys are the UMIs of the column, each once, with the number
    of times each occurs. *)
Lemma value_counts_spec (umis : list umi) :
  NoDup (keys (value_counts sort_values umis)) /\
  (forall k, In k (keys (value_counts sort_values umis)) <-> In k umis) /\
  (forall k, count_of (value_counts sort_values umis) k
             = Z.of_nat (count_occ string_dec umis k)).
Proof.
  unfold value_counts.
  destruct (occurrences_spec umis) as (Hnd & Hk & Hc).
  set (d := occurrences umis) in *.
  assert (Hperm : Permutation (sort_values d) d) by apply sort_values_perm.
  assert (Hkeys : Permutation (keys (sort_values d)) (keys d))
    by (now apply Permutation_map).
  split; [eapply Permutation_NoDup; [apply Permutation_sym|]; eauto|].
  split.
  - intros k. rewrite <- Hk. split; apply Permutation_in;
      [exact Hkeys | apply Permutation_sym; exact Hkeys].
  - intros k. rewrite <- Hc. unfold count_of.
    rewrite (lookup_perm k d (sort_values d) Hnd (Permutation_sym Hperm)).
    reflexivity.
Qed.

(** [correct_umis] on a column: the map it applies. *)
Lemma correct_umis_spec (umis : list umi) :
  exists m,
    correction_map set_order (value_counts sort_values umis) 3 = Ok m /\
    correct_umis set_order sort_values umis = Ok (replace m umis) /\
    forall u, In u umis ->
      exists r,
        lookup u m = Some r /\ In r umis /\ lookup r m = Some r /\
        (count_occ string_dec umis u <= count_occ string_dec umis r)%nat.
Proof.
  destruct (value_counts_spec umis) as (Hnd & Hk & Hc).
  destruct (correction_spec set_order set_order_perm
              (value_counts sort_values umis) 3 Hnd)
    as (adj & clusters & m & _ & _ & Hcluster & Hm & Hkm & Hy).
  exists m. split; [exact Hm|]. split.
  - unfold correct_umis. rewrite Hcluster. cbn [bind].
    unfold correction_map in Hm. rewrite Hcluster in Hm. cbn [bind] in Hm.
    rewrite Hm. reflexivity.
  - intros u Hu.
    destruct (Hy u (proj2 (Hk u) Hu))
      as (g & n & r & _ & Hug & _ & Hdesc & Hfirst & Hr & Hl & Hlr & _ & _).
    exists r. split; [exact Hl|]. split.
    + apply Hk, Hkm. apply lookup_in_keys. eauto.
    + split; [exact Hlr|].
      destruct g as [|r' g']; [contradiction|].
      simpl in Hfirst. inversion Hfirst; subst.
      pose proof (descending_by_head _ _ _ Hdesc u Hug) as Hle.
      simpl in Hle. rewrite !Hc in Hle. lia.
Qed.

(** X14.  [correct_umis] returns for every column of UMIs a column of the
    same length; each corrected UMI is one of the UMIs of the column and
    occurs in it at least as often as the UMI it replaces.  This holds
    whatever order [value_counts] gives to the UMIs of equal frequency. *)
Theorem correct_umis_total (umis : list umi) :
  exists corrected,
    correct_umis set_order sort_values umis = Ok corrected /\
    List.length corrected = List.length umis /\
    Forall2
      (fun u c =>
         In c umis /\
         (count_occ string_dec umis u <= count_occ string_dec umis c)%nat)
      umis corrected.
Proof.
  destruct (correct_umis_spec umis) as (m & _ & Hcorrect & Hrep).
  exists (replace m umis). split; [exact Hcorrect|].
  unfold replace. split; [apply length_map|].
  assert (Hall : forall l, incl l umis ->
            Forall2
              (fun u c =>
                 In c umis /\
                 (count_occ string_dec umis u
                  <= count_occ string_dec umis c)%nat)
              l (map (fun u => match lookup u m with
                               | Some r => r
                               | None => u
                               end) l)).
  { induction l as [|u l IH]; intros Hl; simpl; constructor.
    - destruct (Hrep u (Hl u (or_introl eq_refl))) as (r & Hlr & Hr & _ & Hc).
      unfold umi in *. rewrite Hlr. auto.
    - apply IH. intros x Hx. apply Hl. now right. }
  apply Hall. apply incl_refl.
Qed.

Lemma item_app_length {A : Type} (l1 l2 : list A) (x : A) :
  item (l1 ++ x :: l2) (List.length l1) = Ok x.
Proof.
  unfold item. rewrite nth_error_app2 by lia.
  rewrite Nat.sub_diag. reflexivity.
Qed.

Lemma groupby_transform_spec (df : list record) :
  forall before rest,
    df = before ++ rest ->
    exists rows,
      groupby_transform (correct_umis set_order sort_values) df before rest
      = Ok rows /\
      map fst rows = rest /\
      forall r c, In (r, c) rows ->
        exists m,
          correction_map set_order
            (value_counts sort_values
               (map rec_umi
                  (filter (fun x => String.eqb (gene_cell x) (gene_cell r))
                     df))) 3 = Ok m /\
          lookup (rec_umi r) m = Some c.
Proof.
  intros before rest. revert before.
  induction rest as [|r rest IH]; intros before Hdf.
  - exists []. split; [reflexivity|]. split; [reflexivity | contradiction].
  - cbn [groupby_transform].
    set (same := fun x => String.eqb (gene_cell x) (gene_cell r)).
    destruct (correct_umis_spec (map rec_umi (filter same df)))
      as (m & Hm & Hcorrect & Hrep).
    rewrite Hcorrect. cbn [bind].
    assert (Hsplit : filter same df
                     = filter same before ++ r :: filter same rest).
    { rewrite Hdf, filter_app. simpl. unfold same at 2.
      rewrite String.eqb_refl. reflexivity. }
    assert (Hr : In (rec_umi r) (map rec_umi (filter same df))).
    { apply in_map. rewrite Hsplit. apply in_or_app. right. now left. }
    destruct (Hrep (rec_umi r) Hr) as (c & Hl & _).
    assert (Hitem : item (replace m (map rec_umi (filter same df)))
                      (List.length (filter same before)) = Ok c).
    { rewrite Hsplit. unfold replace. rewrite !map_app. cbn [map].
      match goal with
      | |- item (?l1 ++ ?x :: ?l2) _ = _ =>
          replace (List.length (filter same before)) with (List.length l1)
            by (rewrite !length_map; reflexivity);
          rewrite (item_app_length l1 l2 x)
      end.
      unfold umi in *. rewrite Hl. reflexivity. }
    rewrite Hitem. cbn [bind].
    destruct (IH (before ++ [r])) as (rows & Hrows & Hfst & Hin).
    { rewrite Hdf, <- app_assoc. reflexivity. }
    rewrite Hrows. cbn [bind].
    exists ((r, c) :: rows). split; [reflexivity|]. split.
    + simpl. now rewrite Hfst.
    + intros r' c' [E|Hrc].
      * inversion E; subst. exists m. split; [exact Hm | exact Hl].
      * now apply Hin.
Qed.

(** X15.  [run_groupby] returns for every batch: it keeps the rows and
    their order, and the corrected UMI of a row is the representative that
    the correction map of the count map of the row's own group (the rows of
    the batch with the same [gene_cell]) gives to the row's UMI; the other
    groups of the batch have no part in it.  The count map is the one
    [value_counts] returns, in the key order its sort gives: the statement
    holds for every such order ([sort_values] is any function that returns
    the entries it is given in some order, so in particular any order that
    is descending by count, however ties are placed). *)
Theorem run_groupby_per_group (df : list record) :
  exists rows,
    run_groupby set_order sort_values df = Ok (frame_of_corrected rows) /\
    map fst rows = df /\
    forall r c, In (r, c) rows ->
      exists m,
        correction_map set_order
          (value_counts sort_values
             (map rec_umi
                (filter (fun x => String.eqb (gene_cell x) (gene_cell r))
                   df))) 3 = Ok m /\
        lookup (rec_umi r) m = Some c.
Proof.
  destruct (groupby_transform_spec df [] df eq_refl)
    as (rows & Hrows & Hfst & Hin).
  exists rows. split; [|split; [exact Hfst | exact Hin]].
  unfold run_groupby. rewrite Hrows. reflexivity.
Qed.

End GroupCorrection.

Lemma correct_umis_total_witness :
  exists corrected,
    correct_umis insertion_order sort_desc
      ["AAAAT"; "AAAAA"; "AAAAA"; "TTTTT"]
    = Ok corrected /\
    List.length corrected
    = List.length ["AAAAT"; "AAAAA"; "AAAAA"; "TTTTT"] /\
    Forall2
      (fun u c =>
         In c ["AAAAT"; "AAAAA"; "AAAAA"; "TTTTT"] /\
         (count_occ string_dec ["AAAAT"; "AAAAA"; "AAAAA"; "TTTTT"] u
          <= count_occ string_dec ["AAAAT"; "AAAAA"; "AAAAA"; "TTTTT"] c)%nat)
      ["AAAAT"; "AAAAA"; "AAAAA"; "TTTTT"] corrected.
Proof.
  apply (correct_umis_total insertion_order insertion_order_perm
           sort_desc (@sort_desc_perm string)
           ["AAAAT"; "AAAAA"; "AAAAA"; "TTTTT"]).
Defined.

Lemma run_groupby_per_group_witness :
  exists rows,
    run_groupby insertion_order sort_desc
      [mkRecord "r1" "G1" "T1" "BC1" "AAAAA";
       mkRecord "r4" "G2" "T9" "BC1" "AAAAT";
       mkRecord "r2" "G1" "T2" "BC1" "AAAAT"]
    = Ok (frame_of_corrected rows) /\
    map fst rows
    = [mkRecord "r1" "G1" "T1" "BC1" "AAAAA";
       mkRecord "r4" "G2" "T9" "BC1" "AAAAT";
       mkRecord "r2" "G1" "T2" "BC1" "AAAAT"] /\
    forall r c, In (r, c) rows ->
      exists m,
        correction_map insertion_order
          (value_counts sort_desc
             (map rec_umi
                (filter (fun x => String.eqb (gene_cell x) (gene_cell r))
                   [mkRecord "r1" "G1" "T1" "BC1" "AAAAA";
                    mkRecord "r4" "G2" "T9" "BC1" "AAAAT";
                    mkRecord "r2" "G1" "T2" "BC1" "AAAAT"]))) 3 = Ok m /\
        lookup (rec_umi r) m = Some c.
Proof.
  apply (run_groupby_per_group insertion_order insertion_order_perm
           sort_desc (@sort_desc_perm string)).
Defined.

(** ** Directional Grouper on any list of components *)

Section GrouperGeneral.

Variable set_order : list umi -> list umi.
Hypothesis set_order_perm : forall s, Permutation (set_order s) s.

Lemma group_step_general (counts : counts_dict) (c : list umi)
    (observed : list umi) (groups0 : list (list umi)) :
  NoDup c -> incl c (keys counts) ->
  exists observed' g,
    group_step set_order counts (observed, groups0) c
    = Ok (observed', groups0 ++ [g]) /\
    incl g c /\ NoDup g /\ descending counts g /\
    (forall x, In x c -> In x observed \/ In x g) /\
    (forall x, In x observed' <-> In x observed \/ In x c).
Proof.
  intros Hnd Hc. unfold group_step.
  assert (Hperm := set_order_perm c).
  destruct (Nat.eqb_spec (List.length c) 1) as [Hlen|Hlen].
  - destruct c as [|x [|y c]]; try discriminate.
    assert (E : set_order [x] = [x]).
    { apply Permutation_length_1_inv. apply Permutation_sym. exact Hperm. }
    rewrite E. exists (set_update observed [x]), [x].
    split; [reflexivity|]. split; [apply incl_refl|]. split; [exact Hnd|].
    split; [repeat constructor|]. split; [auto|].
    intros z. apply set_update_In.
  - destruct (sorted_by_count_desc_spec counts (set_order c))
      as (sorted & Hsort & Hperm' & Hdesc).
    { intros x Hx. apply Hc. eapply Permutation_in; eauto. }
    rewrite Hsort. cbn [bind].
    assert (Hps : Permutation sorted c)
      by (eapply Permutation_trans; eauto).
    assert (Hnds : NoDup sorted).
    { eapply Permutation_NoDup; [apply Permutation_sym; exact Hps | exact Hnd]. }
    destruct (fold_left group_visit sorted ([], observed))
      as [temp observed'] eqn:Hfold.
    destruct (group_visit_fold sorted _ _ _ _ Hfold Hnds) as [Ht Ho].
    simpl in Ht. subst temp.
    exists observed', (filter (fun x => negb (mem x observed)) sorted).
    split; [reflexivity|]. split.
    + intros x Hx. apply filter_In in Hx.
      eapply Permutation_in; [exact Hps | tauto].
    + split; [now apply NoDup_filter|].
      split; [now apply descending_by_filter|]. split.
      * intros x Hx.
        destruct (in_dec string_dec x observed) as [Hin|Hnin]; [now left|].
        right. apply filter_In. split.
        -- eapply Permutation_in; [apply Permutation_sym; exact Hps | exact Hx].
        -- apply negb_true_iff. now apply mem_false.
      * intros x. rewrite Ho. split; intros [H|H]; auto; right.
        -- eapply Permutation_in; eauto.
        -- eapply Permutation_in; [apply Permutation_sym|]; eauto.
Qed.

Lemma group_fold_general (counts : counts_dict) :
  forall clusters observed groups0,
    (forall c, In c clusters -> NoDup c /\ incl c (keys counts)) ->
    exists observed' groups,
      foldM (group_step set_order counts) clusters (observed, groups0)
      = Ok (observed', groups0 ++ groups) /\
      Forall2 (fun c g => incl g c /\ NoDup g /\ descending counts g)
        clusters groups /\
      (forall x, In x (List.concat clusters) ->
                 In x observed \/ In x (List.concat groups)).
Proof.
  induction clusters as [|c clusters IH]; intros observed groups0 Hcl.
  - exists observed, []. rewrite app_nil_r. split; [reflexivity|].
    split; [constructor | contradiction].
  - destruct (Hcl c (or_introl eq_refl)) as [Hnd Hc].
    destruct (group_step_general counts c observed groups0 Hnd Hc)
      as (observed1 & g & Hstep & Hgc & Hndg & Hdesc & Hcov & Ho).
    destruct (IH observed1 (groups0 ++ [g])) as (observed' & groups & Hfold & Hall & Hcover).
    { intros c' Hc'. apply Hcl. now right. }
    exists observed', (g :: groups). split; [|split].
    + cbn [foldM]. rewrite Hstep. cbn [bind].
      rewrite Hfold, <- app_assoc. reflexivity.
    + constructor; auto.
    + intros x Hx. simpl in Hx. apply in_app_or in Hx. simpl.
      rewrite in_app_iff. destruct Hx as [Hx|Hx].
      * destruct (Hcov x Hx); auto.
      * destruct (Hcover x Hx) as [H|H]; [|auto].
        apply Ho in H. destruct H as [H|H]; [auto|].
        destruct (Hcov x H); auto.
Qed.

(** X16.  For every list of components (sets of UMIs that all have a
    count), whether or not they overlap, [group_directional] returns one
    cluster per component, in order; a cluster holds nodes of its own
    component only, each once, most frequent first; and no node is lost:
    the clusters together hold exactly the nodes of the components. *)
Theorem group_directional_covers (clusters : list (list umi))
    (adj : adj_list) (counts : counts_dict) :
  (forall c, In c clusters -> NoDup c /\ incl c (keys counts)) ->
  exists groups,
    group_directional set_order clusters adj counts = Ok groups /\
    Forall2 (fun c g => incl g c /\ NoDup g /\ descending counts g)
      clusters groups /\
    (forall x, In x (List.concat groups) <-> In x (List.concat clusters)).
Proof.
  intros Hcl.
  destruct (group_fold_general counts clusters [] [] Hcl)
    as (observed' & groups & Hfold & Hall & Hcover).
  exists groups. split; [|split; [exact Hall|]].
  - unfold group_directional. rewrite Hfold. reflexivity.
  - intros x. split.
    + clear -Hall. induction Hall as [|c g cs gs (Hgc & _) _ IH]; simpl.
      * tauto.
      * rewrite !in_app_iff. intros [H|H]; auto.
    + intros Hx. destruct (Hcover x Hx) as [[]|H]. exact H.
Qed.

End GrouperGeneral.

Lemma group_directional_covers_witness :
  exists groups,
    group_directional insertion_order
      [["AAAAAA"; "AAATTT"]; ["TTTTTT"; "AAATTT"]] graph_overlap
      counts_overlap = Ok groups /\
    Forall2
      (fun c g => incl g c /\ NoDup g /\ descending counts_overlap g)
      [["AAAAAA"; "AAATTT"]; ["TTTTTT"; "AAATTT"]] groups /\
    (forall x, In x (List.concat groups) <->
               In x (List.concat
                       [["AAAAAA"; "AAATTT"]; ["TTTTTT"; "AAATTT"]])).
Proof.
  apply (group_directional_covers insertion_order insertion_order_perm).
  intros c [<-|[<-|[]]]; split;
    try (repeat constructor; simpl; intuition discriminate);
    intros x; simpl; tauto.
Defined.

(** ** Record Tagger *)

Lemma lookup_filter_other {V : Type} (t k : string) (d : dict V) :
  k <> t ->
  lookup k (filter (fun kv => negb (String.eqb (fst kv) t)) d) = lookup k d.
Proof.
  intros Hne. induction d as [|[k' v] d IH]; simpl; [reflexivity|].
  destruct (String.eqb_spec k' t) as [->|Hne']; simpl.
  - destruct (String.eqb_spec k t); [contradiction | exact IH].
  - rewrite IH. reflexivity.
Qed.

Lemma lookup_filter_same {V : Type} (t : string) (d : dict V) :
  lookup t (filter (fun kv => negb (String.eqb (fst kv) t)) d) = None.
Proof.
  induction d as [|[k' v] d IH]; simpl; [reflexivity|].
  destruct (String.eqb_spec k' t) as [->|Hne']; simpl; [exact IH|].
  destruct (String.eqb_spec t k'); [congruence | exact IH].
Qed.

Lemma lookup_set_tag_other (t k : string) (v : option string)
    (al : alignment) :
  k <> t -> lookup k (aln_tags (set_tag t v al)) = lookup k (aln_tags al).
Proof.
  intros Hne. destruct v as [v|]; simpl.
  - rewrite lookup_dict_set.
    destruct (String.eqb_spec k t); [contradiction | reflexivity].
  - now apply lookup_filter_other.
Qed.

Lemma lookup_set_tag_same (t : string) (v : option string) (al : alignment) :
  lookup t (aln_tags (set_tag t v al)) = v.
Proof.
  destruct v as [v|]; simpl.
  - rewrite lookup_dict_set, String.eqb_refl. reflexivity.
  - apply lookup_filter_same.
Qed.

Lemma get_Some (d : dict (option string)) (k v : string) :
  get d k = Some v -> getitem d k = Ok (Some v).
Proof.
  unfold get, getitem. destruct (lookup k d) as [o|]; [|discriminate].
  intros ->. reflexivity.
Qed.

Lemma is_not_None_get (d : dict (option string)) (k : string) :
  is_not_None (get d k) = true -> exists v, get d k = Some v.
Proof. destruct (get d k) as [v|]; [eauto | discriminate]. Qed.

(** A read that has a corrected UMI, a gene, a transcript and a barcode
    tag is written with the three tags set and noted in the table. *)
Lemma add_tags_step_selected (umis genes transcripts : dict (option string))
    (out : list alignment) (rows : list (list string)) (al : alignment)
    (ub gn tr cb : string) :
  get umis (query_name al) = Some ub ->
  get genes (query_name al) = Some gn ->
  get transcripts (query_name al) = Some tr ->
  lookup "CB" (aln_tags al) = Some cb ->
  add_tags_step umis genes transcripts (out, rows) al
  = Ok (out ++ [set_tag "TR" (Some tr)
                  (set_tag "GN" (Some gn) (set_tag "UB" (Some ub) al))],
        rows ++ [[query_name al; gn; tr; cb; ub]]).
Proof.
  intros Hub Hgn Htr Hcb. unfold add_tags_step.
  rewrite Hub, Hgn. cbn [is_not_None andb].
  rewrite (get_Some _ _ _ Hub), (get_Some _ _ _ Hgn), (get_Some _ _ _ Htr).
  cbn [bind]. unfold getitem.
  rewrite (lookup_set_tag_other "TR" "GN") by discriminate.
  rewrite lookup_set_tag_same.
  rewrite lookup_set_tag_same.
  rewrite (lookup_set_tag_other "TR" "CB") by discriminate.
  rewrite (lookup_set_tag_other "GN" "CB") by discriminate.
  rewrite (lookup_set_tag_other "UB" "CB") by discriminate.
  rewrite Hcb.
  rewrite (lookup_set_tag_other "TR" "UB") by discriminate.
  rewrite (lookup_set_tag_other "GN" "UB") by discriminate.
  rewrite lookup_set_tag_same.
  reflexivity.
Qed.

(** A step that returns for a read with a corrected UMI and a gene found a
    transcript and a barcode tag for it. *)
Lemma add_tags_step_inv (umis genes transcripts : dict (option string))
    (st st' : list alignment * list (list string)) (al : alignment) :
  add_tags_step umis genes transcripts st al = Ok st' ->
  is_not_None (get umis (query_name al))
  && is_not_None (get genes (query_name al)) = true ->
  exists ub gn tr cb,
    get umis (query_name al) = Some ub /\
    get genes (query_name al) = Some gn /\
    get transcripts (query_name al) = Some tr /\
    lookup "CB" (aln_tags al) = Some cb.
Proof.
  intros Hstep Hsel. apply andb_true_iff in Hsel. destruct Hsel as [Hu Hg].
  apply is_not_None_get in Hu. destruct Hu as [ub Hub].
  apply is_not_None_get in Hg. destruct Hg as [gn Hgn].
  exists ub, gn.
  destruct st as [out rows]. unfold add_tags_step in Hstep.
  rewrite Hub, Hgn in Hstep. cbn [is_not_None andb] in Hstep.
  rewrite (get_Some _ _ _ Hub), (get_Some _ _ _ Hgn) in Hstep.
  cbn [bind] in Hstep.
  unfold getitem at 1 in Hstep. unfold get.
  destruct (lookup (query_name al) transcripts) as [[tr|]|];
    cbn [bind] in Hstep; try discriminate.
  - exists tr. unfold getitem in Hstep.
    rewrite (lookup_set_tag_other "TR" "GN") in Hstep by discriminate.
    rewrite lookup_set_tag_same in Hstep.
    rewrite lookup_set_tag_same in Hstep.
    rewrite (lookup_set_tag_other "TR" "CB") in Hstep by discriminate.
    rewrite (lookup_set_tag_other "GN" "CB") in Hstep by discriminate.
    rewrite (lookup_set_tag_other "UB" "CB") in Hstep by discriminate.
    cbn [bind] in Hstep.
    destruct (lookup "CB" (aln_tags al)) as [cb|];
      cbn [bind] in Hstep; [|discriminate].
    exists cb. auto.
  - exfalso. unfold getitem in Hstep.
    rewrite (lookup_set_tag_other "TR" "GN") in Hstep by discriminate.
    rewrite lookup_set_tag_same in Hstep.
    rewrite lookup_set_tag_same in Hstep.
    cbn [bind] in Hstep. discriminate.
Qed.

Lemma add_tags_fold_spec (umis genes transcripts : dict (option string)) :
  forall (bam : list alignment) (out0 out : list alignment)
         (rows0 rows : list (list string)),
    foldM (add_tags_step umis genes transcripts) bam (out0, rows0)
    = Ok (out, rows) ->
    exists out' rows',
      out = out0 ++ out' /\ rows = rows0 ++ rows' /\
      Forall2 (fun al p => tagged umis genes transcripts al (fst p) (snd p))
        (filter (selected umis genes) bam) (combine out' rows') /\
      List.length out' = List.length rows'.
Proof.
  induction bam as [|al bam IH]; intros out0 out rows0 rows Hfold.
  - simpl in Hfold. inversion Hfold; subst. exists [], [].
    rewrite !app_nil_r. repeat split; constructor.
  - cbn [foldM] in Hfold. apply bind_Ok in Hfold.
    destruct Hfold as ([out1 rows1] & Hstep & Hfold).
    cbn [filter]. unfold selected at 1.
    destruct (is_not_None (get umis (query_name al))
              && is_not_None (get genes (query_name al))) eqn:Hsel.
    + destruct (add_tags_step_inv _ _ _ _ _ _ Hstep Hsel)
        as (ub & gn & tr & cb & Hub & Hgn & Htr & Hcb).
      rewrite (add_tags_step_selected _ _ _ out0 rows0 al ub gn tr cb
                 Hub Hgn Htr Hcb) in Hstep.
      inversion Hstep; subst out1 rows1; clear Hstep.
      destruct (IH _ _ _ _ Hfold) as (out' & rows' & -> & -> & Hall & Hlen).
      eexists (_ :: out'), (_ :: rows').
      rewrite <- !app_assoc. split; [reflexivity|]. split; [reflexivity|].
      split; [|simpl; now rewrite Hlen].
      cbn [combine]. constructor; [|exact Hall].
      exists ub, gn, tr, cb. cbn [fst snd]. auto 7.
    + unfold add_tags_step in Hstep. rewrite Hsel in Hstep.
      inversion Hstep; subst out1 rows1; clear Hstep.
      now apply IH.
Qed.

Lemma add_tags_fold_returns (umis genes transcripts : dict (option string)) :
  forall (bam : list alignment) (out0 : list alignment)
         (rows0 : list (list string)),
    (forall al, In al (filter (selected umis genes) bam) ->
       is_not_None (get transcripts (query_name al)) = true /\
       In "CB" (keys (aln_tags al))) ->
    exists out rows,
      foldM (add_tags_step umis genes transcripts) bam (out0, rows0)
      = Ok (out, rows).
Proof.
  induction bam as [|al bam IH]; intros out0 rows0 Hok.
  - exists out0, rows0. reflexivity.
  - cbn [foldM]. cbn [filter] in Hok. unfold selected at 1 in Hok.
    destruct (is_not_None (get umis (query_name al))
              && is_not_None (get genes (query_name al))) eqn:Hsel.
    + destruct (Hok al (or_introl eq_refl)) as [Htr Hcb].
      apply andb_true_iff in Hsel. destruct Hsel as [Hu Hg].
      apply is_not_None_get in Hu. destruct Hu as [ub Hub].
      apply is_not_None_get in Hg. destruct Hg as [gn Hgn].
      apply is_not_None_get in Htr. destruct Htr as [tr Htr].
      apply lookup_in_keys in Hcb. destruct Hcb as [cb Hcb].
      rewrite (add_tags_step_selected _ _ _ out0 rows0 al ub gn tr cb
                 Hub Hgn Htr Hcb). cbn [bind].
      apply IH. intros al' Hal'. apply Hok. now right.
    + unfold add_tags_step at 1. rewrite Hsel. cbn [bind]. now apply IH.
Qed.

(** X17.  Whenever [add_tags] returns, it has written, in the order of the
    input, exactly the alignments whose read has a corrected UMI and a
    gene, each with the tags UB, GN and TR set to the read's corrected
    UMI, gene and transcript and otherwise unchanged, and the read-tag
    table has one row [read_id, gene, transcript, barcode, umi] per written
    alignment.  It returns whenever each such read has a transcript and a
    CB tag. *)
Theorem add_tags_output (bam : list alignment)
    (umis genes transcripts : dict (option string)) :
  (forall out rows,
     add_tags bam umis genes transcripts = Ok (out, rows) ->
     List.length out = List.length rows /\
     Forall2 (fun al p => tagged umis genes transcripts al (fst p) (snd p))
       (filter (selected umis genes) bam) (combine out rows)) /\
  ((forall al, In al (filter (selected umis genes) bam) ->
      is_not_None (get transcripts (query_name al)) = true /\
      In "CB" (keys (aln_tags al))) ->
   exists out rows, add_tags bam umis genes transcripts = Ok (out, rows)).
Proof.
  split.
  - intros out rows Hadd. unfold add_tags in Hadd.
    destruct (add_tags_fold_spec _ _ _ _ _ _ _ _ Hadd)
      as (out' & rows' & Ho & Hr & Hall & Hlen).
    simpl in Ho, Hr. subst out rows. split; [exact Hlen | exact Hall].
  - intros Hok. unfold add_tags. now apply add_tags_fold_returns.
Qed.

Lemma add_tags_output_witness :
  exists out rows,
    add_tags example_bam
      [("r1", Some "AAAAA"); ("r2", Some "AAAAA")]
      [("r1", Some "G1"); ("r2", None)]
      [("r1", Some "T1")] = Ok (out, rows) /\
    List.length out = List.length rows /\
    Forall2
      (fun al p =>
         tagged [("r1", Some "AAAAA"); ("r2", Some "AAAAA")]
           [("r1", Some "G1"); ("r2", None)] [("r1", Some "T1")]
           al (fst p) (snd p))
      (filter
         (selected [("r1", Some "AAAAA"); ("r2", Some "AAAAA")]
            [("r1", Some "G1"); ("r2", None)]) example_bam)
      (combine out rows).
Proof.
  destruct (add_tags_output example_bam
              [("r1", Some "AAAAA"); ("r2", Some "AAAAA")]
              [("r1", Some "G1"); ("r2", None)]
              [("r1", Some "T1")]) as [Hspec Hreturns].
  destruct Hreturns as (out & rows & E).
  - intros al Hal. vm_compute in Hal. destruct Hal as [<-|[]].
    split; [reflexivity | simpl; tauto].
  - exists out, rows. split; [exact E|]. exact (Hspec out rows E).
Defined.

(** ** The order of the clusters *)

Lemma reach_count_le (counts : counts_dict) (threshold : Z) (adj : adj_list) :
  (forall u, In u (keys counts) -> 1 <= count_of counts u) ->
  (forall u v, In v (neighbours adj u) ->
               In u (keys counts) /\ In v (keys counts) /\ v <> u /\
               edge counts threshold u v) ->
  forall n x, reach adj n x -> count_of counts x <= count_of counts n.
Proof.
  intros Hpos N n x Hr. induction Hr as [|m k _ IH Hk]; [lia|].
  apply N in Hk. destruct Hk as (Hm & Hkk & _ & _ & Hc).
  pose proof (Hpos m Hm). pose proof (Hpos k Hkk). lia.
Qed.

Lemma in_firstn_1 {A : Type} (g : list A) (r : A) :
  In r (firstn 1 g) -> In r g.
Proof. destruct g as [|a g]; simpl; tauto. Qed.

Lemma clusters_descending_aux (counts : counts_dict) (adj : adj_list) :
  (forall n x, reach adj n x -> count_of counts x <= count_of counts n) ->
  forall found order comps,
    discovered adj found order comps ->
    forall observed groups,
      grouped counts observed comps groups ->
      (forall x, In x observed <-> In x found) ->
      descending counts order ->
      descending counts (flat_map (firstn 1) groups) /\
      forall g x, In g groups -> In x g ->
        exists n, In n order /\ count_of counts x <= count_of counts n.
Proof.
  intros Hle found order comps H.
  induction H as [found|found n order comps Hn _ IH
                 |found found' n order c comps Hn Hnd Hc Hf _ IH];
    intros observed groups Hgr Hobs Hdesc.
  - inversion Hgr; subst. split; [constructor | contradiction].
  - inversion Hdesc as [|? ? _ Hdesc']; subst.
    destruct (IH observed groups Hgr Hobs Hdesc') as [Hd Hb].
    split; [exact Hd|]. intros g x Hg Hx.
    destruct (Hb g x Hg Hx) as (m & Hm & Hxm).
    exists m. split; [now right | exact Hxm].
  - inversion Hgr as [|? observed' ? ? g groups' Hndg Hdg Hg Ho Hgr'];
      subst.
    inversion Hdesc as [|? ? Hall Hdesc']; subst.
    destruct (IH observed' groups' Hgr') as [Hd Hb]; [|exact Hdesc'|].
    { intros x. rewrite Ho, Hf, Hobs. tauto. }
    assert (Hng : In n g).
    { apply Hg. split; [apply Hc; constructor|]. rewrite Hobs. exact Hn. }
    split.
    + cbn [flat_map]. destruct g as [|r g']; [contradiction|].
      cbn [firstn app]. constructor; [|exact Hd].
      apply Forall_forall. intros r' Hr'. apply in_flat_map in Hr'.
      destruct Hr' as (g'' & Hg'' & Hr').
      destruct (Hb g'' r' Hg'' (in_firstn_1 _ _ Hr')) as (m & Hm & Hrm).
      rewrite Forall_forall in Hall. pose proof (Hall m Hm).
      pose proof (descending_by_head _ _ _ Hdg n Hng). simpl in *. lia.
    + intros g0 x [<-|Hg0] Hx.
      * exists n. split; [now left|]. apply Hle, Hc, Hg, Hx.
      * destruct (Hb g0 x Hg0 Hx) as (m & Hm & Hxm).
        exists m. split; [now right | exact Hxm].
Qed.

Section ClusterOrder.

Variable set_order : list umi -> list umi.
Hypothesis set_order_perm : forall s, Permutation (set_order s) s.

(** X18.  When every count is at least 1, the clusters come out in
    descending order of the count of their first element (their
    representative), and the representative of the first cluster has the
    highest count of the whole map. *)
Theorem clusters_descending (counts : counts_dict) (threshold : Z) :
  NoDup (keys counts) ->
  (forall u, In u (keys counts) -> 1 <= count_of counts u) ->
  exists clusters,
    cluster set_order counts threshold = Ok clusters /\
    descending counts (flat_map (firstn 1) clusters) /\
    forall r rest others u,
      clusters = (r :: rest) :: others -> In u (keys counts) ->
      count_of counts u <= count_of counts r.
Proof.
  intros Hnd Hpos.
  destruct (cluster_spec set_order set_order_perm counts threshold Hnd)
    as (adj & order & comps & groups & _ & K & Hcl & N & _ & Hperm & Hdesc & _
        & Hdisc & _ & Hgr & Hne & Hcluster).
  assert (Hle : forall n x, reach adj n x ->
                  count_of counts x <= count_of counts n).
  { apply (reach_count_le counts threshold adj Hpos).
    intros u v Huv. now apply N. }
  destruct (clusters_descending_aux counts adj Hle [] order comps Hdisc
              [] groups Hgr (fun x => iff_refl _) Hdesc) as [Hd _].
  destruct (grouped_concat counts [] comps groups Hgr) as (_ & Hin & Hall).
  exists groups. split; [exact Hcluster|]. split; [exact Hd|].
  intros r rest others u Hgroups Hu.
  assert (Hug : exists g, In g groups /\ In u g).
  { assert (Huo : In u order).
    { eapply Permutation_in; [apply Permutation_sym; exact Hperm | exact Hu]. }
    destruct (discovered_covers adj [] order comps Hdisc u Huo)
      as [[]|(c & Hc & Huc)].
    assert (Hcat : In u (List.concat groups)).
    { apply Hin. split; [exists c; auto | tauto]. }
    apply in_concat in Hcat. destruct Hcat as (g & Hg & Hug).
    exists g. auto. }
  destruct Hug as (g & Hg & Hug).
  destruct (Forall2_In_r _ _ _ g Hall Hg) as (c & _ & Hdg & _).
  rewrite Forall_forall in Hne.
  destruct g as [|r' g'] eqn:Eg; [exfalso; now apply (Hne [])|].
  pose proof (descending_by_head _ _ _ Hdg u Hug) as Hur'.
  subst groups. cbn [flat_map firstn app] in Hd.
  destruct Hg as [Hg|Hg].
  - inversion Hg; subst. exact Hur'.
  - inversion Hd as [|? ? Hfa _]; subst.
    rewrite Forall_forall in Hfa.
    assert (Hr' : In r' (flat_map (firstn 1) others)).
    { apply in_flat_map. exists (r' :: g'). split; [exact Hg | now left]. }
    pose proof (Hfa r' Hr'). simpl in *. lia.
Qed.

End ClusterOrder.

Lemma clusters_descending_witness :
  exists clusters,
    cluster insertion_order counts_scenario 2 = Ok clusters /\
    descending counts_scenario (flat_map (firstn 1) clusters) /\
    forall r rest others u,
      clusters = (r :: rest) :: others -> In u (keys counts_scenario) ->
      count_of counts_scenario u <= count_of counts_scenario r.
Proof.
  apply (clusters_descending insertion_order insertion_order_perm
           counts_scenario 2 counts_scenario_NoDup).
  intros u Hu. simpl in Hu.
  destruct Hu as [<-|[<-|[<-|[]]]]; vm_compute; discriminate.
Defined.

(** ** The batches hold every record once *)

Lemma filter_partition_perm {A : Type} (f : A -> bool) (l : list A) :
  Permutation (filter f l ++ filter (fun x => negb (f x)) l) l.
Proof.
  induction l as [|x l IH]; simpl; [constructor|].
  destruct (f x); simpl.
  - now apply perm_skip.
  - apply Permutation_sym. apply Permutation_cons_app.
    now apply Permutation_sym.
Qed.

Lemma loc_without (df : list record) (k : string) (ks : list string) :
  ~ In k ks ->
  loc (filter (fun r => negb (String.eqb (gene_cell r) k)) df) ks = loc df ks.
Proof.
  intros Hk. unfold loc. induction ks as [|k' ks IH]; simpl; [reflexivity|].
  rewrite IH by (intros H; apply Hk; now right). f_equal.
  assert (Hne : k' <> k) by (intros ->; apply Hk; now left).
  clear -Hne. induction df as [|r df IH]; simpl; [reflexivity|].
  destruct (String.eqb_spec (gene_cell r) k) as [E|E]; simpl.
  - destruct (String.eqb_spec (gene_cell r) k'); [congruence | exact IH].
  - rewrite IH. reflexivity.
Qed.

Lemma loc_permutation (ks : list string) :
  forall df : list record,
    NoDup ks ->
    (forall r, In r df -> In (gene_cell r) ks) ->
    Permutation (loc df ks) df.
Proof.
  induction ks as [|k ks IH]; intros df Hnd Hcover.
  - destruct df as [|r df]; [constructor|].
    exfalso. apply (Hcover r). now left.
  - inversion Hnd as [|? ? Hk Hnd']; subst.
    change (loc df (k :: ks))
      with (filter (fun r => String.eqb (gene_cell r) k) df ++ loc df ks).
    rewrite <- (loc_without df k ks Hk).
    eapply Permutation_trans;
      [|apply (filter_partition_perm
                 (fun r => String.eqb (gene_cell r) k) df)].
    apply Permutation_app_head. apply IH; [exact Hnd'|].
    intros r Hr. apply filter_In in Hr. destruct Hr as [Hr Hne].
    destruct (Hcover r Hr) as [E|Hin]; [|exact Hin].
    rewrite <- E, String.eqb_refl in Hne. discriminate.
Qed.

Lemma concat_map_loc (df : list record) (chunks0 : list (list string)) :
  List.concat (map (loc df) chunks0) = loc df (List.concat chunks0).
Proof.
  unfold loc. induction chunks0 as [|c cs IH]; simpl; [reflexivity|].
  rewrite IH, flat_map_app. reflexivity.
Qed.

(** X19.  The frames that [process_records] hands to the pool hold, taken
    together, every retained record exactly once: cutting the groups into
    batches loses no read and repeats none. *)
Theorem batches_hold_every_record (set_order : list umi -> list umi)
    (records : list record) :
  (forall s, Permutation (set_order s) s) ->
  Permutation
    (List.concat
       (map (loc records)
          (chunks (set_order (set_update [] (map gene_cell records)))
             gene_cell_per_chunk)))
    records.
Proof.
  intros Hperm. rewrite concat_map_loc.
  rewrite chunks_concat by (unfold gene_cell_per_chunk; lia).
  apply loc_permutation.
  - eapply Permutation_NoDup; [apply Permutation_sym, Hperm|].
    apply set_update_NoDup. constructor.
  - intros r Hr. eapply Permutation_in; [apply Permutation_sym, Hperm|].
    apply set_update_In. right. now apply in_map.
Qed.

Lemma batches_hold_every_record_witness :
  Permutation
    (List.concat
       (map (loc [mkRecord "r1" "G1" "T1" "BC1" "AAAAA";
                  mkRecord "r4" "G2" "T9" "BC1" "AAAAT";
                  mkRecord "r2" "G1" "T2" "BC1" "AAAAT"])
          (chunks
             (reverse_order
                (set_update []
                   (map gene_cell
                      [mkRecord "r1" "G1" "T1" "BC1" "AAAAA";
                       mkRecord "r4" "G2" "T9" "BC1" "AAAAT";
                       mkRecord "r2" "G1" "T2" "BC1" "AAAAT"])))
             gene_cell_per_chunk)))
    [mkRecord "r1" "G1" "T1" "BC1" "AAAAA";
     mkRecord "r4" "G2" "T9" "BC1" "AAAAT";
     mkRecord "r2" "G1" "T2" "BC1" "AAAAT"].
Proof.
  apply (batches_hold_every_record reverse_order _ reverse_order_perm).
Defined.

(** ** Missing counts and a zero interval *)

Lemma mapM_counts_missing (counts : counts_dict) (l1 l2 : list umi)
    (k : umi) :
  incl l1 (keys counts) -> ~ In k (keys counts) ->
  mapM (fun x => c <- getitem counts x ;; Ok (x, c)) (l1 ++ k :: l2)
  = Raise (KeyError k).
Proof.
  intros Hl1 Hk. induction l1 as [|x l1 IH]; simpl.
  - unfold getitem. apply lookup_None in Hk. rewrite Hk. reflexivity.
  - rewrite (getitem_count counts x) by (apply Hl1; now left).
    cbn [bind]. rewrite IH; [reflexivity|].
    intros y Hy. apply Hl1. now right.
Qed.

(** X20.  When a key of the graph has no count, the component extraction
    raises [KeyError] for the first such key, before any search: the sort
    by count looks every key up. *)
Theorem components_missing_count (set_order : list umi -> list umi)
    (umis : list umi) (graph : adj_list) (counts : counts_dict)
    (l1 l2 : list umi) (k : umi) :
  keys graph = l1 ++ k :: l2 ->
  incl l1 (keys counts) -> ~ In k (keys counts) ->
  get_connected_components_adjacency set_order umis graph counts
  = Raise (KeyError k).
Proof.
  intros Hkeys Hl1 Hk. unfold get_connected_components_adjacency,
    sorted_by_count_desc.
  rewrite Hkeys, (mapM_counts_missing counts l1 l2 k Hl1 Hk). reflexivity.
Qed.

Lemma components_missing_count_witness :
  get_connected_components_adjacency insertion_order
    (keys graph_overlap) graph_overlap [("AAAAAA", 5); ("AAATTT", 2)]
  = Raise (KeyError "TTTTTT").
Proof.
  apply (components_missing_count insertion_order (keys graph_overlap)
           graph_overlap [("AAAAAA", 5); ("AAATTT", 2)]
           ["AAAAAA"] ["AAATTT"] "TTTTTT").
  - reflexivity.
  - intros x [<-|[]]. simpl. tauto.
  - simpl. intuition discriminate.
Defined.

Lemma record_loop_raises (ta : option (dict string)) (a : args) (e : exn) :
  forall (rows1 : list row) (r : row) (rows2 : list row)
         (all1 : list record) (st : list record * counter),
    mapM (row_record ta a) rows1 = Ok all1 ->
    row_record ta a r = Raise e ->
    foldM (record_step ta a) (rows1 ++ r :: rows2) st = Raise e.
Proof.
  induction rows1 as [|r1 rows1 IH]; intros r rows2 all1 [records c] Hall Hr.
  - simpl. rewrite Hr. reflexivity.
  - simpl in Hall.
    apply bind_Ok in Hall. destruct Hall as (rec & Hrow & Hall).
    apply bind_Ok in Hall. destruct Hall as (rest & Hrest & _).
    cbn [app foldM]. unfold record_step at 1. rewrite Hrow. cbn [bind].
    destruct (counter_get _ _ <=? _); cbn [bind]; eapply IH; eauto.
Qed.

(** X21.  With an interval size of 0, the first read without a gene
    (gene ["NA"]) whose transcript is in the table makes the loop over the
    reads raise [ZeroDivisionError]; no record is returned. *)
Theorem zero_interval_raises (t : dict string) (a : args)
    (rows1 : list row) (r : row) (rows2 : list row) (all1 : list record) :
  ref_interval a = 0 ->
  mapM (row_record (Some t) a) rows1 = Ok all1 ->
  gene r = "NA" -> In (Index r) (keys t) ->
  collect_records (Some t) a (rows1 ++ r :: rows2) = Raise ZeroDivisionError.
Proof.
  intros Hzero Hall Hna Hin. unfold collect_records.
  rewrite (record_loop_raises (Some t) a ZeroDivisionError rows1 r rows2 all1
             ([], empty_counter) Hall); [reflexivity|].
  unfold row_record. apply lookup_in_keys in Hin. destruct Hin as [tr Htr].
  unfold getitem. rewrite Htr. cbn [bind].
  rewrite Hna, String.eqb_refl.
  unfold create_region_name. rewrite Hzero. reflexivity.
Qed.

Lemma zero_interval_raises_witness :
  collect_records (Some example_transcripts) (mkArgs "chr1" 0 2 4)
    (merged_rows example_gene_assigns example_transcripts example_tags)
  = Raise ZeroDivisionError.
Proof.
  apply (zero_interval_raises example_transcripts (mkArgs "chr1" 0 2 4)
           [mkRow "r1" "G1" "T1" "BC1" "AAAAA" "chr1" 1400 1600;
            mkRow "r2" "G1" "T2" "BC1" "AAAAT" "chr1" 1410 1610;
            mkRow "r3" "G1" "T2" "BC1" "AAAAT" "chr1" 1420 1620]
           (mkRow "r4" "NA" "T9" "BC1" "AAAAT" "chr1" 1900 2100) []
           [mkRecord "r1" "G1" "T1" "BC1" "AAAAA";
            mkRecord "r2" "G1" "T2" "BC1" "AAAAT";
            mkRecord "r3" "G1" "T2" "BC1" "AAAAT"]).
  - reflexivity.
  - vm_compute. reflexivity.
  - reflexivity.
  - simpl. tauto.
Defined.

(** ** When a tie decides *)

Lemma front_order_perm (x : umi) (s : list umi) :
  Permutation (front_order x s) s.
Proof. apply filter_partition_perm. Qed.

Lemma front_order_head (x : umi) (s : list umi) :
  In x s -> exists rest, front_order x s = x :: rest.
Proof.
  intros Hx. unfold front_order.
  assert (Hf : In x (filter (String.eqb x) s)).
  { apply filter_In. split; [exact Hx | apply String.eqb_refl]. }
  destruct (filter (String.eqb x) s) as [|y l] eqn:E; [contradiction|].
  assert (Hy : In y (filter (String.eqb x) s)) by (rewrite E; now left).
  apply filter_In in Hy. destruct Hy as [_ Hy]. apply String.eqb_eq in Hy.
  subst y. simpl. eauto.
Qed.

(** The stable sort leaves a list of equal keys as it is. *)
Lemma sort_desc_tied {A : Type} (k : Z) (l : list (A * Z)) :
  (forall p, In p l -> snd p = k) -> sort_desc l = l.
Proof.
  induction l as [|x l IH]; intros Hk; [reflexivity|].
  simpl. rewrite IH by (intros p Hp; apply Hk; now right).
  destruct l as [|y l']; [reflexivity|]. simpl.
  rewrite (Hk x (or_introl eq_refl)), (Hk y (or_intror (or_introl eq_refl))).
  replace (k >=? k) with true by (symmetry; apply Z.geb_le; lia).
  reflexivity.
Qed.

(** Along a path on which the count does not drop, between UMIs that occur
    at least once, every count is 1 and every edge has its reverse. *)
Lemma tied_path_back (counts : counts_dict) (threshold : Z) (adj : adj_list) :
  (forall x, In x (keys counts) -> 1 <= count_of counts x) ->
  (forall a b, In b (neighbours adj a) <->
               In a (keys counts) /\ In b (keys counts) /\ b <> a /\
               edge counts threshold a b) ->
  forall u v, reach adj u v -> count_of counts u = count_of counts v ->
    reach adj v u /\ (v <> u -> count_of counts u = 1).
Proof.
  intros Hpos N u v Hr. induction Hr as [|m k Hm IH Hk]; intros Hc.
  - split; [constructor | contradiction].
  - pose proof (reach_count_le counts threshold adj Hpos
                  (fun a b H => proj1 (N a b) H) u m Hm) as Hle.
    destruct (proj1 (N m k) Hk) as (Hmk & Hkk & Hne & Hd & Hcm).
    pose proof (Hpos m Hmk). pose proof (Hpos k Hkk).
    assert (Hmu : count_of counts u = count_of counts m) by lia.
    destruct (IH Hmu) as [Hback _].
    assert (Hone : count_of counts u = 1) by lia.
    split; [|intros _; exact Hone].
    apply reach_trans with (b := m); [|exact Hback].
    apply reach_step with (m := k); [constructor|].
    apply N. split; [exact Hkk|]. split; [exact Hmk|].
    split; [congruence|]. split.
    + rewrite edit_distance_sym. exact Hd.
    + lia.
Qed.

(** Clusters keep together two UMIs that every component has both or
    neither of. *)
Lemma grouped_together (counts : counts_dict) (x u : umi) :
  forall observed comps groups,
    grouped counts observed comps groups ->
    (forall c, In c comps -> (In x c <-> In u c)) ->
    (In x observed <-> In u observed) ->
    forall g, In g groups -> In x g -> In u g.
Proof.
  intros observed comps groups H.
  induction H as [observed|observed observed' c comps g0 groups
                    Hnd Hdesc Hg Ho _ IH];
    intros Hboth Hobs g Hin Hx.
  - contradiction.
  - destruct Hin as [<-|Hin].
    + apply Hg. apply Hg in Hx. rewrite <- (Hboth c (or_introl eq_refl)).
      tauto.
    + apply IH with (g := g); auto.
      * intros c' Hc'. apply Hboth. now right.
      * rewrite !Ho, (Hboth c (or_introl eq_refl)). tauto.
Qed.

Section HeadOfTies.

Variable set_order : list umi -> list umi.
Hypothesis set_order_perm : forall s, Permutation (set_order s) s.

(** A component of several members of one count, of which the set hands
    out [x] first: when [x] is not observed yet, the cluster begins with
    [x]. *)
Lemma group_step_tied (counts : counts_dict) (c observed : list umi)
    (groups0 : list (list umi)) (x : umi) (rest : list umi) (k : Z) :
  NoDup c -> incl c (keys counts) ->
  List.length c <> 1%nat ->
  (forall t, In t c -> count_of counts t = k) ->
  set_order c = x :: rest -> ~ In x observed ->
  exists observed' g,
    group_step set_order counts (observed, groups0) c
    = Ok (observed', groups0 ++ [x :: g]).
Proof.
  intros Hnd Hc Hlen Hk Hso Hx. unfold group_step.
  replace (List.length c =? 1)%nat with false
    by (symmetry; now apply Nat.eqb_neq).
  assert (Hperm := set_order_perm c).
  assert (Hinc : incl (set_order c) (keys counts)).
  { intros t Ht. apply Hc. eapply Permutation_in; eauto. }
  unfold sorted_by_count_desc. rewrite (mapM_counts counts _ Hinc).
  cbn [bind].
  rewrite (sort_desc_tied k).
  - rewrite map_map. cbn [fst]. rewrite map_id, Hso.
    destruct (fold_left group_visit (x :: rest) ([], observed))
      as [temp observed'] eqn:Hfold.
    assert (Hnds : NoDup (x :: rest)).
    { rewrite <- Hso. eapply Permutation_NoDup;
        [apply Permutation_sym; exact Hperm | exact Hnd]. }
    destruct (group_visit_fold _ _ _ _ _ Hfold Hnds) as [Ht _].
    subst temp. cbn [app filter].
    replace (mem x observed) with false by (symmetry; now apply mem_false).
    cbn [negb]. eauto.
  - intros p Hp. apply in_map_iff in Hp. destruct Hp as (t & <- & Ht).
    cbn [snd]. apply Hk. eapply Permutation_in; eauto.
Qed.

(** The cluster of the first component that has [x] begins with [x], when
    every component that has [x] is such a component. *)
Lemma group_fold_head (counts : counts_dict) (x : umi) (k : Z) :
  forall comps observed groups0 observed' groups,
    foldM (group_step set_order counts) comps (observed, groups0)
    = Ok (observed', groups) ->
    (forall c, In c comps -> NoDup c /\ incl c (keys counts)) ->
    (forall c, In c comps -> In x c ->
       List.length c <> 1%nat /\
       (forall t, In t c -> count_of counts t = k) /\
       exists rest, set_order c = x :: rest) ->
    ~ In x observed ->
    (exists c, In c comps /\ In x c) ->
    exists g, In (x :: g) groups.
Proof.
  induction comps as [|c comps IH];
    intros observed groups0 observed' groups Hfold Hwf Hall Hobs Hex.
  - destruct Hex as (c & [] & _).
  - destruct (Hwf c (or_introl eq_refl)) as [Hnd Hc].
    assert (Hwf' : forall c', In c' comps -> NoDup c' /\ incl c' (keys counts))
      by (intros c' Hc'; apply Hwf; now right).
    cbn [foldM] in Hfold.
    destruct (in_dec string_dec x c) as [Hxc|Hxc].
    + destruct (Hall c (or_introl eq_refl) Hxc) as (Hlen & Hk & rest & Hso).
      destruct (group_step_tied counts c observed groups0 x rest k
                  Hnd Hc Hlen Hk Hso Hobs) as (observed1 & g & Hstep).
      rewrite Hstep in Hfold. cbn [bind] in Hfold.
      destruct (group_fold_general set_order set_order_perm counts comps
                  observed1 (groups0 ++ [x :: g]) Hwf')
        as (observed2 & more & Hmore & _).
      rewrite Hmore in Hfold. inversion Hfold; subst.
      exists g. apply in_or_app. left. apply in_or_app. right. now left.
    + destruct (group_step_general set_order set_order_perm counts c observed
                  groups0 Hnd Hc)
        as (observed1 & g & Hstep & _ & _ & _ & _ & Ho).
      rewrite Hstep in Hfold. cbn [bind] in Hfold.
      apply (IH observed1 (groups0 ++ [g]) observed' groups Hfold Hwf').
      * intros c' Hc'. apply Hall. now right.
      * rewrite Ho. tauto.
      * destruct Hex as (c' & [<-|Hc'] & Hx); [contradiction|]. eauto.
Qed.

End HeadOfTies.

(** Under the order that hands out [x] first, where [x] is [u] or the UMI
    [v] that ties with it, the representative of [u] is [x]. *)
Lemma front_order_representative (counts : counts_dict) (threshold : Z)
    (adj : adj_list) (u v x : umi) :
  NoDup (keys counts) ->
  (forall y, In y (keys counts) -> 1 <= count_of counts y) ->
  get_adj_list_directional (keys counts) counts threshold = Ok adj ->
  reach adj u v -> v <> u -> count_of counts u = count_of counts v ->
  (forall h, reach adj h u -> count_of counts h <= count_of counts u) ->
  x = u \/ x = v ->
  exists m,
    correction_map (front_order x) counts threshold = Ok m /\
    lookup u m = Some x.
Proof.
  intros Hnd Hpos Hadj Hr Hne Hc Htop Hx.
  destruct (cluster_spec (front_order x) (front_order_perm x) counts threshold
              Hnd)
    as (adj' & order & comps & groups & Hadj' & K & Hcl & N & _ & Hperm & _
        & _ & Hdisc & Hgd & Hgr & _ & Hcluster).
  assert (adj' = adj) by congruence. subst adj'.
  destruct (tied_path_back counts threshold adj Hpos N u v Hr Hc)
    as [Hback Hone].
  specialize (Hone Hne).
  assert (Hle : forall n y, reach adj n y ->
                  count_of counts y <= count_of counts n).
  { apply (reach_count_le counts threshold adj Hpos).
    intros a b H. now apply N. }
  assert (Hux : reach adj u x)
    by (destruct Hx as [E|E]; rewrite E; [constructor | exact Hr]).
  assert (Hxu : reach adj x u)
    by (destruct Hx as [E|E]; rewrite E; [constructor | exact Hback]).
  assert (Huk : In u (keys adj)) by exact (reach_start_key adj u v Hr Hne).
  assert (Hxk : In x (keys adj)) by (eapply reach_closed_keys; eauto).
  assert (Hord : incl order (keys adj)).
  { intros y Hy. rewrite K. eapply Permutation_in; eauto. }
  assert (Hwf : forall c, In c comps -> NoDup c /\ incl c (keys counts)).
  { intros c Hin. rewrite <- K.
    apply (discovered_within adj [] order comps Hcl Hord Hdisc c Hin). }
  assert (Hboth : forall c, In c comps -> (In x c <-> In u c)).
  { intros c Hin.
    destruct (discovered_starts adj [] order comps Hdisc c Hin)
      as (n & _ & Hn).
    rewrite !Hn. split; intros H; eapply reach_trans; eauto. }
  assert (Hall : forall c, In c comps -> In x c ->
            List.length c <> 1%nat /\
            (forall t, In t c -> count_of counts t = 1) /\
            exists rest, front_order x c = x :: rest).
  { intros c Hin Hxc.
    destruct (discovered_starts adj [] order comps Hdisc c Hin)
      as (n & _ & Hn).
    assert (Hnu : reach adj n u) by (apply Hn, Hboth; assumption).
    assert (Hnv : reach adj n v) by (eapply reach_trans; eauto).
    pose proof (Htop n Hnu) as Hn1.
    split; [|split].
    - apply Hn in Hnu, Hnv.
      destruct c as [|a [|b c']]; simpl; try discriminate.
      destruct Hnu as [<-|[]]. destruct Hnv as [<-|[]]. contradiction.
    - intros t Ht.
      pose proof (Hle n t (proj1 (Hn t) Ht)).
      pose proof (Hpos t (proj2 (Hwf c Hin) t Ht)). lia.
    - now apply front_order_head. }
  unfold group_directional in Hgd.
  apply bind_Ok in Hgd. destruct Hgd as ([observed' groups'] & Hfold & Hgd).
  simpl in Hgd. inversion Hgd; subst groups'.
  destruct (group_fold_head (front_order x) (front_order_perm x) counts x 1
              comps [] [] observed' groups Hfold Hwf Hall (fun H => H))
    as (g & Hg).
  { assert (Hxo : In x order).
    { eapply Permutation_in; [apply Permutation_sym; exact Hperm|].
      rewrite <- K. exact Hxk. }
    destruct (discovered_covers adj [] order comps Hdisc x Hxo) as [[]|H].
    exact H. }
  assert (Hug : In u (x :: g)).
  { apply (grouped_together counts x u [] comps groups Hgr Hboth
             (conj (fun H => H) (fun H => H)) (x :: g) Hg).
    now left. }
  destruct (grouped_concat counts [] comps groups Hgr) as (Hndc & _ & _).
  destruct (create_map_fold_spec groups []) as (m & Hm & Hspec).
  destruct (Hspec Hndc) as [Hmap _].
  exists m. split; [unfold correction_map; rewrite Hcluster; exact Hm|].
  destruct (Hmap (x :: g) u Hg Hug) as (r & Hr' & Hl).
  simpl in Hr'. inversion Hr'; subst. exact Hl.
Qed.

(** X22.  For count maps whose counts are at least 1, [no_deciding_tie] is
    the weakest condition under which the iteration order of the sets does
    not matter: when a UMI [u] reaches a different UMI [v] of the same count
    and no UMI of higher count reaches [u], there are two iteration orders
    of the sets under which [u] gets different representatives ([u] itself
    under one, [v] under the other). *)
Theorem deciding_tie_changes_map (counts : counts_dict) (threshold : Z)
    (adj : adj_list) (u v : umi) :
  NoDup (keys counts) ->
  (forall y, In y (keys counts) -> 1 <= count_of counts y) ->
  get_adj_list_directional (keys counts) counts threshold = Ok adj ->
  reach adj u v -> v <> u -> count_of counts u = count_of counts v ->
  (forall h, reach adj h u -> count_of counts h <= count_of counts u) ->
  exists set_order1 set_order2 m1 m2,
    (forall s, Permutation (set_order1 s) s) /\
    (forall s, Permutation (set_order2 s) s) /\
    correction_map set_order1 counts threshold = Ok m1 /\
    correction_map set_order2 counts threshold = Ok m2 /\
    lookup u m1 = Some u /\ lookup u m2 = Some v.
Proof.
  intros Hnd Hpos Hadj Hr Hne Hc Htop.
  destruct (front_order_representative counts threshold adj u v u
              Hnd Hpos Hadj Hr Hne Hc Htop (or_introl eq_refl))
    as (m1 & Hm1 & Hl1).
  destruct (front_order_representative counts threshold adj u v v
              Hnd Hpos Hadj Hr Hne Hc Htop (or_intror eq_refl))
    as (m2 & Hm2 & Hl2).
  exists (front_order u), (front_order v), m1, m2.
  split; [apply front_order_perm|]. split; [apply front_order_perm|]. auto.
Qed.

Lemma deciding_tie_changes_map_witness :
  exists set_order1 set_order2 m1 m2,
    (forall s, Permutation (set_order1 s) s) /\
    (forall s, Permutation (set_order2 s) s) /\
    correction_map set_order1 counts_tie 3 = Ok m1 /\
    correction_map set_order2 counts_tie 3 = Ok m2 /\
    lookup "AC" m1 = Some "AC" /\ lookup "AC" m2 = Some "AG".
Proof.
  apply (deciding_tie_changes_map counts_tie 3
           [("AC", ["AG"]); ("AG", ["AC"])] "AC" "AG").
  - repeat constructor; simpl; intuition discriminate.
  - intros y Hy. simpl in Hy.
    destruct Hy as [<-|[<-|[]]]; vm_compute; discriminate.
  - vm_compute. reflexivity.
  - apply reach_step with (m := "AC"); [constructor | vm_compute; tauto].
  - discriminate.
  - reflexivity.
  - intros h _. unfold count_of, counts_tie. simpl.
    destruct (String.eqb h "AC"); [lia|].
    destruct (String.eqb h "AG"); lia.
Defined.
